(** * DASTrie: a static double-array trie (dastrie.h)

    A shallow embedding of the header-only library [dastrie.h]: the two
    double-array element layouts, the tail array reader and writer, the
    read-only trie (exact lookup and prefix cursor), the builder with its
    vacancy list, and the chunked container reader.

    Conventions of the embedding.
    - [uint8_t] values (key bytes, CHECK values, tail bytes) are [nat];
      a well-formed byte is below 256.
    - [size_type] values (indices, offsets, sizes) are [nat]: every such
      value is bounded by the size of an allocated array, so the
      wrap-around of [size_t] is never reached.
    - [int32_t] values are [Z]; where the source relies on 32-bit
      wrap-around it is written out with [sint32] and [uint32].
    - A C string ([const char*]) is the list of its bytes before the
      terminator; reading at the end of the list yields the terminator 0.
    - Reading a [std::vector] or a raw array out of range is undefined
      behaviour in C++; the embedding makes it the outcome [Undefined]. *)

From Stdlib Require Import ZArith Lia Permutation Sorted String Ascii.
From stdpp Require Import base list numbers.

Local Open Scope Z_scope.

(** ** Outcomes of a call *)

Inductive error : Type :=
  | UnsortedInput      (* "The records are not sorted in dictionary order of keys" *)
  | DuplicateKey       (* "Duplicated keys detected" *)
  | CapacityExceeded   (* "The double array has no space to store ..." *)
  | TrieException.     (* trie::exception("") thrown by next_prefix *)

Inductive outcome (A : Type) : Type :=
  | Ok (a : A)          (* the call returns normally *)
  | Throw (e : error)   (* the call throws a C++ exception *)
  | Undefined           (* out-of-range access: undefined behaviour *)
  | Diverge             (* the call loops forever *)
  | OutOfFuel.          (* the bound of a bounded loop of the model was hit *)

Arguments Ok {A} a.
Arguments Throw {A} e.
Arguments Undefined {A}.
Arguments Diverge {A}.
Arguments OutOfFuel {A}.

Definition obind {A B} (m : outcome A) (k : A -> outcome B) : outcome B :=
  match m with
  | Ok a => k a
  | Throw e => Throw e
  | Undefined => Undefined
  | Diverge => Diverge
  | OutOfFuel => OutOfFuel
  end.

Notation "'do' x <- m ;; k" := (obind m (fun x => k))
  (at level 10, x name, m at level 99, k at level 200).
Notation "'do' ' p <- m ;; k" := (obind m (fun p => k))
  (at level 10, p pattern, m at level 99, k at level 200).

(** [v[i]] for a vector or raw array: undefined out of range. *)
Definition at_ {A} (l : list A) (i : nat) : outcome A :=
  match l !! i with
  | Some a => Ok a
  | None => Undefined
  end.

(** ** Global constants *)

Definition INVALID_INDEX : nat := 0.
Definition INITIAL_INDEX : nat := 1.
Definition NUMCHARS : nat := 256.
Definition CHUNKSIZE : nat := 8.
Definition SDAT_CHUNKSIZE : nat := 16.

(** ** Fixed-width integers *)

(** Conversion to [int32_t] (two's complement wrap-around). *)
Definition sint32 (z : Z) : Z := (z + 2^31) mod 2^32 - 2^31.
(** Conversion to [uint32_t]. *)
Definition uint32 (z : Z) : Z := z mod 2^32.

Definition is_int32 (z : Z) : Prop := - 2^31 <= z < 2^31.

(** Little-endian bytes of a [width]-byte integer. *)
Fixpoint le_bytes (width : nat) (u : Z) : list nat :=
  match width with
  | O => []
  | S w => Z.to_nat (u mod 2^8) :: le_bytes w (u / 2^8)
  end.

Fixpoint le_value (bs : list nat) : Z :=
  match bs with
  | [] => 0
  | b :: bs' => Z.of_nat b + 2^8 * le_value bs'
  end.

(** ** Double-array element traits *)

Record traits : Type := {
  elem : Type;                             (* element_type *)
  elem_size : nat;                         (* sizeof(element_type) *)
  tr_chunk_id : list nat;
  tr_min_base : Z;
  tr_max_base : Z;
  tr_default_value : elem;
  tr_get_base : elem -> Z;
  tr_get_check : elem -> nat;
  tr_set_base : elem -> Z -> elem;
  tr_set_check : elem -> nat -> elem;
  tr_of_bytes : list nat -> elem;          (* the element stored in raw bytes *)
}.

(** *** doublearray4_traits: one [int32_t] per element *)

Module doublearray4_traits.

Definition element_type : Type := Z.

(* "SDA4" *)
Definition chunk_id : list nat := [83; 68; 65; 52]%nat.
Definition min_base : Z := 1.
Definition max_base : Z := 0x007FFFFF.
Definition default_value : element_type := 0.

(* return (elem >> 8); *)
Definition get_base (elem : element_type) : Z := Z.shiftr elem 8.

(* return (check_type)(elem & 0x000000FF); *)
Definition get_check (elem : element_type) : nat :=
  Z.to_nat (Z.land elem 0x000000FF).

(* elem = (elem & 0x000000FF) | (v << 8); *)
Definition set_base (elem : element_type) (v : Z) : element_type :=
  sint32 (Z.lor (Z.land elem 0x000000FF) (Z.shiftl v 8)).

(* elem = (elem & 0xFFFFFF00) | (base_type)v;
   the literal 0xFFFFFF00 is unsigned, so the operation is carried out on
   uint32_t and the result converted back to int32_t. *)
Definition set_check (elem : element_type) (v : nat) : element_type :=
  sint32 (Z.lor (Z.land (uint32 elem) 0xFFFFFF00) (uint32 (Z.of_nat v))).

(* an int32_t read from four bytes of a memory image (little-endian host) *)
Definition of_bytes (bs : list nat) : element_type :=
  sint32 (le_value (take 4 bs)).

Definition t : traits := {|
  elem := element_type;
  elem_size := 4;
  tr_chunk_id := chunk_id;
  tr_min_base := min_base;
  tr_max_base := max_base;
  tr_default_value := default_value;
  tr_get_base := get_base;
  tr_get_check := get_check;
  tr_set_base := set_base;
  tr_set_check := set_check;
  tr_of_bytes := of_bytes;
|}.

End doublearray4_traits.

(** *** doublearray5_traits: four bytes of BASE and one byte of CHECK *)

Module doublearray5_traits.

(* struct element_type { uint8_t v[5]; };  BASE: v[0:4], CHECK: v[4] *)
Record element_type : Type := mk_element {
  v0 : nat; v1 : nat; v2 : nat; v3 : nat; v4 : nat
}.

(* "SDA5" *)
Definition chunk_id : list nat := [83; 68; 65; 53]%nat.
Definition min_base : Z := 1.
Definition max_base : Z := 0x7FFFFFFF.
Definition default_value : element_type := mk_element 0 0 0 0 0.

(* std::memcpy(&b, &elem.v[0], sizeof(b)); on a little-endian host *)
Definition get_base (elem : element_type) : Z :=
  sint32 (Z.of_nat (v0 elem) + 2^8 * Z.of_nat (v1 elem)
          + 2^16 * Z.of_nat (v2 elem) + 2^24 * Z.of_nat (v3 elem)).

(* return elem.v[4]; *)
Definition get_check (elem : element_type) : nat := v4 elem.

(* std::memcpy(&elem.v[0], &v, sizeof(v)); on a little-endian host *)
Definition set_base (elem : element_type) (v : Z) : element_type :=
  let u := uint32 v in
  mk_element (Z.to_nat (u mod 2^8)) (Z.to_nat ((u / 2^8) mod 2^8))
             (Z.to_nat ((u / 2^16) mod 2^8)) (Z.to_nat ((u / 2^24) mod 2^8))
             (v4 elem).

(* elem.v[4] = v; *)
Definition set_check (elem : element_type) (v : nat) : element_type :=
  mk_element (v0 elem) (v1 elem) (v2 elem) (v3 elem) v.

(* the five bytes of a memory image *)
Definition of_bytes (bs : list nat) : element_type :=
  mk_element (nth 0 bs 0%nat) (nth 1 bs 0%nat) (nth 2 bs 0%nat)
             (nth 3 bs 0%nat) (nth 4 bs 0%nat).

Definition t : traits := {|
  elem := element_type;
  elem_size := 5;
  tr_chunk_id := chunk_id;
  tr_min_base := min_base;
  tr_max_base := max_base;
  tr_default_value := default_value;
  tr_get_base := get_base;
  tr_get_check := get_check;
  tr_set_base := set_base;
  tr_set_check := set_check;
  tr_of_bytes := of_bytes;
|}.

End doublearray5_traits.

(** ** C strings *)

(** [std::strlen(str)]: the number of bytes before the first 0 (the end of
    the list stands for the terminator). *)
Fixpoint c_strlen (str : list nat) : nat :=
  match str with
  | [] => 0
  | c :: str' => if (c =? 0)%nat then 0%nat else S (c_strlen str')
  end.

(** [*p] for a C string pointer. *)
Definition c_head (p : list nat) : nat :=
  match p with
  | [] => 0%nat
  | c :: _ => c
  end.

(** [std::strlen] on raw memory that ends where the list ends: running off
    the end without meeting a 0 is an out-of-range read. *)
Fixpoint mem_strlen (mem : list nat) : outcome nat :=
  match mem with
  | [] => Undefined
  | c :: mem' =>
      if (c =? 0)%nat then Ok 0%nat
      else do n <- mem_strlen mem';; Ok (S n)
  end.

(** [std::memcpy]/[std::memcmp] source of [n] bytes starting at [off]. *)
Definition mem_read (mem : list nat) (off n : nat) : outcome (list nat) :=
  if (off + n <=? length mem)%nat then Ok (take n (drop off mem))
  else Undefined.

Definition bytes_eqb (x y : list nat) : bool :=
  bool_decide (x = y).

(** ** array<value_tmpl>: a pointer and a size *)

Module array.

Record t (A : Type) : Type := mk {
  m_block : option (list A);   (* None: NULL; Some mem: the memory pointed to *)
  m_size : nat;
}.
Arguments mk {A} _ _.
Arguments m_block {A} _.
Arguments m_size {A} _.

(* array() *)
Definition empty {A} : t A := mk None 0.

(* operator[] *)
Definition at_ {A} (a : t A) (i : nat) : outcome A :=
  match m_block a with
  | None => Undefined
  | Some mem => at_ mem i
  end.

(* operator bool *)
Definition allocated {A} (a : t A) : bool :=
  match m_block a with
  | None => false
  | Some _ => true
  end.

Definition size {A} (a : t A) : nat := m_size a.

(* assign(block, size, own): with own = true the block is copied, otherwise
   the pointer is kept; both give the same contents. *)
Definition assign {A} (block : list A) (size : nat) : t A :=
  mk (Some block) size.

End array.

(** ** otail: the writer of a tail array *)

Module otail.

Definition t : Type := list nat.          (* m_cont *)

Definition bytes (o : t) : nat := length o.
Definition tellp (o : t) : nat := bytes o.
Definition clear (o : t) : t := [].

(* write(const void* data, size_t size) *)
Definition write (o : t) (data : list nat) : t := o ++ data.

(* write_string(const std::string& str, size_type offset):
     write(str.c_str() + offset, str.length() - offset + 1) *)
Definition write_string (o : t) (str : list nat) (offset : nat) : t :=
  write o (drop offset str ++ [0%nat]).

End otail.

(** ** itail: the reader of a tail array *)

Module itail.

Record t : Type := mk {
  m_cont : array.t nat;
  m_offset : nat;
}.

(* itail() : m_offset(0) *)
Definition init : t := mk array.empty 0.

Definition assign (i : t) (block : list nat) (size : nat) : t :=
  mk (array.assign block size) (m_offset i).

(* operator bool *)
Definition allocated (i : t) : bool := array.allocated (m_cont i).

(* the memory behind m_cont (nothing behind a NULL pointer) *)
Definition mem (i : t) : list nat :=
  match array.m_block (m_cont i) with
  | None => []
  | Some b => b
  end.

(* if (offset < m_cont.size()) m_offset = offset; *)
Definition seekg (i : t) (offset : nat) : t :=
  if (offset <? array.size (m_cont i))%nat then mk (m_cont i) offset else i.

Definition tellg (i : t) : nat := m_offset i.

(* std::strlen(&m_cont[m_offset]) *)
Definition strlen (i : t) : outcome nat :=
  mem_strlen (drop (m_offset i) (mem i)).

(* size_type length = std::strlen(str) + 1;
   if (m_offset + length < m_cont.size())
       if (std::memcmp(&m_cont[m_offset], str, length) == 0) return true;
   return false; *)
Definition match_string (i : t) (str : list nat) : outcome bool :=
  let length := (c_strlen str + 1)%nat in
  if (m_offset i + length <? array.size (m_cont i))%nat then
    do stored <- mem_read (mem i) (m_offset i) length;;
    Ok (bytes_eqb stored (take (c_strlen str) str ++ [0%nat]))
  else Ok false.

(* size_type length = std::strlen(&m_cont[m_offset]);
   if (m_offset + length + 1 < m_cont.size())
       if (std::memcmp(&m_cont[m_offset], str, length) == 0)
           if (m_cont[m_offset + length] == 0) return true;
   return false;
   The stored string has no 0 among its first [length] bytes, so the
   comparison is decided within the bytes of [str] and its terminator. *)
Definition match_string_partial (i : t) (str : list nat) : outcome bool :=
  do length <- strlen i;;
  if (m_offset i + length + 1 <? array.size (m_cont i))%nat then
    do stored <- mem_read (mem i) (m_offset i) length;;
    if bytes_eqb stored (take length (take (c_strlen str) str ++ [0%nat])) then
      do c <- at_ (mem i) (m_offset i + length);;
      Ok (c =? 0)%nat
    else Ok false
  else Ok false.

(* read(void* data, size_t size): the bytes read, if any, and the new
   reader; nothing is read when fewer than [size] bytes remain. *)
Definition read (i : t) (size : nat) : outcome (option (list nat) * t) :=
  if (m_offset i + size <=? array.size (m_cont i))%nat then
    do data <- mem_read (mem i) (m_offset i) size;;
    Ok (Some data, mk (m_cont i) (m_offset i + size))
  else Ok (None, i).

(* operator>>(std::string& str):
     str = &m_cont[m_offset]; m_offset += strlen() + 1; *)
Definition read_string (i : t) : outcome (list nat * t) :=
  do n <- strlen i;;
  Ok (take n (drop (m_offset i) (mem i)), mk (m_cont i) (m_offset i + n + 1)).

End itail.

(** ** Value types and their serialization

    [operator<<(otail&, const value_type&)] and
    [operator>>(itail&, value_type&)]; the latter receives the old value of
    the variable it writes to, which stays when nothing can be read. *)

Class value_codec (V : Type) : Type := {
  put : otail.t -> V -> otail.t;
  get : itail.t -> V -> outcome (V * itail.t);
}.

(** [empty_type]: serializes nothing. *)
Inductive empty_type : Type := empty_value.

#[export] Instance empty_codec : value_codec empty_type := {|
  put o _ := o;
  get i v := Ok (v, i);
|}.

(** [int]: [write(&value, sizeof(value))] and [read(&value, sizeof(value))],
    four bytes on a little-endian host. *)
#[export] Instance int_codec : value_codec Z := {|
  put o v := otail.write o (le_bytes 4 (uint32 v));
  get i v :=
    do '(data, i') <- itail.read i 4;;
    match data with
    | Some bs => Ok (sint32 (le_value bs), i')
    | None => Ok (v, i')
    end;
|}.

(** [std::string]: [write_string(str)] and the null-terminated read. *)
#[export] Instance string_codec : value_codec (list nat) := {|
  put o str := otail.write_string o str 0;
  get i _ := itail.read_string i;
|}.

(** ** std::istream, as far as trie::read uses it

    The stream is a sequence of bytes with a read position and its failbit.
    A read that meets the end of the data before [n] bytes stores what is
    there and sets failbit (with eofbit); [seekg] starts, as every input
    function does, by constructing a sentry, and does nothing on a stream
    whose failbit is set. *)

Module istream.

Record t : Type := mk {
  data : list nat;
  pos : nat;
  fail : bool;
}.

(* tellg(): pos_type(-1) if fail() *)
Definition tellg (ist : t) : Z :=
  if fail ist then -1 else Z.of_nat (pos ist).

(* read(s, n): the bytes stored and the stream afterwards *)
Definition read (ist : t) (n : nat) : list nat * t :=
  if fail ist then ([], ist)
  else if (pos ist + n <=? length (data ist))%nat then
    (take n (drop (pos ist) (data ist)), mk (data ist) (pos ist + n) false)
  else
    (drop (pos ist) (data ist), mk (data ist) (Nat.max (pos ist) (length (data ist))) true).

(* seekg(off, std::ios::beg) *)
Definition seekg (ist : t) (off : Z) : t :=
  if fail ist then ist
  else if (0 <=? off) && (off <=? Z.of_nat (length (data ist)))
  then mk (data ist) (Z.to_nat off) false
  else mk (data ist) (pos ist) true.

End istream.

(** The chunk identifiers "SDAT", "TBLU" and "TAIL". *)
Definition SDAT : list nat := [83; 68; 65; 84]%nat.
Definition TBLU : list nat := [84; 66; 76; 85]%nat.
Definition TAIL : list nat := [84; 65; 73; 76]%nat.

(** ** trie: the read-only double-array trie *)

Module prefix_cursor.

(* The cursor of a prefix match; the pointer m_trie is the trie the
   cursor is advanced on. *)
Record t (V : Type) : Type := mk {
  query : list nat;
  length : nat;
  value : V;
  cur : nat;
}.
Arguments mk {V} _ _ _ _.
Arguments query {V} _.
Arguments length {V} _.
Arguments value {V} _.
Arguments cur {V} _.

End prefix_cursor.

Module trie.
Section with_traits.

Context (T : traits) {V : Type} {codec : value_codec V}.

Record t : Type := mk {
  m_block : option (list nat);
  m_table : list nat;
  m_da : array.t (elem T);
  m_tail : itail.t;
  m_n : nat;
}.

Definition set_tail (tr : t) (tl : itail.t) : t :=
  mk (m_block tr) (m_table tr) (m_da tr) tl (m_n tr).

(* trie(): m_block = NULL and the identity character table; m_n is not
   initialized by the constructor, [n] stands for its indeterminate value. *)
Definition init (n : nat) : t :=
  mk None (seq 0 NUMCHARS) array.empty itail.init n.

Definition size (tr : t) : nat := m_n tr.

(* prefix(str): a cursor at the root with length 0; [v] stands for the
   default-initialized value member. *)
Definition prefix (str : list nat) (v : V) : prefix_cursor.t V :=
  prefix_cursor.mk (take (c_strlen str) str) 0 v INITIAL_INDEX.

(* assign(da, tail, table): copies of the builder's arrays *)
Definition assign (tr : t) (da : list (elem T)) (tail : otail.t)
    (table : list nat) : t :=
  mk (m_block tr) (take NUMCHARS table)
     (array.assign da (base.length da))
     (itail.assign (m_tail tr) tail (otail.bytes tail))
     (m_n tr).

Definition get_base (tr : t) (i : nat) : outcome Z :=
  do e <- array.at_ (m_da tr) i;; Ok (tr_get_base T e).

Definition get_check (tr : t) (i : nat) : outcome nat :=
  do e <- array.at_ (m_da tr) i;; Ok (tr_get_check T e).

Definition descend (tr : t) (i : nat) (c : nat) : outcome nat :=
  do base <- get_base tr i;;
  if base <=? 0 then
    (* The element #i is not a node. *)
    Ok INVALID_INDEX
  else
    do check <- at_ (m_table tr) c;;
    let next := (Z.to_nat base + check + 1)%nat in
    if (array.size (m_da tr) <=? next)%nat then
      (* Outside of the double array. *)
      Ok INVALID_INDEX
    else
      do chk <- get_check tr next;;
      if negb (chk =? check)%nat then
        (* The backward link does not exist. *)
        Ok INVALID_INDEX
      else Ok next.

(* The for (;;) loop of locate: [None] when it returns false, otherwise
   the offset and the rest of the key at the break. *)
Fixpoint locate_loop (tr : t) (cur : nat) (p : list nat)
    : outcome (option (nat * list nat)) :=
  let c := c_head p in
  do cur <- descend tr cur c;;
  if (cur =? INVALID_INDEX)%nat then Ok None
  else
    do base <- get_base tr cur;;
    if base <? 0 then
      (* The element #cur is a leaf node. *)
      Ok (Some (Z.to_nat (- base), if (c =? 0)%nat then p else tail p))
    else if (c =? 0)%nat then
      (* The key string couldn't reach a leaf node. *)
      Ok None
    else
      match p with
      | [] => Ok None
      | _ :: p' => locate_loop tr cur p'
      end.

Definition locate (tr : t) (key : list nat) : outcome (nat * t) :=
  do r <- locate_loop tr INITIAL_INDEX key;;
  match r with
  | None => Ok (0%nat, tr)
  | Some (offset, p) =>
      (* Seek to the position of the key postfix in the TAIL. *)
      let tl := itail.seekg (m_tail tr) offset in
      (* Check if two key postfixes are identical. *)
      do m <- itail.match_string tl p;;
      if m then
        do n <- itail.strlen tl;;
        Ok ((offset + n + 1)%nat, set_tail tr tl)
      else Ok (0%nat, set_tail tr tl)
  end.

(* in(key) *)
Definition in_ (tr : t) (key : list nat) : outcome (bool * t) :=
  do '(offset, tr) <- locate tr key;;
  Ok (negb (offset =? 0)%nat, tr).

(* find(key, value) *)
Definition find (tr : t) (key : list nat) (value : V)
    : outcome (bool * V * t) :=
  do '(offset, tr) <- locate tr key;;
  if negb (offset =? 0)%nat then
    let tl := itail.seekg (m_tail tr) offset in
    do '(value, tl) <- get tl value;;
    Ok (true, value, set_tail tr tl)
  else Ok (false, value, tr).

(* The exits of the for (;;) loop of next_prefix. *)
Inductive prefix_exit : Type :=
  | Return (r : bool) (tr : t) (pfx : prefix_cursor.t V)
  | Break (offset : nat) (pfx : prefix_cursor.t V).

Definition set_cur (pfx : prefix_cursor.t V) (cur : nat) :=
  prefix_cursor.mk (prefix_cursor.query pfx) (prefix_cursor.length pfx)
                   (prefix_cursor.value pfx) cur.
Definition set_length (pfx : prefix_cursor.t V) (n : nat) :=
  prefix_cursor.mk (prefix_cursor.query pfx) n
                   (prefix_cursor.value pfx) (prefix_cursor.cur pfx).
Definition set_value (pfx : prefix_cursor.t V) (v : V) :=
  prefix_cursor.mk (prefix_cursor.query pfx) (prefix_cursor.length pfx)
                   v (prefix_cursor.cur pfx).
Definition incr_length (pfx : prefix_cursor.t V) :=
  set_length pfx (S (prefix_cursor.length pfx)).

(* p[pfx.length] on p = pfx.query.c_str() *)
Definition query_at (pfx : prefix_cursor.t V) : nat :=
  nth (prefix_cursor.length pfx) (prefix_cursor.query pfx) 0%nat.

(* The loop runs once per query byte from pfx.length on, and once more on
   the terminator; [fuel] bounds the number of rounds. *)
Fixpoint next_prefix_loop (fuel : nat) (tr : t) (pfx : prefix_cursor.t V)
    : outcome prefix_exit :=
  match fuel with
  | O => OutOfFuel
  | S fuel =>
      (* Try to descend to the child node. *)
      do cur <- descend tr (prefix_cursor.cur pfx) (query_at pfx);;
      let pfx := set_cur pfx cur in
      if (cur =? INVALID_INDEX)%nat then Ok (Return false tr pfx)
      else
        do base <- get_base tr cur;;
        if base <? 0 then
          (* The element #(pfx.cur) is a leaf node. *)
          let pfx := if (query_at pfx =? 0)%nat then pfx else incr_length pfx in
          Ok (Break (Z.to_nat (- base)) pfx)
        else
          (* Try to descend to the child node with '\0'. *)
          do cur0 <- descend tr cur 0%nat;;
          do null_child <-
            (if (cur0 =? INVALID_INDEX)%nat then Ok None
             else
               do base0 <- get_base tr cur0;;
               if base0 =? 0 then Ok None
               else if 0 <=? base0 then Throw TrieException
               else
                 let tl := itail.seekg (m_tail tr) (Z.to_nat (- base0)) in
                 do n <- itail.strlen tl;;
                 if negb (n =? 0)%nat then Throw TrieException
                 else
                   let pfx := incr_length pfx in
                   let tl := itail.seekg tl (Z.to_nat (- base0) + 1) in
                   do '(v, tl) <- get tl (prefix_cursor.value pfx);;
                   Ok (Some (Return true (set_tail tr tl) (set_value pfx v))));;
          match null_child with
          | Some r => Ok r
          | None =>
              if (query_at pfx =? 0)%nat then
                (* The key string couldn't reach a leaf node. *)
                Ok (Return false tr pfx)
              else next_prefix_loop fuel tr (incr_length pfx)
          end
  end.

Definition next_prefix (tr : t) (pfx : prefix_cursor.t V)
    : outcome (bool * t * prefix_cursor.t V) :=
  let p := prefix_cursor.query pfx in
  if (c_strlen p <=? prefix_cursor.length pfx)%nat then Ok (false, tr, pfx)
  else
    do e <- next_prefix_loop (S (c_strlen p - prefix_cursor.length pfx)) tr pfx;;
    match e with
    | Return r tr pfx => Ok (r, tr, pfx)
    | Break offset pfx =>
        (* Seek to the position of the key postfix in the TAIL. *)
        let tl := itail.seekg (m_tail tr) offset in
        (* Check if two key postfixes are identical. *)
        do m <- itail.match_string_partial tl
                  (drop (prefix_cursor.length pfx) p);;
        if m then
          do postfix_size <- itail.strlen tl;;
          let pfx := set_length pfx (prefix_cursor.length pfx + postfix_size) in
          (* Skip the key postfix. *)
          let tl := itail.seekg tl (offset + postfix_size + 1) in
          (* Read the value. *)
          do '(v, tl) <- get tl (prefix_cursor.value pfx);;
          Ok (true, set_tail tr tl, set_value pfx v)
        else Ok (false, set_tail tr tl, pfx)
    end.

(* prefix_cursor::next() on a cursor whose m_trie is [tr] *)
Definition next (tr : t) (pfx : prefix_cursor.t V)
    : outcome (bool * t * prefix_cursor.t V) :=
  next_prefix tr pfx.

(** *** Reading a trie from a memory image *)

Definition with_n (tr : t) (n : nat) : t :=
  mk (m_block tr) (m_table tr) (m_da tr) (m_tail tr) n.
Definition with_table (tr : t) (table : list nat) : t :=
  mk (m_block tr) table (m_da tr) (m_tail tr) (m_n tr).
Definition with_da (tr : t) (da : array.t (elem T)) : t :=
  mk (m_block tr) (m_table tr) da (m_tail tr) (m_n tr).
Definition with_block (tr : t) (block : option (list nat)) : t :=
  mk block (m_table tr) (m_da tr) (m_tail tr) (m_n tr).

(* read_uint32(block, value) at position [p] of the image *)
Definition read_uint32 (block : list nat) (p : nat) : outcome nat :=
  do bs <- mem_read block p 4;; Ok (Z.to_nat (le_value bs)).

(* read_chunk(block, chunk, size) at position [p] of the image *)
Definition read_chunk (block : list nat) (p : nat)
    : outcome (list nat * nat) :=
  do chunk <- mem_read block p 4;;
  do size <- read_uint32 block (p + 4);;
  Ok (chunk, size).

(* the elements behind the pointer q cast to an element pointer *)
Definition elems_at (block : list nat) (q : nat) : list (elem T) :=
  (fix go (n : nat) (mem : list nat) : list (elem T) :=
     match n with
     | O => []
     | S n =>
         if (elem_size T <=? base.length mem)%nat
         then tr_of_bytes T (take (elem_size T) mem)
              :: go n (drop (elem_size T) mem)
         else []
     end) (base.length block) (drop q block).

(* The while (p < last) loop over the child chunks. A chunk whose size
   field is 0 never advances [p]: the loop does not end. *)
Fixpoint assign_loop (fuel : nat) (block : list nat) (last : nat)
    (p : nat) (tr : t) : outcome t :=
  match fuel with
  | O => OutOfFuel
  | S fuel =>
      if (p <? last)%nat then
        do '(chunk, size) <- read_chunk block p;;
        let q := (p + 8)%nat in
        let datasize := Z.to_nat (uint32 (Z.of_nat size - Z.of_nat CHUNKSIZE)) in
        do tr <-
          (if bytes_eqb chunk TBLU then
             (* "TBLU" chunk. *)
             if (datasize =? NUMCHARS)%nat then
               do table <- mem_read block q NUMCHARS;;
               Ok (with_table tr table)
             else Ok tr
           else if bytes_eqb chunk (tr_chunk_id T) then
             (* "SDA4" or "SDA5" chunk. *)
             Ok (with_da tr (array.assign (elems_at block q)
                                          (datasize / elem_size T)%nat))
           else if bytes_eqb chunk TAIL then
             (* "TAIL" chunk. *)
             Ok (set_tail tr (itail.assign (m_tail tr) (drop q block) datasize))
           else Ok tr);;
        if (size =? 0)%nat then Diverge
        else assign_loop fuel block last (p + size)%nat tr
      else Ok tr
  end.

(* assign(block, size) *)
Definition assign_block (tr : t) (block : list nat) (size : nat)
    : outcome (nat * t) :=
  (* The size of the memory block must not be smaller than SDAT_CHUNKSIZE. *)
  if (size <? SDAT_CHUNKSIZE)%nat then Ok (0%nat, tr)
  else
    (* Read the "SDAT" chunk. *)
    do '(chunk, total_size) <- read_chunk block 0;;
    if negb (bytes_eqb chunk SDAT) then Ok (0%nat, tr)
    else
      (* Check the size of the "SDAT" chunk. *)
      do sdat_size <- read_uint32 block 8;;
      if negb (sdat_size =? SDAT_CHUNKSIZE)%nat then Ok (0%nat, tr)
      else
        (* Read the number of records in the trie. *)
        do value <- read_uint32 block 12;;
        let tr := with_n tr value in
        (* Loop for child chunks. *)
        do tr <- assign_loop (S total_size) block total_size 16 tr;;
        (* Make sure that arrays are allocated successfully. *)
        if negb (array.allocated (m_da tr)) || negb (itail.allocated (m_tail tr))
        then Ok (0%nat, tr)
        else Ok (total_size, tr).

(** *** Reading a trie from an input stream *)

(* read(is) *)
Definition read (tr : t) (ist : istream.t) : outcome (nat * t * istream.t) :=
  let offset := istream.tellg ist in
  (* Read CHUNKSIZE bytes. *)
  let '(data, ist) := istream.read ist CHUNKSIZE in
  if istream.fail ist then Ok (0%nat, tr, istream.seekg ist offset)
  else
    (* Parse the data as a chunk. *)
    do '(chunk, total_size) <- read_chunk data 0;;
    (* Make sure that the data ist a "SDAT" chunk. *)
    if negb (bytes_eqb chunk SDAT) then Ok (0%nat, tr, istream.seekg ist offset)
    else
      (* Allocate a new memory block and copy the data:
         m_block = new char[total_size];
         std::memcpy(m_block, data, CHUNKSIZE);
         the copy overruns a block of fewer than CHUNKSIZE bytes. *)
      if (total_size <? CHUNKSIZE)%nat then Undefined
      else
        (* Read the actual data. *)
        let '(body, ist) := istream.read ist (total_size - CHUNKSIZE) in
        let block := data ++ body in
        let tr := with_block tr (Some block) in
        if istream.fail ist then Ok (0%nat, tr, istream.seekg ist offset)
        else
          (* Allocate the trie. *)
          do '(used_size, tr) <- assign_block tr block total_size;;
          if negb (used_size =? total_size)%nat
          then Ok (0%nat, tr, istream.seekg ist offset)
          else Ok (used_size, tr, ist).

End with_traits.
End trie.

(** ** builder: construction of the double array from sorted records *)

Module builder.

(* struct record_type { key_type key; value_type value; }; the key is a
   std::string (a char* key is the same list when it has no 0 byte). *)
Record record_type (V : Type) : Type := mk_record {
  key : list nat;
  value : V;
}.
Arguments mk_record {V} _ _.
Arguments key {V} _.
Arguments value {V} _.

(* struct dlink_element_type { size_type prev; size_type next; }; *)
Record dlink_element_type : Type := mk_dlink {
  prev : nat;
  next : nat;
}.

(* dlink_element_type() : prev(0), next(0) *)
Definition dlink_default : dlink_element_type := mk_dlink 0 0.

(* struct unigram_freq { int c; double freq; }; the frequency is a count *)
Record unigram_freq : Type := mk_unigram {
  uc : nat;
  freq : nat;
}.

(* comp_freq(x, y): return x.freq > y.freq; *)
Definition comp_freq (x y : unigram_freq) : bool := (freq y <? freq x)%nat.

(* it->key[p]: reading past the terminator is out of range *)
Definition key_at (k : list nat) (p : nat) : outcome nat :=
  if (p <=? length k)%nat then Ok (nth p k 0%nat) else Undefined.

(* v[i] = f(v[i]) on a vector; out of range is undefined *)
Definition set_at {A} (l : list A) (i : nat) (f : A -> A) : outcome (list A) :=
  match l !! i with
  | Some a => Ok (<[i := f a]> l)
  | None => Undefined
  end.

(* std::vector::resize(size, x) *)
Definition resize {A} (l : list A) (size : nat) (x : A) : list A :=
  take size l ++ replicate (size - length l) x.

Section with_traits.

Context (T : traits) {V : Type} {codec : value_codec V}.
(* std::sort(&st[0], &st[NUMCHARS], comp_freq) *)
Context (sort : list unigram_freq -> list unigram_freq).

(* The statistics m_stat and the progress callback (m_instance,
   m_callback, m_i) are only written, never read back by the
   construction; they are left out. *)
Record t : Type := mk {
  m_n : nat;
  m_da : list (elem T);
  m_tail : otail.t;
  m_table : list nat;
  m_used_bases : list bool;
  m_elink : list dlink_element_type;
}.

(* builder(): empty vectors; the character table is not initialized by
   the constructor, [table] stands for its indeterminate contents. *)
Definition init (n : nat) (table : list nat) : t := mk n [] [] table [] [].

Definition with_da (b : t) (da : list (elem T)) : t :=
  mk (m_n b) da (m_tail b) (m_table b) (m_used_bases b) (m_elink b).
Definition with_tail (b : t) (tl : otail.t) : t :=
  mk (m_n b) (m_da b) tl (m_table b) (m_used_bases b) (m_elink b).
Definition with_table (b : t) (table : list nat) : t :=
  mk (m_n b) (m_da b) (m_tail b) table (m_used_bases b) (m_elink b).
Definition with_used_bases (b : t) (u : list bool) : t :=
  mk (m_n b) (m_da b) (m_tail b) (m_table b) u (m_elink b).
Definition with_elink (b : t) (el : list dlink_element_type) : t :=
  mk (m_n b) (m_da b) (m_tail b) (m_table b) (m_used_bases b) el.
Definition with_n (b : t) (n : nat) : t :=
  mk n (m_da b) (m_tail b) (m_table b) (m_used_bases b) (m_elink b).

(** *** Accessors of the double array *)

Definition get_base (b : t) (i : nat) : outcome Z :=
  do e <- at_ (m_da b) i;; Ok (tr_get_base T e).

Definition get_check (b : t) (i : nat) : outcome nat :=
  do e <- at_ (m_da b) i;; Ok (tr_get_check T e).

Definition set_base (b : t) (i : nat) (v : Z) : outcome t :=
  do da <- set_at (m_da b) i (fun e => tr_set_base T e v);;
  Ok (with_da b da).

Definition set_check (b : t) (i : nat) (v : nat) : outcome t :=
  do da <- set_at (m_da b) i (fun e => tr_set_check T e v);;
  Ok (with_da b da).

(* return (i < m_da.size() && get_base(i) != 0); *)
Definition da_in_use (b : t) (i : nat) : bool :=
  match m_da b !! i with
  | Some e => negb (tr_get_base T e =? 0)
  | None => false
  end.

Definition da_expand (b : t) (size : nat) : t :=
  if (length (m_da b) <? size)%nat then
    with_da b (resize (m_da b) size (tr_default_value T))
  else b.

(** *** The vacant linked list *)

(* m_elink.resize(1); m_elink[0].next = 1; m_elink[0].prev = 0; *)
Definition vlist_init (b : t) : outcome t :=
  let el := resize (m_elink b) 1 dlink_default in
  do el <- set_at el 0 (fun e => mk_dlink (prev e) 1);;
  do el <- set_at el 0 (fun e => mk_dlink 0 (next e));;
  Ok (with_elink b el).

(* return (i < m_elink.size()) ? m_elink[i].next : i+1; *)
Definition vlist_next (b : t) (i : nat) : nat :=
  match m_elink b !! i with
  | Some e => next e
  | None => (i + 1)%nat
  end.

(* for (size_type i = first; i < m_elink.size(); ++i) {
       m_elink[i].prev = back; m_elink[i].next = i+1; back = i; } *)
Fixpoint vlist_expand_loop (count : nat) (i back : nat)
    (el : list dlink_element_type) : outcome (list dlink_element_type) :=
  match count with
  | O => Ok el
  | S count =>
      do el <- set_at el i (fun e => mk_dlink back (next e));;
      do el <- set_at el i (fun e => mk_dlink (prev e) (i + 1));;
      vlist_expand_loop count (S i) i el
  end.

Definition vlist_expand (b : t) (size : nat) : outcome t :=
  if (length (m_elink b) <? size)%nat then
    let first := length (m_elink b) in
    let el := resize (m_elink b) size dlink_default in
    do e0 <- at_ el 0;;
    let back := prev e0 in
    do el <- vlist_expand_loop (length el - first) first back el;;
    do el <- set_at el 0 (fun e => mk_dlink (length el - 1) (next e));;
    Ok (with_elink b el)
  else Ok b.

Definition vlist_use (b : t) (i : nat) : outcome t :=
  do e <- at_ (m_elink b) i;;
  let prev_ := prev e in
  let next_ := next e in
  do el <-
    (if (length (m_elink b) <=? next_)%nat then
       let el := resize (m_elink b) (next_ + 1) dlink_default in
       do el <- set_at el next_ (fun e => mk_dlink (prev e) (next_ + 1));;
       (* The rightmost vacant node. *)
       set_at el 0 (fun e => mk_dlink next_ (next e))
     else Ok (m_elink b));;
  do el <- set_at el prev_ (fun e => mk_dlink (prev e) next_);;
  do el <- set_at el next_ (fun e => mk_dlink prev_ (next e));;
  Ok (with_elink b el).

(** *** The character table *)

(* for (int i = 0; it->key[i]; ++i) ++st[(uint8_t)it->key[i]].freq;
   ++st[0].freq; *)
Definition incr_freq (u : unigram_freq) : unigram_freq :=
  mk_unigram (uc u) (S (freq u)).

Definition count_key (st : list unigram_freq) (k : list nat)
    : list unigram_freq :=
  alter incr_freq 0%nat
    (fold_left (fun st c => alter incr_freq c st) (take (c_strlen k) k) st).

Definition count_freq (rs : list (record_type V)) : list unigram_freq :=
  fold_left (fun st r => count_key st (key r)) rs
    (map (fun i => mk_unigram i 0) (seq 0 NUMCHARS)).

(* for (int i = 0; i < NUMCHARS; ++i) table[st[i].c] = (uint8_t)i; *)
Definition fill_table (table : list nat) (st : list unigram_freq) : list nat :=
  fold_left (fun tbl iu => <[uc (snd iu) := fst iu]> tbl)
    (zip (seq 0 NUMCHARS) st) table.

Definition build_table (table : list nat) (rs : list (record_type V))
    : list nat :=
  fill_table table (sort (count_freq rs)).

(** *** arrange *)

(* struct child_t { uint8_t c; size_type offset;
                    const record_type* first; const record_type* last; };
   the range [first, last) is the list of the records in it. *)
Record child_t : Type := mk_child {
  c : nat;
  offset : nat;
  range : list (record_type V);
}.

Definition add_to_last (children : list child_t) (r : record_type V)
    : list child_t :=
  match children with
  | [] => []
  | _ =>
      alter (fun ch => mk_child (c ch) (offset ch) (range ch ++ [r]))
            (length children - 1)%nat children
  end.

(* The loop that lists the child nodes: [pc] is the previous character
   (-1 at the start), a record with the same character extends the range
   of the last child, one with a smaller character is rejected. *)
Fixpoint list_children (table : list nat) (p : nat) (pc : Z)
    (children : list child_t) (max_offset : nat)
    (rs : list (record_type V)) : outcome (list child_t * nat) :=
  match rs with
  | [] => Ok (children, max_offset)
  | r :: rs' =>
      do ch <- key_at (key r) p;;
      if pc <? Z.of_nat ch then
        do tc <- at_ table ch;;
        let offset := (tc + 1)%nat in
        let children := children ++ [mk_child ch offset [r]] in
        let max_offset :=
          if (max_offset <? offset)%nat then offset else max_offset in
        list_children table p (Z.of_nat ch) children max_offset rs'
      else if Z.of_nat ch <? pc then Throw UnsortedInput
      else
        list_children table p (Z.of_nat ch) (add_to_last children r)
                      max_offset rs'
  end.

(* The for (;;) loop that looks for a base: [index] is the vacant index
   tried last; [fuel] bounds the number of trials. *)
Fixpoint find_base (fuel : nat) (b : t) (children : list child_t)
    (max_offset : nat) (index : nat) : outcome (nat * t) :=
  match fuel with
  | O => OutOfFuel
  | S fuel =>
      (* Obtain the index value of a next vacant node. *)
      let index := vlist_next b index in
      do ch0 <- at_ children 0;;
      if (index <? INITIAL_INDEX + offset ch0)%nat then
        (* The index is too small for a base value; try next. *)
        find_base fuel b children max_offset index
      else
        (* Calculate back the base value from the index. *)
        let base := (index - offset ch0)%nat in
        (* A base value must not be used by other places. *)
        if match m_used_bases b !! base with
           | Some u => u
           | None => false
           end
        then find_base fuel b children max_offset index
        else
          (* Expand the double array and vacant list if necessary. *)
          let b := da_expand b (base + max_offset + 1) in
          do b <- vlist_expand b (base + max_offset + 1);;
          (* Check if the base address can store every child in the list. *)
          if forallb (fun ch => negb (da_in_use b (base + offset ch)))
                     (drop 1 children)
          then Ok (base, b)
          else find_base fuel b children max_offset index
  end.

Definition find_base_fuel (b : t) (children : list child_t) : nat :=
  (length (m_da b) + length (m_used_bases b)
   + match children with ch0 :: _ => offset ch0 | [] => 0 end + 2)%nat.

(* for (i = 0; i < num_children; ++i) {
       set_base(base + offset, 1); vlist_use(base + offset); } *)
Fixpoint reserve (b : t) (base : nat) (children : list child_t) : outcome t :=
  match children with
  | [] => Ok b
  | ch :: children =>
      do b <- set_base b (base + offset ch) 1;;
      do b <- vlist_use b (base + offset ch);;
      reserve b base children
  end.

(* for (i = 0; i < num_children; ++i) { ... }: set BASE and CHECK values
   of each child node; [arrange] stands for the recursive call. *)
Fixpoint set_children
    (arrange : nat -> list (record_type V) -> t -> outcome (Z * t))
    (p : nat) (base : nat) (children : list child_t) (b : t) : outcome t :=
  match children with
  | [] => Ok b
  | child :: children =>
      do '(v, b) <-
        (if negb (c child =? 0)%nat then
           (* Set the base value of a child node by recursively arranging
              the descendant nodes. *)
           arrange (p + 1)%nat (range child) b
         else if negb (length (range child) =? 1)%nat then
           Throw DuplicateKey
         else
           (* Force to insert '\0' in the TAIL. *)
           arrange p (range child) b);;
      do b <- set_base b (base + offset child) v;;
      do b <- set_check b (base + offset child)
                ((offset child - 1) mod 256)%nat;;
      set_children arrange p base children b
  end.

(* The recursion descends one key byte per level; [fuel] bounds its depth.
   An empty range makes the source write to children[-1]. *)
Fixpoint arrange (fuel : nat) (p : nat) (rs : list (record_type V)) (b : t)
    : outcome (Z * t) :=
  match fuel with
  | O => OutOfFuel
  | S fuel =>
      match rs with
      | [rec] =>
          (* first + 1 == last: a leaf node *)
          let offset := otail.tellp (m_tail b) in
          if tr_max_base T <? Z.of_nat offset then Throw CapacityExceeded
          else
            let tl := otail.write_string (m_tail b) (key rec) p in
            let tl := put tl (value rec) in
            Ok (- Z.of_nat offset, with_tail b tl)
      | _ =>
          do '(children, max_offset) <-
             list_children (m_table b) p (-1) [] 0%nat rs;;
          do '(base, b) <-
             find_base (find_base_fuel b children) b children max_offset 0%nat;;
          (* Fail if the double array could not store the child nodes. *)
          if tr_max_base T <=? Z.of_nat (base + max_offset) then
            Throw CapacityExceeded
          else
            (* Register the usage of the base address. *)
            let used :=
              if (length (m_used_bases b) <=? base)%nat
              then resize (m_used_bases b) (base + 1) false
              else m_used_bases b in
            do used <- set_at used base (fun _ => true);;
            let b := with_used_bases b used in
            (* Reserve the double-array elements for the child nodes. *)
            do b <- reserve b base children;;
            (* Set BASE and CHECK values of each child node. *)
            do b <- set_children (arrange fuel) p base children b;;
            Ok (Z.of_nat base, b)
      end
  end.

Definition arrange_fuel (rs : list (record_type V)) : nat :=
  S (S (foldr Nat.max 0%nat (map (fun r => length (key r)) rs))).

(** *** build *)

Definition clear (b : t) : outcome t :=
  (* Initialize the character table. *)
  let b := with_table b (seq 0 NUMCHARS) in
  (* Initialize the double array. *)
  let b := da_expand (with_da b []) 1 in
  (* Initialize the tail array: m_tail << (uint8_t)0 selects
     operator<<(int) by integral promotion, which writes sizeof(int)
     bytes. *)
  let b := with_tail b (otail.write (otail.clear (m_tail b)) (le_bytes 4 0)) in
  (* Initialize the vacant linked list. *)
  vlist_init b.

Definition build (b : t) (rs : list (record_type V)) : outcome t :=
  do b <- clear b;;
  let b := with_n b (length rs) in
  let b := with_table b (build_table (m_table b) rs) in
  (* Create the initial node. *)
  let b := da_expand b (INITIAL_INDEX + 1) in
  do b <- vlist_expand b (INITIAL_INDEX + 1);;
  do b <- set_base b INITIAL_INDEX 1;;
  do b <- vlist_use b INITIAL_INDEX;;
  do '(v, b) <- arrange (arrange_fuel rs) 0 rs b;;
  set_base b INITIAL_INDEX v.

End with_traits.
End builder.

(** ** std::sort

    [std::sort] orders the range by the comparison and promises nothing
    about the order of equivalent elements: the builder takes the sorting
    function as a parameter. [sorts.sort_stable] is a function that meets
    the contract; [std_sort.sort] is the algorithm of the GNU C++ library. *)

Module sorts.
Import builder.

(* keeps elements of equal frequency in their original order *)
Fixpoint insert_before (x : unigram_freq) (l : list unigram_freq)
    : list unigram_freq :=
  match l with
  | [] => [x]
  | y :: l' =>
      if comp_freq y x then y :: insert_before x l' else x :: y :: l'
  end.

Definition sort_stable (l : list unigram_freq) : list unigram_freq :=
  foldr insert_before [] l.

End sorts.

(** *** std::sort as the GNU C++ library implements it

    The introsort of libstdc++ (bits/stl_algo.h and bits/stl_heap.h):
    quicksort with a median-of-three pivot down to ranges of 16 elements,
    heapsort when the recursion gets too deep, and a final insertion sort.
    The array is the list [a] and an iterator is an index into it; the
    loops the library leaves unguarded are bounded by the length of the
    array. *)

Module std_sort.
Import builder.
Section introsort.
Local Open Scope nat_scope.

(* the array is the list [a]; an iterator is an index into it *)
Definition deref (a : list unigram_freq) (i : nat) : unigram_freq :=
  nth i a (mk_unigram 0 0).

(* std::iter_swap(i, j) *)
Definition iter_swap (a : list unigram_freq) (i j : nat) : list unigram_freq :=
  <[j := deref a i]> (<[i := deref a j]> a).

(* __move_median_to_first(result, a, b, c, comp) *)
Definition move_median_to_first (a : list unigram_freq) (result ia ib ic : nat)
    : list unigram_freq :=
  if comp_freq (deref a ia) (deref a ib) then
    if comp_freq (deref a ib) (deref a ic) then iter_swap a result ib
    else if comp_freq (deref a ia) (deref a ic) then iter_swap a result ic
    else iter_swap a result ia
  else if comp_freq (deref a ia) (deref a ic) then iter_swap a result ia
  else if comp_freq (deref a ib) (deref a ic) then iter_swap a result ic
  else iter_swap a result ib.

(* while (comp(first, pivot)) ++first; *)
Fixpoint skip_up (fuel : nat) (a : list unigram_freq) (first pivot : nat) : nat :=
  match fuel with
  | O => first
  | S fuel =>
      if comp_freq (deref a first) (deref a pivot)
      then skip_up fuel a (S first) pivot else first
  end.

(* while (comp(pivot, last)) --last; *)
Fixpoint skip_down (fuel : nat) (a : list unigram_freq) (last pivot : nat) : nat :=
  match fuel with
  | O => last
  | S fuel =>
      if comp_freq (deref a pivot) (deref a last)
      then skip_down fuel a (last - 1) pivot else last
  end.

(* __unguarded_partition(first, last, pivot, comp): the cut and the array *)
Fixpoint unguarded_partition (fuel : nat) (a : list unigram_freq)
    (first last pivot : nat) : nat * list unigram_freq :=
  match fuel with
  | O => (first, a)
  | S fuel =>
      let first := skip_up (length a) a first pivot in
      let last := (last - 1)%nat in
      let last := skip_down (length a) a last pivot in
      if negb (first <? last)%nat then (first, a)
      else unguarded_partition fuel (iter_swap a first last) (S first) last pivot
  end.

(* __unguarded_partition_pivot(first, last, comp) *)
Definition unguarded_partition_pivot (a : list unigram_freq) (first last : nat)
    : nat * list unigram_freq :=
  let mid := (first + (last - first) / 2)%nat in
  let a := move_median_to_first a first (first + 1) mid (last - 1) in
  unguarded_partition (length a) a (first + 1) last first.

(* __push_heap(first, holeIndex, topIndex, value, comp) *)
Fixpoint push_heap (fuel : nat) (a : list unigram_freq) (first holeIndex topIndex : nat)
    (value : unigram_freq) : list unigram_freq :=
  let parent := ((holeIndex - 1) / 2)%nat in
  match fuel with
  | O => <[first + holeIndex := value]> a
  | S fuel =>
      if (topIndex <? holeIndex)%nat && comp_freq (deref a (first + parent)) value
      then push_heap fuel (<[first + holeIndex := deref a (first + parent)]> a)
                     first parent topIndex value
      else <[first + holeIndex := value]> a
  end.

(* the first loop of __adjust_heap: the array, holeIndex and secondChild *)
Fixpoint sift_down (fuel : nat) (a : list unigram_freq)
    (first holeIndex secondChild len : nat) : list unigram_freq * nat * nat :=
  match fuel with
  | O => (a, holeIndex, secondChild)
  | S fuel =>
      if (secondChild <? (len - 1) / 2)%nat then
        let secondChild := (2 * (secondChild + 1))%nat in
        let secondChild :=
          if comp_freq (deref a (first + secondChild))
                       (deref a (first + (secondChild - 1)))
          then (secondChild - 1)%nat else secondChild in
        sift_down fuel (<[first + holeIndex := deref a (first + secondChild)]> a)
                  first secondChild secondChild len
      else (a, holeIndex, secondChild)
  end.

(* __adjust_heap(first, holeIndex, len, value, comp) *)
Definition adjust_heap (a : list unigram_freq) (first holeIndex len : nat)
    (value : unigram_freq) : list unigram_freq :=
  let topIndex := holeIndex in
  let '(a, holeIndex, secondChild) :=
    sift_down len a first holeIndex holeIndex len in
  let '(a, holeIndex) :=
    if Nat.even len && (secondChild =? (len - 2) / 2)%nat then
      let secondChild := (2 * (secondChild + 1))%nat in
      (<[first + holeIndex := deref a (first + (secondChild - 1))]> a,
       (secondChild - 1)%nat)
    else (a, holeIndex) in
  push_heap len a first holeIndex topIndex value.

(* __pop_heap(first, last, result, comp) *)
Definition pop_heap (a : list unigram_freq) (first last result : nat)
    : list unigram_freq :=
  let value := deref a result in
  let a := <[result := deref a first]> a in
  adjust_heap a first 0 (last - first) value.

(* the while (true) loop of __make_heap *)
Fixpoint make_heap_loop (fuel : nat) (a : list unigram_freq)
    (first len parent : nat) : list unigram_freq :=
  match fuel with
  | O => a
  | S fuel =>
      let a := adjust_heap a first parent len (deref a (first + parent)) in
      if (parent =? 0)%nat then a
      else make_heap_loop fuel a first len (parent - 1)
  end.

(* __make_heap(first, last, comp) *)
Definition make_heap (a : list unigram_freq) (first last : nat)
    : list unigram_freq :=
  if (last - first <? 2)%nat then a
  else
    let len := (last - first)%nat in
    make_heap_loop len a first len ((len - 2) / 2).

(* __sort_heap(first, last, comp) *)
Fixpoint sort_heap (fuel : nat) (a : list unigram_freq) (first last : nat)
    : list unigram_freq :=
  match fuel with
  | O => a
  | S fuel =>
      if (1 <? last - first)%nat then
        let last := (last - 1)%nat in
        sort_heap fuel (pop_heap a first last last) first last
      else a
  end.

(* __heap_select(first, middle, last, comp) *)
Definition heap_select (a : list unigram_freq) (first middle last : nat)
    : list unigram_freq :=
  let a := make_heap a first middle in
  fold_left (fun a i =>
               if comp_freq (deref a i) (deref a first)
               then pop_heap a first middle i else a)
            (seq middle (last - middle)) a.

(* __partial_sort(first, middle, last, comp) *)
Definition partial_sort (a : list unigram_freq) (first middle last : nat)
    : list unigram_freq :=
  let a := heap_select a first middle last in
  sort_heap (length a) a first middle.

Definition S_threshold : nat := 16.

(* __introsort_loop(first, last, depth_limit, comp): each round of the
   while loop works on a shorter range, [fuel] bounds the rounds. *)
Fixpoint introsort_loop (fuel : nat) (a : list unigram_freq)
    (first last depth_limit : nat) : list unigram_freq :=
  match fuel with
  | O => a
  | S fuel =>
      if (S_threshold <? last - first)%nat then
        match depth_limit with
        | O => partial_sort a first last last
        | S depth_limit =>
            let '(cut, a) := unguarded_partition_pivot a first last in
            let a := introsort_loop fuel a cut last depth_limit in
            introsort_loop fuel a first cut depth_limit
        end
      else a
  end.

(* the while loop of __unguarded_linear_insert(last, comp) *)
Fixpoint linear_insert_loop (fuel : nat) (a : list unigram_freq)
    (val : unigram_freq) (last : nat) : list unigram_freq :=
  match fuel with
  | O => <[last := val]> a
  | S fuel =>
      let next := (last - 1)%nat in
      if comp_freq val (deref a next)
      then linear_insert_loop fuel (<[last := deref a next]> a) val next
      else <[last := val]> a
  end.

(* __unguarded_linear_insert(last, comp) *)
Definition unguarded_linear_insert (a : list unigram_freq) (last : nat)
    : list unigram_freq :=
  linear_insert_loop last a (deref a last) last.

(* __insertion_sort(first, last, comp) *)
Definition insertion_sort (a : list unigram_freq) (first last : nat)
    : list unigram_freq :=
  if (first =? last)%nat then a
  else
    fold_left (fun a i =>
                 if comp_freq (deref a i) (deref a first) then
                   let val := deref a i in
                   (* std::move_backward(first, i, i + 1); *first = val; *)
                   take first a ++ val :: take (i - first) (drop first a)
                     ++ drop (S i) a
                 else unguarded_linear_insert a i)
              (seq (first + 1) (last - (first + 1))) a.

(* __unguarded_insertion_sort(first, last, comp) *)
Definition unguarded_insertion_sort (a : list unigram_freq) (first last : nat)
    : list unigram_freq :=
  fold_left unguarded_linear_insert (seq first (last - first)) a.

(* __final_insertion_sort(first, last, comp) *)
Definition final_insertion_sort (a : list unigram_freq) (first last : nat)
    : list unigram_freq :=
  if (S_threshold <? last - first)%nat then
    let a := insertion_sort a first (first + S_threshold) in
    unguarded_insertion_sort a (first + S_threshold) last
  else insertion_sort a first last.

(* __sort(first, last, comp) on the whole array; __lg(n) is the binary
   logarithm rounded down *)
Definition sort (a : list unigram_freq) : list unigram_freq :=
  let first := 0%nat in
  let last := length a in
  if (first =? last)%nat then a
  else
    let a := introsort_loop (length a) a first last (Nat.log2 (last - first) * 2) in
    final_insertion_sort a first last.

End introsort.
End std_sort.

(** ** Building a trie and querying it, as the sample program does *)

(* builder.build(records, records + n);
   trie.assign(builder.doublearray(), builder.tail(), builder.table()); *)
Definition build_trie (T : traits) {V : Type} `{value_codec V}
    (sort : list builder.unigram_freq -> list builder.unigram_freq)
    (rs : list (builder.record_type V)) : outcome (trie.t T) :=
  do b <- builder.build T sort (builder.init T 0 []) rs;;
  Ok (trie.assign T (trie.init T 0)
        (builder.m_da T b) (builder.m_tail T b) (builder.m_table T b)).

(* while (pfx.next()) { ... pfx.length ... pfx.value ... }: the prefix
   lengths and values the loop sees in its first [n] rounds. *)
Fixpoint enumerate (T : traits) {V : Type} `{value_codec V} (n : nat)
    (tr : trie.t T) (pfx : prefix_cursor.t V) : outcome (list (nat * V)) :=
  match n with
  | O => Ok []
  | S n =>
      do '(found, tr, pfx) <- trie.next T tr pfx;;
      if (found : bool) then
        do l <- enumerate T n tr pfx;;
        Ok ((prefix_cursor.length pfx, prefix_cursor.value pfx) :: l)
      else Ok []
  end.

(** The visible result of a call: what it returns, without the trie. *)
Definition result {A B} (o : outcome (A * B)) : outcome A :=
  do '(a, _) <- o;; Ok a.

(* builder.build(...); trie.assign(...); trie.find(key, value) *)
Definition find_after_build (T : traits) {V : Type} `{value_codec V}
    (sort : list builder.unigram_freq -> list builder.unigram_freq)
    (rs : list (builder.record_type V)) (key : list nat) (v : V)
    : outcome (bool * V) :=
  result (do tr <- build_trie T sort rs;; trie.find T tr key v).

(* builder.build(...); trie.assign(...); trie.in(key) *)
Definition in_after_build (T : traits) {V : Type} `{value_codec V}
    (sort : list builder.unigram_freq -> list builder.unigram_freq)
    (rs : list (builder.record_type V)) (key : list nat) : outcome bool :=
  result (do tr <- build_trie T sort rs;; trie.in_ T tr key).

(* builder.build(...); trie.assign(...); pfx = trie.prefix(q);
   while (pfx.next()) ... *)
Definition prefixes_after_build (T : traits) {V : Type} `{value_codec V}
    (sort : list builder.unigram_freq -> list builder.unigram_freq)
    (rs : list (builder.record_type V)) (q : list nat) (v : V) (n : nat)
    : outcome (list (nat * V)) :=
  do tr <- build_trie T sort rs;; enumerate T n tr (trie.prefix q v).

(** ** Notions used in the statements *)

(** A C string without its terminator: no byte is 0, every byte fits
    [uint8_t]. *)
Definition c_string (s : list nat) : Prop :=
  Forall (fun c => (0 < c < 256)%nat) s.

(** The null-terminated string [s] is stored in [mem] at offset [o]. *)
Definition stored_at (mem : list nat) (o : nat) (s : list nat) : Prop :=
  Forall (fun c => c <> 0%nat) s /\ exists rest, drop o mem = s ++ 0%nat :: rest.

(** An [itail] that owns exactly the bytes [mem]. *)
Definition tail_of (mem : list nat) (o : nat) : itail.t :=
  itail.mk (array.assign mem (length mem)) o.

#[export] Instance c_string_dec (s : list nat) : Decision (c_string s).
Proof. unfold c_string. apply _. Defined.

(** The number of occurrences of the byte [c] in the keys of [rs]. *)
Definition occurrences {V : Type} (c : nat) (rs : list (builder.record_type V))
    : nat :=
  list_sum (map (fun r => count_occ Nat.eq_dec (builder.key r) c) rs).

(** The frequency the specification assigns to the byte [c]: its
    occurrences in the keys, and one occurrence of 0 per record. *)
Definition counted {V : Type} (c : nat) (rs : list (builder.record_type V))
    : nat :=
  (occurrences c rs + if (c =? 0)%nat then length rs else 0)%nat.

(** The occurrences of the byte [c] before the first 0 byte of each key:
    the bytes the loop [for (int i = 0; it->key[i]; ++i)] visits. *)
Definition occurrences_c_str {V : Type} (c : nat)
    (rs : list (builder.record_type V)) : nat :=
  list_sum (map (fun r => count_occ Nat.eq_dec
                            (take (c_strlen (builder.key r)) (builder.key r)) c)
                rs).

(** The frequency the builder counts for the byte [c]. *)
Definition counted_c_str {V : Type} (c : nat)
    (rs : list (builder.record_type V)) : nat :=
  (occurrences_c_str c rs + if (c =? 0)%nat then length rs else 0)%nat.

(** The contract of std::sort for the comparison [comp_freq]: the result is
    a rearrangement of the input in which no element has a smaller
    frequency than a later one. *)
Definition sort_contract
    (sort : list builder.unigram_freq -> list builder.unigram_freq) : Prop :=
  forall l,
    Permutation (sort l) l /\
    StronglySorted (fun x y => (builder.freq y <= builder.freq x)%nat) (sort l).

(** Ties broken by ascending byte value: of two bytes with the same
    frequency the smaller one has the smaller rank. *)
Definition ties_ascending {V : Type} (table : list nat)
    (rs : list (builder.record_type V)) : Prop :=
  forall c d rc rd,
    (c < d)%nat -> counted c rs = counted d rs ->
    table !! c = Some rc -> table !! d = Some rd -> (rc < rd)%nat.

(** Two states of a trie that differ at most in the read position of the
    tail array. *)
Definition same_but_offset {T : traits} (tr tr' : trie.t T) : Prop :=
  trie.m_block T tr' = trie.m_block T tr /\
  trie.m_table T tr' = trie.m_table T tr /\
  trie.m_da T tr' = trie.m_da T tr /\
  trie.m_n T tr' = trie.m_n T tr /\
  itail.m_cont (trie.m_tail T tr') = itail.m_cont (trie.m_tail T tr).

(** A value reader that leaves the contents of the tail array alone, as the
    readers of the built-in value types do. *)
Definition reader_keeps_cont {V : Type} (codec : value_codec V) : Prop :=
  forall i v v' i', get i v = Ok (v', i') -> itail.m_cont i' = itail.m_cont i.


(** ** Sample inputs *)

(** The bytes of a string literal. *)
Definition bytes_of (s : string) : list nat :=
  map nat_of_ascii (list_ascii_of_string s).

(** A record list from string literals. *)
Definition records_of {V : Type} (l : list (string * V))
    : list (builder.record_type V) :=
  map (fun kv => builder.mk_record (bytes_of (fst kv)) (snd kv)) l.

(** The one-record input "a", with the empty value type. *)
Definition one_key : list (builder.record_type empty_type) :=
  records_of [("a", empty_value)]%string.

(** One record whose key is the std::string of the three bytes 'a', 0, 'b'. *)
Definition nul_key : list (builder.record_type empty_type) :=
  [builder.mk_record [97; 0; 98]%nat empty_value].

(** Lists of records that are not in strictly ascending order. *)
Definition descending_after_duplicate : list (builder.record_type Z) :=
  records_of [("a", 1); ("a", 2); ("bz", 3); ("ba", 4)]%string.

Definition descending_behind_nul : list (builder.record_type Z) :=
  [builder.mk_record [97; 0; 98]%nat 1; builder.mk_record [97; 0; 97]%nat 2].

Definition duplicate_after_descent : list (builder.record_type Z) :=
  records_of [("b", 1); ("a", 2); ("a", 3)]%string.

Definition duplicate_apart : list (builder.record_type Z) :=
  records_of [("a", 1); ("b", 2); ("a", 3)]%string.

(** The ten records of sample.cpp. *)
Definition sample_records : list (builder.record_type Z) :=
  records_of
    [("eight", 8); ("five", 5); ("four", 4); ("nine", 9); ("one", 1);
     ("seven", 7); ("six", 6); ("ten", 10); ("three", 3); ("two", 2)]%string.

(** The trie the sample program builds from them (5-byte elements). *)
Definition sample_trie : trie.t doublearray5_traits.t :=
  Eval vm_compute in
    match build_trie doublearray5_traits.t sorts.sort_stable sample_records with
    | Ok tr => tr
    | _ => trie.init doublearray5_traits.t 0
    end.

(** The read position of the tail array after a call. *)
Definition offset_after {T : traits} {A : Type} (o : outcome (A * trie.t T))
    : outcome nat :=
  do '(_, tr) <- o;; Ok (itail.m_offset (trie.m_tail T tr)).

(** A container image with the SDAT header (29 bytes in all, 7 records)
    and one SDA5 chunk of a single element, but no TAIL chunk. *)
Definition image_without_tail : list nat :=
  (SDAT ++ [29; 0; 0; 0] ++ [16; 0; 0; 0] ++ [7; 0; 0; 0]
   ++ doublearray5_traits.chunk_id ++ [13; 0; 0; 0] ++ [1; 0; 0; 0; 0])%nat.

(** What is visible after trie::read: the return value, the record count,
    whether the double array and the tail array are allocated, the number
    of elements of the double array, and the position and failbit of the
    stream. *)
Definition read_summary {T : traits}
    (o : outcome (nat * trie.t T * istream.t))
    : outcome (nat * nat * bool * bool * nat * nat * bool) :=
  do '(n, tr, ist) <- o;;
  Ok (n, trie.m_n T tr, array.allocated (trie.m_da T tr),
      itail.allocated (trie.m_tail T tr), array.size (trie.m_da T tr),
      istream.pos ist, istream.fail ist).


(** ** Orders on the keys of a record list *)

(** The order of [std::string::operator<] and [strcmp] on unsigned bytes. *)
Fixpoint lex_lt (x y : list nat) : bool :=
  match x, y with
  | _, [] => false
  | [], _ :: _ => true
  | a :: x', b :: y' => (a <? b)%nat || ((a =? b)%nat && lex_lt x' y')
  end.

(** [f] holds of every two consecutive records. *)
Fixpoint pairwise {V : Type}
    (f : builder.record_type V -> builder.record_type V -> bool)
    (rs : list (builder.record_type V)) : bool :=
  match rs with
  | r :: rs' =>
      match rs' with
      | r' :: _ => f r r' && pairwise f rs'
      | [] => true
      end
  | [] => true
  end.

(** Every key is strictly smaller than the next one. *)
Definition ascending {V : Type} (rs : list (builder.record_type V)) : bool :=
  pairwise (fun r r' => lex_lt (builder.key r) (builder.key r')) rs.

(** No key is greater than the next one. *)
Definition nondescending {V : Type} (rs : list (builder.record_type V)) : bool :=
  pairwise (fun r r' => negb (lex_lt (builder.key r') (builder.key r))) rs.

(** No key is identical to the next one. *)
Definition neighbours_differ {V : Type} (rs : list (builder.record_type V))
    : bool :=
  pairwise (fun r r' => negb (bool_decide (builder.key r = builder.key r'))) rs.

(** Every byte of every key fits [uint8_t]. *)
Definition byte_keys {V : Type} (rs : list (builder.record_type V)) : Prop :=
  Forall (fun r => Forall (fun x => (x < 256)%nat) (builder.key r)) rs.

(** No key has a 0 byte. *)
Definition c_string_keys {V : Type} (rs : list (builder.record_type V)) : Prop :=
  Forall (fun r => c_string (builder.key r)) rs.

(** The errors of the builder, as opposed to the exception of the trie. *)
Definition builder_error (e : error) : Prop :=
  e = UnsortedInput \/ e = DuplicateKey \/ e = CapacityExceeded.
(** * Verification *)

Local Open Scope Z_scope.

(** ** Arithmetic of the 4-byte element *)

Lemma sint32_id z : is_int32 z -> sint32 z = z.
Proof. unfold is_int32, sint32. intros H. rewrite Z.mod_small; lia. Qed.

Lemma sint32_range z : is_int32 (sint32 z).
Proof.
  unfold is_int32, sint32.
  pose proof (Z.mod_pos_bound (z + 2 ^ 31) (2 ^ 32) ltac:(lia)). lia.
Qed.

Lemma land_255 z : Z.land z 255 = z mod 256.
Proof. change 255 with (Z.ones 8). rewrite Z.land_ones by lia. reflexivity. Qed.

Lemma testbit_above a n :
  0 <= a < 2 ^ n -> forall m, n <= m -> Z.testbit a m = false.
Proof.
  intros Ha m Hm. destruct (Z.eq_dec a 0) as [->|Hne]; [apply Z.bits_0|].
  apply Z.bits_above_log2; [lia|].
  assert (0 <= n) by (destruct (Z.le_gt_cases 0 n); [lia|];
    rewrite Z.pow_neg_r in Ha by lia; lia).
  assert (Z.log2 a < n) by (apply Z.log2_lt_pow2; lia). lia.
Qed.

Lemma lor_disjoint_low a v :
  0 <= a < 256 -> Z.lor a (v * 256) = a + v * 256.
Proof.
  intros Ha.
  assert (Hl : Z.land a (v * 256) = 0).
  { apply Z.bits_inj'. intros n Hn. rewrite Z.land_spec, Z.bits_0.
    destruct (Z.ltb_spec n 8).
    - change 256 with (2 ^ 8). rewrite Z.mul_pow2_bits_low by lia.
      apply andb_false_r.
    - rewrite (testbit_above a 8) by (simpl; lia). reflexivity. }
  rewrite <- Z.lxor_lor by exact Hl.
  symmetry. apply Z.add_nocarry_lxor. exact Hl.
Qed.

Lemma land_high_mask u :
  0 <= u < 2 ^ 32 -> Z.land u 0xFFFFFF00 = (u / 256) * 256.
Proof.
  intros Hu. apply Z.bits_inj'. intros n Hn.
  rewrite Z.land_spec. change 256 with (2 ^ 8) at 2.
  destruct (Z.ltb_spec n 8).
  - rewrite Z.mul_pow2_bits_low by lia.
    replace (Z.testbit 4294967040 n) with false; [apply andb_false_r|].
    assert (n = 0 \/ n = 1 \/ n = 2 \/ n = 3 \/ n = 4 \/ n = 5 \/ n = 6 \/ n = 7)
      by lia.
    intuition subst; reflexivity.
  - rewrite Z.mul_pow2_bits by lia.
    change 256 with (2 ^ 8). rewrite <- Z.shiftr_div_pow2 by lia.
    rewrite Z.shiftr_spec by lia. replace (n - 8 + 8) with n by lia.
    destruct (Z.ltb_spec n 32).
    + replace (Z.testbit 4294967040 n) with true; [apply andb_true_r|].
      change 4294967040 with (Z.shiftl (Z.ones 24) 8).
      rewrite Z.shiftl_spec by lia. rewrite Z.ones_spec_low by lia. reflexivity.
    + rewrite (testbit_above u 32) by (simpl; lia). reflexivity.
Qed.

Lemma set_base4_value e v :
  - 2 ^ 23 <= v < 2 ^ 23 ->
  doublearray4_traits.set_base e v = e mod 256 + v * 256.
Proof.
  intros Hv. unfold doublearray4_traits.set_base.
  rewrite land_255, Z.shiftl_mul_pow2 by lia. change (2 ^ 8) with 256.
  assert (Ha : 0 <= e mod 256 < 256) by (apply Z.mod_pos_bound; lia).
  rewrite lor_disjoint_low by exact Ha.
  apply sint32_id. unfold is_int32. lia.
Qed.

Lemma set_check4_value e k :
  (k < 256)%nat ->
  doublearray4_traits.set_check e k
  = sint32 (Z.of_nat k + uint32 e / 256 * 256).
Proof.
  intros Hk. unfold doublearray4_traits.set_check.
  assert (Hu : 0 <= uint32 e < 2 ^ 32) by (apply Z.mod_pos_bound; lia).
  rewrite land_high_mask by exact Hu.
  assert (Hk' : uint32 (Z.of_nat k) = Z.of_nat k)
    by (unfold uint32; apply Z.mod_small; lia).
  rewrite Hk', Z.lor_comm, lor_disjoint_low by lia. reflexivity.
Qed.

Lemma get_base4_set_base e v :
  - 2 ^ 23 <= v < 2 ^ 23 ->
  doublearray4_traits.get_base (doublearray4_traits.set_base e v) = v.
Proof.
  intros Hv. rewrite set_base4_value by exact Hv.
  unfold doublearray4_traits.get_base.
  rewrite Z.shiftr_div_pow2 by lia. change (2 ^ 8) with 256.
  rewrite Z.div_add by lia. rewrite Z.div_small; [lia|].
  apply Z.mod_pos_bound; lia.
Qed.

Lemma get_check4_set_base e v :
  - 2 ^ 23 <= v < 2 ^ 23 ->
  doublearray4_traits.get_check (doublearray4_traits.set_base e v)
  = doublearray4_traits.get_check e.
Proof.
  intros Hv. rewrite set_base4_value by exact Hv.
  unfold doublearray4_traits.get_check. rewrite !land_255.
  rewrite Z.add_mod, Z.mod_mul, Z.add_0_r, !Z.mod_mod by lia. reflexivity.
Qed.

Lemma get_check4_set_check e k :
  (k < 256)%nat ->
  doublearray4_traits.get_check (doublearray4_traits.set_check e k) = k.
Proof.
  intros Hk. rewrite set_check4_value by exact Hk.
  unfold doublearray4_traits.get_check. rewrite land_255.
  assert (E : sint32 (Z.of_nat k + uint32 e / 256 * 256) mod 256 = Z.of_nat k).
  { unfold sint32, uint32.
    symmetry. apply Z.mod_unique_pos with
      (q := ((Z.of_nat k + e mod 2 ^ 32 / 256 * 256 + 2 ^ 31) mod 2 ^ 32
             - 2 ^ 31 - Z.of_nat k) / 256); [lia|].
    Z.div_mod_to_equations. lia. }
  rewrite E. lia.
Qed.

Lemma get_base4_set_check e k :
  is_int32 e -> (k < 256)%nat ->
  doublearray4_traits.get_base (doublearray4_traits.set_check e k)
  = doublearray4_traits.get_base e.
Proof.
  intros He Hk. rewrite set_check4_value by exact Hk.
  unfold doublearray4_traits.get_base, is_int32 in *.
  rewrite !Z.shiftr_div_pow2 by lia. change (2 ^ 8) with 256.
  unfold sint32, uint32. Z.div_mod_to_equations. lia.
Qed.

(** C9. In the 4-byte element the BASE value is the sign-extended high 24
    bits and the CHECK value the low 8 bits: for every 32-bit element [e],
    every base value [v] with -0x7FFFFF <= v <= 0x7FFFFF and every check
    byte [k], reading a field back after setting it yields the value set,
    and setting one field leaves the other one unchanged. *)
Theorem element4_fields (e v : Z) (k : nat) :
  is_int32 e -> - 0x7FFFFF <= v <= 0x7FFFFF -> (k < 256)%nat ->
  doublearray4_traits.get_base (doublearray4_traits.set_base e v) = v /\
  doublearray4_traits.get_check (doublearray4_traits.set_base e v)
    = doublearray4_traits.get_check e /\
  doublearray4_traits.get_check (doublearray4_traits.set_check e k) = k /\
  doublearray4_traits.get_base (doublearray4_traits.set_check e k)
    = doublearray4_traits.get_base e.
Proof.
  intros He Hv Hk. repeat split.
  - apply get_base4_set_base. lia.
  - apply get_check4_set_base. lia.
  - apply get_check4_set_check. exact Hk.
  - apply get_base4_set_check; assumption.
Qed.

Lemma element4_fields_witness :
  let e := doublearray4_traits.set_check
             (doublearray4_traits.set_base 0 (- 0x7FFFFF)) 200 in
  doublearray4_traits.get_base (doublearray4_traits.set_base e 0x7FFFFF)
    = 0x7FFFFF /\
  doublearray4_traits.get_check (doublearray4_traits.set_base e 0x7FFFFF)
    = doublearray4_traits.get_check e /\
  doublearray4_traits.get_check (doublearray4_traits.set_check e 255) = 255%nat /\
  doublearray4_traits.get_base (doublearray4_traits.set_check e 255)
    = doublearray4_traits.get_base e.
Proof.
  apply element4_fields.
  - unfold is_int32. vm_compute. split; [discriminate | reflexivity].
  - lia.
  - lia.
Defined.

(** ** Outcomes *)

Local Open Scope nat_scope.
#[local] Arguments Nat.modulo : simpl never.

Lemma obind_ok {A B} (m : outcome A) (k : A -> outcome B) b :
  obind m k = Ok b -> exists a, m = Ok a /\ k a = Ok b.
Proof. destruct m; simpl; try discriminate. eauto. Qed.

Ltac obind_inv H :=
  let a := fresh "a" in
  let Ha := fresh "H" a in
  apply obind_ok in H; destruct H as (a & Ha & H).

(** ** C strings and the exact match of the tail array *)

Lemma c_strlen_nonzero s : Forall (fun c => c <> 0) s -> c_strlen s = length s.
Proof.
  induction 1 as [|c s Hc _ IH]; simpl; [reflexivity|].
  destruct (Nat.eqb_spec c 0); [contradiction|]. by rewrite IH.
Qed.

Lemma c_string_nonzero s : c_string s -> Forall (fun c => c <> 0) s.
Proof. unfold c_string. apply Forall_impl. intros; lia. Qed.

Lemma terminated_inj (s q r1 r2 : list nat) :
  Forall (fun c => c <> 0) s -> Forall (fun c => c <> 0) q ->
  s ++ 0 :: r1 = q ++ 0 :: r2 -> s = q.
Proof.
  intros Hs. revert q. induction Hs as [|c s Hc Hs IH]; intros q Hq E.
  - destruct Hq as [|d q Hd Hq]; [reflexivity|]. simpl in E. congruence.
  - destruct Hq as [|d q Hd Hq]; simpl in E; [congruence|].
    injection E as -> E. f_equal. by apply IH.
Qed.

(** What [match_string] computes on a tail array that owns [mem]: the
    stored string has to equal the query and, in addition, at least one
    more byte has to follow the terminator of the stored string. *)
Lemma match_string_spec mem o s q :
  stored_at mem o s -> Forall (fun c => c <> 0) q ->
  itail.match_string (tail_of mem o) q
  = Ok (bool_decide (s = q /\ o + length s + 1 < length mem)).
Proof.
  intros [Hs [rest Hd]] Hq.
  unfold itail.match_string, tail_of. simpl.
  rewrite (c_strlen_nonzero q Hq). rewrite firstn_all.
  unfold array.size; simpl.
  destruct (Nat.ltb_spec (o + (length q + 1)) (length mem)) as [Hlt|Hge].
  - unfold mem_read, itail.mem; simpl.
    destruct (Nat.leb_spec (o + (length q + 1)) (length mem)); [|lia].
    simpl. rewrite Hd. unfold bytes_eqb. f_equal.
    apply bool_decide_ext. split.
    + intros E.
      assert (E' : s ++ 0 :: rest
                   = q ++ 0 :: drop (length q + 1) (s ++ 0 :: rest)).
      { rewrite <- (take_drop (length q + 1) (s ++ 0 :: rest)) at 1.
        rewrite E. by rewrite <- app_assoc. }
      apply terminated_inj in E'; [|assumption..]. subst. split; [reflexivity|lia].
    + intros [-> _]. rewrite take_app_add'; [|reflexivity..]. reflexivity.
  - f_equal. symmetry. apply bool_decide_eq_false. intros [-> H]. lia.
Qed.

(** C3. The exact match of the tail array is claimed to return true exactly
    when the stored string equals the query, also when the terminator of the
    stored string is the last byte of the tail array. On the tail array
    00 00 00 00 'a' 00, read at offset 4, the stored string is "a" and its
    terminator is the last byte; [match_string] on the query "a" returns
    false. *)
Theorem match_string_last_string :
  stored_at [0; 0; 0; 0; 97; 0] 4 [97] /\
  itail.match_string (tail_of [0; 0; 0; 0; 97; 0] 4) [97] = Ok false.
Proof.
  split.
  - split; [by repeat constructor | by exists []].
  - reflexivity.
Qed.

(** ** The frame of a lookup *)

Lemma int_reader_keeps_cont : reader_keeps_cont int_codec.
Proof.
  intros i v v' i' H. simpl in H. unfold itail.read in H.
  destruct (_ <=? _); simpl in H.
  - destruct (mem_read _ _ _); simpl in H; try discriminate.
    injection H as <- <-. reflexivity.
  - injection H as <- <-. reflexivity.
Qed.

Lemma empty_reader_keeps_cont : reader_keeps_cont empty_codec.
Proof. intros i v v' i' H. simpl in H. by injection H as <- <-. Qed.

Lemma string_reader_keeps_cont : reader_keeps_cont string_codec.
Proof.
  intros i v v' i' H. simpl in H. unfold itail.read_string in H.
  obind_inv H. by injection H as <- <-.
Qed.

Section frame.
Context (T : traits) {V : Type} {codec : value_codec V}.

Lemma same_but_offset_refl (tr : trie.t T) : same_but_offset tr tr.
Proof. by repeat split. Qed.

Lemma same_but_offset_set_tail (tr : trie.t T) tl :
  itail.m_cont tl = itail.m_cont (trie.m_tail T tr) ->
  same_but_offset tr (trie.set_tail T tr tl).
Proof. intros H. by repeat split. Qed.

Lemma same_but_offset_trans (a b c : trie.t T) :
  same_but_offset a b -> same_but_offset b c -> same_but_offset a c.
Proof.
  unfold same_but_offset. intros (?&?&?&?&?) (?&?&?&?&?).
  repeat split; congruence.
Qed.

Lemma seekg_cont i o : itail.m_cont (itail.seekg i o) = itail.m_cont i.
Proof. unfold itail.seekg. by destruct (_ <? _). Qed.

Lemma locate_frame tr key offset tr' :
  trie.locate T tr key = Ok (offset, tr') -> same_but_offset tr tr'.
Proof.
  unfold trie.locate. intros H. obind_inv H.
  destruct a as [[off p]|].
  - obind_inv H. destruct a.
    + obind_inv H. injection H as <- <-.
      apply same_but_offset_set_tail, seekg_cont.
    + injection H as <- <-. apply same_but_offset_set_tail, seekg_cont.
  - injection H as <- <-. apply same_but_offset_refl.
Qed.

(** C10. A call to in(key) or find(key, value) changes no component of
    the trie except the read position of the tail array: the memory
    block, the character table, the double array, the record count and
    the contents of the tail array are the same before and after the
    call (for find, with a value reader that only reads). *)
Theorem lookup_frame (tr : trie.t T) (key : list nat)
    (Hreader : reader_keeps_cont codec) :
  (forall r tr', trie.in_ T tr key = Ok (r, tr') -> same_but_offset tr tr') /\
  (forall v r v' tr',
     trie.find T tr key v = Ok (r, v', tr') -> same_but_offset tr tr').
Proof.
  split.
  - intros r tr' H. unfold trie.in_ in H. obind_inv H. destruct a as [off t1].
    injection H as <- <-. eapply locate_frame; eassumption.
  - intros v r v' tr' H. unfold trie.find in H. obind_inv H.
    destruct a as [off t1]. apply locate_frame in Ha.
    destruct (negb (off =? 0)).
    + obind_inv H. destruct a as [v1 tl]. injection H as <- <- <-.
      eapply same_but_offset_trans; [exact Ha|].
      apply same_but_offset_set_tail.
      apply Hreader in Ha0. rewrite Ha0. apply seekg_cont.
    + injection H as <- <- <-. exact Ha.
Qed.
End frame.

Lemma sample_find_two :
  result (trie.find doublearray5_traits.t sample_trie (bytes_of "two") 0%Z)
  = Ok (true, 2%Z).
Proof. vm_compute. reflexivity. Qed.

Lemma sample_find_two_offset :
  offset_after (trie.find doublearray5_traits.t sample_trie (bytes_of "two") 0%Z)
  = Ok 76 /\
  itail.m_offset (trie.m_tail _ sample_trie) = 0.
Proof. vm_compute. split; reflexivity. Qed.

(** A lookup in the trie of the sample program: the call returns, the frame
    is kept, and the read position of the tail array has moved. *)
Lemma lookup_frame_witness :
  exists tr',
    trie.find doublearray5_traits.t sample_trie (bytes_of "two") 0%Z
      = Ok (true, 2%Z, tr') /\
    same_but_offset sample_trie tr' /\
    itail.m_offset (trie.m_tail _ tr')
      <> itail.m_offset (trie.m_tail _ sample_trie).
Proof.
  destruct (obind_ok _ _ _ sample_find_two) as ([[r v] tr'] & Hf & Hr).
  destruct sample_find_two_offset as [Ho Ho0].
  unfold offset_after in Ho. rewrite Hf in Ho.
  injection Hr as -> ->. injection Ho as Ho.
  exists tr'. split; [exact Hf|]. split.
  - exact (proj2 (lookup_frame doublearray5_traits.t sample_trie
                    (bytes_of "two") int_reader_keeps_cont) _ _ _ _ Hf).
  - rewrite Ho, Ho0. discriminate.
Defined.

(** ** Lookups after a build *)

(** The sample program: the lookups and the prefix enumeration it prints. *)
Lemma sample_program :
  find_after_build doublearray5_traits.t sorts.sort_stable sample_records
    (bytes_of "one") (-1)%Z = Ok (true, 1%Z) /\
  find_after_build doublearray5_traits.t sorts.sort_stable sample_records
    (bytes_of "other") (-1)%Z = Ok (false, (-1)%Z) /\
  in_after_build doublearray5_traits.t sorts.sort_stable sample_records
    (bytes_of "ten") = Ok true /\
  in_after_build doublearray5_traits.t sorts.sort_stable sample_records
    (bytes_of "eleven") = Ok false /\
  prefixes_after_build doublearray5_traits.t sorts.sort_stable sample_records
    (bytes_of "eighteen") 0%Z 9 = Ok [(5, 8%Z)].
Proof. vm_compute. repeat split; reflexivity. Qed.

(** C1. Every record of a sorted list is claimed to be found, with its
    value, after a build, for every built-in value type. Two inputs on
    which find does not find a key of the list:
    - the one-record list [("a", 1)] with int values, for either element
      width and whatever std::sort does: the root becomes a leaf, and the
      lookup never descends from a leaf;
    - the keys "alpha", "beta", "gamma" with the empty value type: the key
      stored last ends the tail array and the exact match rejects it. *)
Theorem find_misses_stored_key :
  (forall sort,
     find_after_build doublearray5_traits.t sort
       (records_of [("a", 1%Z)]%string) (bytes_of "a") 0%Z = Ok (false, 0%Z)) /\
  (forall sort,
     find_after_build doublearray4_traits.t sort
       (records_of [("a", 1%Z)]%string) (bytes_of "a") 0%Z = Ok (false, 0%Z)) /\
  find_after_build doublearray5_traits.t sorts.sort_stable
    (records_of [("alpha", empty_value); ("beta", empty_value);
                 ("gamma", empty_value)]%string)
    (bytes_of "gamma") empty_value = Ok (false, empty_value) /\
  in_after_build doublearray5_traits.t sorts.sort_stable
    (records_of [("alpha", empty_value); ("beta", empty_value);
                 ("gamma", empty_value)]%string)
    (bytes_of "beta") = Ok true.
Proof.
  split; [intros sort; vm_compute; reflexivity|].
  split; [intros sort; vm_compute; reflexivity|].
  vm_compute. split; reflexivity.
Qed.

(** C2. The prefix cursor is claimed to enumerate every record whose key is
    a prefix of the query. Two inputs on which it leaves one out:
    - the one-record list [("a", 1)] and the query "ab": next() returns
      false at once, although "a" is a prefix of "ab";
    - the keys "a", "ab", "abc" with the empty value type and the query
      "abcd": the cursor yields the prefixes of length 1 and 2 and then
      returns false, although "abc" is a prefix of "abcd"; with int values
      the same keys are all enumerated. *)
Theorem prefix_cursor_misses_stored_key :
  (forall sort,
     prefixes_after_build doublearray5_traits.t sort
       (records_of [("a", 1%Z)]%string) (bytes_of "ab") 0%Z 4 = Ok []) /\
  prefixes_after_build doublearray5_traits.t sorts.sort_stable
    (records_of [("a", empty_value); ("ab", empty_value);
                 ("abc", empty_value)]%string)
    (bytes_of "abcd") empty_value 4
  = Ok [(1, empty_value); (2, empty_value)] /\
  prefixes_after_build doublearray5_traits.t sorts.sort_stable
    (records_of [("a", 1%Z); ("ab", 2%Z); ("abc", 3%Z)]%string)
    (bytes_of "abcd") 0%Z 4
  = Ok [(1, 1%Z); (2, 2%Z); (3, 3%Z)].
Proof.
  split; [intros sort; vm_compute; reflexivity|].
  vm_compute. split; reflexivity.
Qed.

(** ** The character table *)

Section table.
Import builder.
Context {V : Type}.

Definition add_freq (n : nat) (u : unigram_freq) : unigram_freq :=
  mk_unigram (uc u) (freq u + n).

Lemma fold_incr_lookup (l : list nat) (st : list unigram_freq) (c : nat) :
  fold_left (fun st c => alter incr_freq c st) l st !! c
  = add_freq (count_occ Nat.eq_dec l c) <$> st !! c.
Proof.
  revert st. induction l as [|x l IH]; intros st; simpl.
  - destruct (st !! c) as [[]|]; simpl; [|reflexivity].
    unfold add_freq; simpl. by rewrite Nat.add_0_r.
  - rewrite IH. destruct (Nat.eq_dec x c) as [->|Hne].
    + rewrite list_lookup_alter_eq. destruct (st !! c) as [[]|]; simpl; [|reflexivity].
      unfold add_freq, incr_freq; simpl. f_equal. f_equal. lia.
    + by rewrite list_lookup_alter_ne.
Qed.

Lemma count_key_lookup (st : list unigram_freq) (k : list nat) (c : nat) :
  count_key st k !! c
  = add_freq (count_occ Nat.eq_dec (take (c_strlen k) k) c
              + if c =? 0 then 1 else 0) <$> st !! c.
Proof.
  unfold count_key. destruct (Nat.eqb_spec c 0) as [->|Hne].
  - rewrite list_lookup_alter_eq, fold_incr_lookup.
    destruct (st !! 0) as [[]|]; simpl; [|reflexivity].
    unfold add_freq, incr_freq; simpl. f_equal. f_equal. lia.
  - rewrite list_lookup_alter_ne by congruence. rewrite fold_incr_lookup.
    by rewrite Nat.add_0_r.
Qed.

Lemma count_records_lookup (rs : list (record_type V)) st c :
  fold_left (fun st r => count_key st (key r)) rs st !! c
  = add_freq (counted_c_str c rs) <$> st !! c.
Proof.
  revert st. induction rs as [|r rs IH]; intros st; simpl.
  - unfold counted_c_str, occurrences_c_str; simpl.
    destruct (st !! c) as [[]|]; simpl; [|reflexivity].
    unfold add_freq; simpl. f_equal. f_equal. destruct (c =? 0); lia.
  - rewrite IH, count_key_lookup.
    destruct (st !! c) as [[]|]; simpl; [|reflexivity].
    unfold add_freq, counted_c_str, occurrences_c_str; simpl. f_equal. f_equal.
    destruct (c =? 0); lia.
Qed.

Lemma count_freq_eq (rs : list (record_type V)) :
  count_freq rs
  = map (fun c => mk_unigram c (counted_c_str c rs)) (seq 0 NUMCHARS).
Proof.
  apply list_eq. intros c. unfold count_freq.
  rewrite count_records_lookup.
  rewrite !list_lookup_fmap. destruct (seq 0 NUMCHARS !! c) as [n|] eqn:E; [|reflexivity].
  apply lookup_seq in E as [-> _]. reflexivity.
Qed.

(** Without a 0 byte in the keys every occurrence is counted. *)
Lemma counted_c_str_all (rs : list (record_type V)) (c : nat) :
  Forall (fun r => Forall (fun x => x <> 0) (key r)) rs ->
  counted_c_str c rs = counted c rs.
Proof.
  intros Hrs. unfold counted_c_str, counted, occurrences_c_str, occurrences.
  f_equal. f_equal. induction Hrs as [|r rs Hr _ IH]; simpl; [reflexivity|].
  by rewrite IH, (c_strlen_nonzero _ Hr), firstn_all.
Qed.


(** fill_table *)
Lemma fill_length (ps : list (nat * unigram_freq)) (tbl : list nat) :
  length (fold_left (fun tbl iu => <[uc (snd iu) := fst iu]> tbl) ps tbl)
  = length tbl.
Proof.
  revert tbl. induction ps as [|p ps IH]; intros tbl; simpl; [reflexivity|].
  by rewrite IH, length_insert.
Qed.

Lemma fill_lookup_other (ps : list (nat * unigram_freq)) (tbl : list nat) c :
  c ∉ map (fun iu => uc (snd iu)) ps ->
  fold_left (fun tbl iu => <[uc (snd iu) := fst iu]> tbl) ps tbl !! c
  = tbl !! c.
Proof.
  revert tbl. induction ps as [|p ps IH]; intros tbl Hc; simpl; [reflexivity|].
  simpl in Hc. apply not_elem_of_cons in Hc as [Hne Hc].
  rewrite IH by exact Hc. by rewrite list_lookup_insert_ne.
Qed.

Lemma fill_lookup (ps : list (nat * unigram_freq)) (tbl : list nat) i u :
  NoDup (map (fun iu => uc (snd iu)) ps) ->
  (i, u) ∈ ps -> uc u < length tbl ->
  fold_left (fun tbl iu => <[uc (snd iu) := fst iu]> tbl) ps tbl !! uc u
  = Some i.
Proof.
  revert tbl. induction ps as [|p ps IH]; intros tbl Hnd Hin Hlt; simpl.
  - by apply elem_of_nil in Hin.
  - simpl in Hnd. apply list.NoDup_cons in Hnd as [Hp Hnd].
    apply elem_of_cons in Hin as [<-|Hin].
    + simpl. rewrite fill_lookup_other by exact Hp.
      by apply list_lookup_insert_eq.
    + apply IH; [exact Hnd | exact Hin | by rewrite length_insert].
Qed.

Lemma strongly_sorted_lookup {A} (R : A -> A -> Prop) l i j x y :
  StronglySorted R l -> i < j -> l !! i = Some x -> l !! j = Some y -> R x y.
Proof.
  intros Hs. revert i j. induction Hs as [|a l Hs IH Hall]; intros i j Hij Hi Hj.
  - discriminate.
  - destruct j as [|j]; [lia|]. simpl in Hj. destruct i as [|i].
    + simpl in Hi. injection Hi as ->.
      rewrite Forall_forall in Hall. apply Hall.
      apply list_elem_of_In. eapply list_elem_of_lookup_2. exact Hj.
    + simpl in Hi. apply (IH i j); [lia|assumption..].
Qed.

Context (sort : list unigram_freq -> list unigram_freq).
Hypothesis Hsort : sort_contract sort.

Lemma sorted_facts (rs : list (record_type V)) :
  let sorted := sort (count_freq rs) in
  length sorted = NUMCHARS /\
  NoDup (map uc sorted) /\
  (forall i u, sorted !! i = Some u ->
               uc u < NUMCHARS /\ freq u = counted_c_str (uc u) rs) /\
  (forall c, c < NUMCHARS -> exists i u, sorted !! i = Some u /\ uc u = c).
Proof.
  intros sorted. destruct (Hsort (count_freq rs)) as [Hperm _].
  fold sorted in Hperm. rewrite (count_freq_eq rs) in Hperm.
  split; [|split; [|split]].
  - rewrite (Permutation_length Hperm), length_map, length_seq. reflexivity.
  - assert (Hp : map uc sorted ≡ₚ seq 0 NUMCHARS).
    { rewrite (Permutation_map uc Hperm), map_map.
      rewrite (map_ext _ (fun x => x)) by reflexivity. by rewrite List.map_id. }
    rewrite Hp. apply NoDup_seq.
  - intros i u Hi. apply list_elem_of_lookup_2 in Hi.
    rewrite Hperm in Hi. apply list_elem_of_fmap in Hi as (c & -> & Hc).
    simpl. apply elem_of_seq in Hc. split; [lia|reflexivity].
  - intros c Hc.
    assert (Hin : mk_unigram c (counted_c_str c rs) ∈ sorted).
    { rewrite Hperm. apply list_elem_of_fmap. exists c. split; [reflexivity|].
      apply elem_of_seq. lia. }
    apply list_elem_of_lookup_1 in Hin as [i Hi].
    by exists i, (mk_unigram c (counted_c_str c rs)).
Qed.

Lemma build_table_lookup (rs : list (record_type V)) (table : list nat) :
  length table = NUMCHARS ->
  forall i u, sort (count_freq rs) !! i = Some u ->
    build_table sort table rs !! uc u = Some i.
Proof.
  intros Hlen i u Hi.
  destruct (sorted_facts rs) as (Hl & Hnd & Hu & _).
  unfold build_table, fill_table. apply fill_lookup.
  - rewrite <- (map_map snd uc). change (map snd ?l) with (snd <$> l).
    rewrite snd_zip by (rewrite length_seq, Hl; lia). exact Hnd.
  - apply list_elem_of_lookup. exists i. apply lookup_zip_Some.
    split; [|exact Hi].
    apply lookup_seq. split; [reflexivity|]. apply lookup_lt_Some in Hi. lia.
  - rewrite Hlen. by apply Hu in Hi as [? _].
Qed.

(** C6, as the code has it. For every list of records, the counted
    frequency of a byte is the number of its occurrences before the first
    0 byte of each key - all its occurrences when no key has a 0 byte -
    plus one occurrence of 0 per record; the character table is a
    permutation of 0..255; and a byte with a strictly higher counted
    frequency has a strictly smaller rank. The order of bytes of equal
    frequency is whatever std::sort leaves. *)
Theorem build_table_ranks (rs : list (record_type V)) (table : list nat) :
  length table = NUMCHARS ->
  let tbl := build_table sort table rs in
  (forall c, c < NUMCHARS ->
     freq <$> count_freq rs !! c = Some (counted_c_str c rs)) /\
  (Forall (fun r => Forall (fun x => x <> 0) (key r)) rs ->
   forall c, counted_c_str c rs = counted c rs) /\
  Permutation tbl (seq 0 NUMCHARS) /\
  (forall c d rc rd,
     tbl !! c = Some rc -> tbl !! d = Some rd ->
     counted_c_str d rs < counted_c_str c rs -> rc < rd).
Proof.
  intros Hlen tbl.
  destruct (sorted_facts rs) as (Hl & Hnd & Hu & Hex).
  pose proof (build_table_lookup rs table Hlen) as Hlk. fold tbl in Hlk.
  assert (Htl : length tbl = NUMCHARS).
  { unfold tbl, build_table, fill_table. by rewrite fill_length. }
  split; [|split; [|split]].
  - intros c Hc. rewrite (count_freq_eq rs), list_lookup_fmap.
    rewrite lookup_seq_lt by exact Hc. reflexivity.
  - intros Hrs c. by apply counted_c_str_all.
  - apply Permutation_sym, NoDup_Permutation_bis.
    + apply seq_NoDup.
    + rewrite Htl, length_seq. lia.
    + intros i Hi. apply in_seq in Hi.
      destruct (lookup_lt_is_Some_2 (sort (count_freq rs)) i) as [u Hiu]; [lia|].
      apply list_elem_of_In. eapply list_elem_of_lookup_2. apply Hlk. exact Hiu.
  - intros c d rc rd Hc Hd Hfreq.
    assert (Hc' : c < NUMCHARS) by (apply lookup_lt_Some in Hc; lia).
    assert (Hd' : d < NUMCHARS) by (apply lookup_lt_Some in Hd; lia).
    destruct (Hex c Hc') as (i & u & Hi & Huc).
    destruct (Hex d Hd') as (j & w & Hj & Hwd).
    pose proof (Hlk i u Hi) as Hci. rewrite Huc, Hc in Hci. injection Hci as ->.
    pose proof (Hlk j w Hj) as Hdj. rewrite Hwd, Hd in Hdj. injection Hdj as ->.
    destruct (Hu i u Hi) as [_ Hfu]. destruct (Hu j w Hj) as [_ Hfw].
    rewrite Huc in Hfu. rewrite Hwd in Hfw.
    destruct (Nat.lt_trichotomy i j) as [Hlt|[->|Hgt]]; [exact Hlt| |].
    + rewrite Hi in Hj. injection Hj as ->. lia.
    + destruct (Hsort (count_freq rs)) as [_ Hs].
      pose proof (strongly_sorted_lookup _ _ j i w u Hs Hgt Hj Hi) as Hle.
      simpl in Hle. lia.
Qed.
End table.

(** [sorts.sort_stable] meets the contract of std::sort. *)

Lemma insert_before_perm x l : Permutation (sorts.insert_before x l) (x :: l).
Proof.
  induction l as [|y l IH]; simpl; [reflexivity|].
  destruct (builder.comp_freq y x); [|reflexivity].
  rewrite IH. apply perm_swap.
Qed.

Lemma insert_before_sorted x l :
  StronglySorted (fun x y => builder.freq y <= builder.freq x) l ->
  StronglySorted (fun x y => builder.freq y <= builder.freq x)
                 (sorts.insert_before x l).
Proof.
  induction 1 as [|y l Hs IH Hall]; simpl.
  - constructor; constructor.
  - unfold builder.comp_freq. destruct (Nat.ltb_spec (builder.freq x) (builder.freq y)).
    + constructor; [exact IH|].
      rewrite (insert_before_perm x l). constructor; [lia|exact Hall].
    + constructor; [by constructor|].
      constructor; [lia|]. eapply Forall_impl; [|exact Hall]. simpl. intros; lia.
Qed.

Lemma sort_stable_contract : sort_contract sorts.sort_stable.
Proof.
  intros l. induction l as [|x l [IHp IHs]]; simpl.
  - split; [reflexivity|constructor].
  - split.
    + rewrite insert_before_perm. by constructor.
    + by apply insert_before_sorted.
Qed.

Lemma build_table_ranks_witness :
  let tbl := builder.build_table sorts.sort_stable (seq 0 NUMCHARS)
               sample_records in
  (forall c, c < NUMCHARS ->
     builder.freq <$> builder.count_freq sample_records !! c
     = Some (counted_c_str c sample_records)) /\
  (Forall (fun r => Forall (fun x => x <> 0) (builder.key r)) sample_records ->
   forall c, counted_c_str c sample_records = counted c sample_records) /\
  Permutation tbl (seq 0 NUMCHARS) /\
  (forall c d rc rd,
     tbl !! c = Some rc -> tbl !! d = Some rd ->
     counted_c_str d sample_records < counted_c_str c sample_records -> rc < rd).
Proof.
  apply (build_table_ranks sorts.sort_stable sort_stable_contract).
  reflexivity.
Defined.

(** The table of the one-record input "a" with the sort of the GNU C++
    library: the two bytes of frequency 1 come first, and of the bytes 1
    and 255, both of frequency 0, the larger has the smaller rank. *)
Lemma one_key_table :
  let tbl := builder.build_table std_sort.sort (seq 0 NUMCHARS) one_key in
  tbl !! 0 = Some 0 /\ tbl !! 97 = Some 1 /\
  tbl !! 255 = Some 96 /\ tbl !! 1 = Some 162.
Proof. vm_compute. repeat split; reflexivity. Qed.

(** C6, as claimed. (1) Ties are not broken by ascending byte value: on
    the one-record input "a" every byte but 0 and 'a' has frequency 0, and
    the sort of the GNU C++ library leaves the byte 255 at rank 96 and the
    byte 1 at rank 113. (2) The bytes of a key are not all counted: for
    the key 'a', 0, 'b' the byte 'b' occurs once in the keys and is
    counted 0 times, and the byte 0 is counted once, not twice. *)
Lemma build_table_claim_fails :
  ~ ties_ascending (builder.build_table std_sort.sort (seq 0 NUMCHARS) one_key)
                   one_key /\
  ~ (forall c, c < NUMCHARS ->
       builder.freq <$> builder.count_freq nul_key !! c
       = Some (counted c nul_key)).
Proof.
  split.
  - intros H. specialize (H 1 255 162 96).
    assert (162 < 96); [|lia].
    apply H; [lia | vm_compute; reflexivity..].
  - intros H. specialize (H 98 ltac:(unfold NUMCHARS; lia)).
    vm_compute in H. discriminate.
Qed.

(** ** Reading a trie from a stream *)

Section read.
Context (T : traits).

Lemma mem_read_ok (mem : list nat) off n :
  off + n <= length mem -> mem_read mem off n = Ok (take n (drop off mem)).
Proof.
  intros H. unfold mem_read. by destruct (Nat.leb_spec (off + n) (length mem)); [|lia].
Qed.

Lemma take_split {A} (l : list A) n m :
  n <= m -> take m l = take n l ++ take (m - n) (drop n l).
Proof.
  revert n m. induction l as [|x l IH]; intros n m H.
  - by rewrite drop_nil, !take_nil.
  - destruct n as [|n], m as [|m]; simpl; try reflexivity; try lia.
    f_equal. apply IH. lia.
Qed.

Lemma read_chunk_header (mem : list nat) :
  8 <= length mem ->
  trie.read_chunk mem 0
  = Ok (take 4 mem, Z.to_nat (le_value (take 4 (drop 4 mem)))).
Proof.
  intros H. unfold trie.read_chunk, trie.read_uint32.
  rewrite !mem_read_ok by (simpl; lia). reflexivity.
Qed.

(** C7, as the code has it. For a stream whose failbit is not set, with
    [avail] the bytes from the read position on and [total] the size field
    of the first chunk header:
    - fewer than 8 bytes available: read returns 0 and the trie is
      unchanged;
    - 8 bytes available that do not start with "SDAT": read returns 0, the
      trie is unchanged and the stream is as it was before the call;
    - "SDAT" header, but fewer than [total] bytes available: read returns 0
      and the trie is unchanged except for its memory block;
    - "SDAT" header and [total] bytes available, and assign does not return
      [total]: read returns 0, the stream is as it was before the call, and
      the trie is the one assign left. *)
Theorem read_failure (tr : trie.t T) (ist : istream.t) :
  istream.fail ist = false ->
  let avail := drop (istream.pos ist) (istream.data ist) in
  let total := Z.to_nat (le_value (take 4 (drop 4 avail))) in
  (length avail < 8 -> exists ist', trie.read T tr ist = Ok (0, tr, ist')) /\
  (8 <= length avail -> take 4 avail <> SDAT ->
   trie.read T tr ist = Ok (0, tr, ist)) /\
  (8 <= length avail -> take 4 avail = SDAT ->
   8 <= total -> length avail < total ->
   exists ist',
     trie.read T tr ist = Ok (0, trie.with_block T tr (Some avail), ist')) /\
  (8 <= length avail -> take 4 avail = SDAT ->
   8 <= total <= length avail ->
   forall used tr1,
     trie.assign_block T (trie.with_block T tr (Some (take total avail)))
       (take total avail) total = Ok (used, tr1) ->
     used <> total ->
     trie.read T tr ist = Ok (0, tr1, ist)).
Proof.
  destruct ist as [data pos fail]. simpl. intros ->.
  set (avail := drop pos data). set (total := Z.to_nat _).
  assert (Hlen : length avail = length data - pos) by (unfold avail; apply length_drop).
  unfold trie.read, istream.read, istream.tellg. simpl.
  split; [|split; [|split]].
  - intros Hshort. destruct (Nat.leb_spec (pos + CHUNKSIZE) (length data)) as [Hle|Hgt].
    + unfold CHUNKSIZE in Hle. lia.
    + simpl. eauto.
  - intros Hav Hmagic.
    destruct (Nat.leb_spec (pos + CHUNKSIZE) (length data)) as [Hle|Hgt];
      [|unfold CHUNKSIZE in Hgt; lia].
    simpl. fold avail.
    rewrite read_chunk_header by (rewrite length_take; unfold CHUNKSIZE; lia).
    simpl. rewrite take_take. simpl.
    unfold bytes_eqb. rewrite bool_decide_eq_false_2 by exact Hmagic. simpl.
    unfold istream.seekg. simpl.
    destruct (Z.leb_spec 0 (Z.of_nat pos)); [|lia].
    destruct (Z.leb_spec (Z.of_nat pos) (Z.of_nat (length data))); [|lia].
    simpl. by rewrite Nat2Z.id.
  - intros Hav Hmagic Htot Hshort.
    destruct (Nat.leb_spec (pos + CHUNKSIZE) (length data)) as [Hle|Hgt];
      [|unfold CHUNKSIZE in Hgt; lia].
    simpl. fold avail.
    rewrite read_chunk_header by (rewrite length_take; unfold CHUNKSIZE; lia).
    simpl. rewrite take_take. simpl.
    unfold bytes_eqb. rewrite bool_decide_eq_true_2 by exact Hmagic. simpl.
    assert (Ht : Z.to_nat (le_value (take 4 (drop 4 (take CHUNKSIZE avail)))) = total).
    { unfold total. f_equal. f_equal. unfold CHUNKSIZE.
      change 8 with (4 + 4).
      rewrite <- take_drop_commute. rewrite take_take. reflexivity. }
    rewrite Ht.
    destruct (Nat.ltb_spec total CHUNKSIZE) as [|_]; [unfold CHUNKSIZE in *; lia|].
    destruct (Nat.leb_spec (pos + CHUNKSIZE + (total - CHUNKSIZE)) (length data)) as [Hle2|Hgt2];
      [unfold CHUNKSIZE in *; lia|].
    simpl.
    replace (take CHUNKSIZE avail ++ drop (pos + CHUNKSIZE) data) with avail.
    2:{ unfold avail. rewrite <- drop_drop. symmetry. apply take_drop. }
    eauto.
  - intros Hav Hmagic [Htot Hfit] used tr1 Hassign Hused.
    destruct (Nat.leb_spec (pos + CHUNKSIZE) (length data)) as [Hle|Hgt];
      [|unfold CHUNKSIZE in Hgt; lia].
    simpl. fold avail.
    rewrite read_chunk_header by (rewrite length_take; unfold CHUNKSIZE; lia).
    simpl. rewrite take_take. simpl.
    unfold bytes_eqb. rewrite bool_decide_eq_true_2 by exact Hmagic. simpl.
    assert (Ht : Z.to_nat (le_value (take 4 (drop 4 (take CHUNKSIZE avail)))) = total).
    { unfold total. f_equal. f_equal. unfold CHUNKSIZE.
      change 8 with (4 + 4).
      rewrite <- take_drop_commute. rewrite take_take. reflexivity. }
    rewrite Ht.
    destruct (Nat.ltb_spec total CHUNKSIZE) as [|_]; [unfold CHUNKSIZE in *; lia|].
    destruct (Nat.leb_spec (pos + CHUNKSIZE + (total - CHUNKSIZE)) (length data)) as [Hle2|Hgt2];
      [|unfold CHUNKSIZE in *; lia].
    simpl.
    replace (take CHUNKSIZE avail ++ take (total - CHUNKSIZE) (drop (pos + CHUNKSIZE) data))
      with (take total avail).
    2:{ rewrite (take_split avail CHUNKSIZE total) by exact Htot.
        unfold avail. by rewrite drop_drop. }
    rewrite Hassign. simpl.
    destruct (Nat.eqb_spec used total); [contradiction|]. simpl.
    unfold istream.seekg. simpl.
    destruct (Z.leb_spec 0 (Z.of_nat pos)); [|lia].
    destruct (Z.leb_spec (Z.of_nat pos) (Z.of_nat (length data))); [|lia].
    simpl. by rewrite Nat2Z.id.
Qed.
End read.

Lemma read_failure_witness :
  let tr := trie.init doublearray5_traits.t 0 in
  let ist := istream.mk image_without_tail 0 false in
  let avail := drop (istream.pos ist) (istream.data ist) in
  let total := Z.to_nat (le_value (take 4 (drop 4 avail))) in
  (length avail < 8 ->
   exists ist', trie.read doublearray5_traits.t tr ist = Ok (0, tr, ist')) /\
  (8 <= length avail -> take 4 avail <> SDAT ->
   trie.read doublearray5_traits.t tr ist = Ok (0, tr, ist)) /\
  (8 <= length avail -> take 4 avail = SDAT ->
   8 <= total -> length avail < total ->
   exists ist',
     trie.read doublearray5_traits.t tr ist
     = Ok (0, trie.with_block _ tr (Some avail), ist')) /\
  (8 <= length avail -> take 4 avail = SDAT ->
   8 <= total <= length avail ->
   forall used tr1,
     trie.assign_block doublearray5_traits.t
       (trie.with_block _ tr (Some (take total avail)))
       (take total avail) total = Ok (used, tr1) ->
     used <> total ->
     trie.read doublearray5_traits.t tr ist = Ok (0, tr1, ist)).
Proof.
  apply (read_failure doublearray5_traits.t
           (trie.init doublearray5_traits.t 0)
           (istream.mk image_without_tail 0 false)).
  reflexivity.
Defined.

Lemma read_image_without_tail :
  read_summary (trie.read doublearray5_traits.t
                  (trie.init doublearray5_traits.t 0)
                  (istream.mk image_without_tail 0 false))
  = Ok (0, 7, true, false, 1, 0, false).
Proof. vm_compute. reflexivity. Qed.

(** C7, as claimed: after a failing read the trie is still uninitialized.
    On the image without a TAIL chunk, read fails (it returns 0, with the
    stream position restored), and leaves a record count of 7 and an
    allocated double array of one element in the trie, which was
    constructed with no double array. *)
Lemma failed_read_populates_trie :
  exists tr' ist',
    trie.read doublearray5_traits.t (trie.init doublearray5_traits.t 0)
      (istream.mk image_without_tail 0 false) = Ok (0, tr', ist') /\
    array.allocated (trie.m_da _ (trie.init doublearray5_traits.t 0)) = false /\
    array.allocated (trie.m_da _ tr') = true /\
    trie.m_n _ tr' = 7 /\
    tr' <> trie.init doublearray5_traits.t 0.
Proof.
  destruct (obind_ok _ _ _ read_image_without_tail) as ([[n tr'] ist'] & E & H).
  injection H as -> Hn Hda _ _ _ _.
  exists tr', ist'. split; [exact E|]. split; [reflexivity|].
  split; [exact Hda|]. split; [exact Hn|].
  intros ->. discriminate.
Qed.

(** The stream after a read that fails on a short header: the failbit is
    set, and the seekg that should rewind the stream has no effect. *)
Lemma short_read_leaves_position :
  read_summary (trie.read doublearray5_traits.t
                  (trie.init doublearray5_traits.t 0)
                  (istream.mk [83; 68; 65] 0 false))
  = Ok (0, 0, false, false, 0, 3, true).
Proof. vm_compute. reflexivity. Qed.

(** ** The two element widths *)

(** Outcomes related by a relation on their results. *)
Definition orel {A B} (R : A -> B -> Prop) (o1 : outcome A) (o2 : outcome B) : Prop :=
  match o1, o2 with
  | Ok a, Ok b => R a b
  | Throw e1, Throw e2 => e1 = e2
  | Undefined, Undefined => True
  | Diverge, Diverge => True
  | OutOfFuel, OutOfFuel => True
  | _, _ => False
  end.

Lemma orel_bind {A B A' B'} (R : A -> B -> Prop) (S : A' -> B' -> Prop)
    (m1 : outcome A) (m2 : outcome B) k1 k2 :
  orel R m1 m2 -> (forall a b, R a b -> orel S (k1 a) (k2 b)) ->
  orel S (obind m1 k1) (obind m2 k2).
Proof. destruct m1, m2; simpl; try contradiction; auto. Qed.

Lemma orel_eq {A} (o : outcome A) : orel eq o o.
Proof. by destruct o. Qed.

Lemma orel_eq_inv {A} (o1 o2 : outcome A) : orel eq o1 o2 -> o1 = o2.
Proof. destruct o1, o2; simpl; try contradiction; congruence. Qed.

Lemma forallb_eq {A} (f g : A -> bool) l :
  (forall x, f x = g x) -> forallb f l = forallb g l.
Proof. intros H. induction l as [|x l IH]; simpl; [reflexivity|]. by rewrite H, IH. Qed.

Section simulation.
Context (T1 T2 : traits) {V : Type} {codec : value_codec V}.
Context (sort : list builder.unigram_freq -> list builder.unigram_freq).
Context (er : elem T1 -> elem T2 -> Prop).
Hypothesis er_base : forall e1 e2, er e1 e2 -> tr_get_base T1 e1 = tr_get_base T2 e2.
Hypothesis er_check : forall e1 e2, er e1 e2 -> tr_get_check T1 e1 = tr_get_check T2 e2.
Hypothesis er_default : er (tr_default_value T1) (tr_default_value T2).
Hypothesis er_set_base : forall e1 e2 v,
  er e1 e2 -> (- tr_max_base T1 <= v <= tr_max_base T1)%Z ->
  er (tr_set_base T1 e1 v) (tr_set_base T2 e2 v).
Hypothesis er_set_check : forall e1 e2 k,
  er e1 e2 -> k < 256 -> er (tr_set_check T1 e1 k) (tr_set_check T2 e2 k).
Hypothesis max_base_le : (1 <= tr_max_base T1 <= tr_max_base T2)%Z.

Import builder.

Definition brel (b1 : builder.t T1) (b2 : builder.t T2) : Prop :=
  m_n T1 b1 = m_n T2 b2 /\
  Forall2 er (m_da T1 b1) (m_da T2 b2) /\
  m_tail T1 b1 = m_tail T2 b2 /\
  m_table T1 b1 = m_table T2 b2 /\
  m_used_bases T1 b1 = m_used_bases T2 b2 /\
  m_elink T1 b1 = m_elink T2 b2.

Definition okrel {A} (R : A -> A -> Prop) (o1 o2 : outcome A) := True.

(** a call on the first builder that returns has a counterpart on the second *)
Definition sim {A} (R : A -> builder.t T1 -> A -> builder.t T2 -> Prop)
    (o1 : outcome (A * builder.t T1)) (o2 : outcome (A * builder.t T2)) : Prop :=
  forall a b1, o1 = Ok (a, b1) -> exists b2, o2 = Ok (a, b2) /\ brel b1 b2.

Lemma brel_da_length b1 b2 : brel b1 b2 -> length (m_da T1 b1) = length (m_da T2 b2).
Proof. intros (_ & H & _). by eapply Forall2_length. Qed.

Lemma da_in_use_rel b1 b2 i : brel b1 b2 -> da_in_use T1 b1 i = da_in_use T2 b2 i.
Proof.
  intros (_ & H & _). unfold da_in_use.
  destruct (m_da T1 b1 !! i) as [e1|] eqn:E1.
  - destruct (Forall2_lookup_l _ _ _ _ _ H E1) as (e2 & -> & He).
    by rewrite (er_base _ _ He).
  - apply lookup_ge_None in E1. rewrite (Forall2_length H) in E1.
    apply lookup_ge_None in E1. by rewrite E1.
Qed.

Lemma resize_rel (l1 : list (elem T1)) (l2 : list (elem T2)) n :
  Forall2 er l1 l2 ->
  Forall2 er (resize l1 n (tr_default_value T1)) (resize l2 n (tr_default_value T2)).
Proof.
  intros H. unfold resize. apply Forall2_app.
  - by apply Forall2_take.
  - rewrite (Forall2_length H). apply Forall2_replicate. exact er_default.
Qed.

Lemma da_expand_rel b1 b2 n :
  brel b1 b2 -> brel (da_expand T1 b1 n) (da_expand T2 b2 n).
Proof.
  intros Hb. pose proof (brel_da_length _ _ Hb) as Hl.
  destruct Hb as (Hn & Hda & Ht & Htb & Hu & He).
  unfold da_expand. rewrite Hl. destruct (_ <? _).
  - repeat split; simpl; try assumption. by apply resize_rel.
  - by repeat split.
Qed.

Lemma with_elink_rel b1 b2 el :
  brel b1 b2 -> brel (with_elink T1 b1 el) (with_elink T2 b2 el).
Proof. intros (?&?&?&?&?&?). by repeat split. Qed.

Lemma vlist_expand_rel b1 b2 n b1' :
  brel b1 b2 -> vlist_expand T1 b1 n = Ok b1' ->
  exists b2', vlist_expand T2 b2 n = Ok b2' /\ brel b1' b2'.
Proof.
  intros Hb H. pose proof Hb as (_&_&_&_&_&He).
  unfold vlist_expand in *. rewrite <- He.
  destruct (_ <? _); [|injection H as <-; eauto].
  destruct (at_ _ 0) as [e0| | | |]; simpl in *; try discriminate.
  destruct (vlist_expand_loop _ _ _ _) as [el| | | |]; simpl in *; try discriminate.
  destruct (set_at el 0 _) as [el'| | | |]; simpl in *; try discriminate.
  injection H as <-. eexists. split; [reflexivity|]. by apply with_elink_rel.
Qed.

Lemma vlist_use_rel b1 b2 i b1' :
  brel b1 b2 -> vlist_use T1 b1 i = Ok b1' ->
  exists b2', vlist_use T2 b2 i = Ok b2' /\ brel b1' b2'.
Proof.
  intros Hb H. pose proof Hb as (_&_&_&_&_&He).
  unfold vlist_use in *. rewrite <- He.
  destruct (at_ _ i) as [e| | | |]; simpl in *; try discriminate.
  match type of H with obind ?m _ = _ => destruct m as [el| | | |] end;
    simpl in *; try discriminate.
  destruct (set_at el _ _) as [el1| | | |]; simpl in *; try discriminate.
  destruct (set_at el1 _ _) as [el2| | | |]; simpl in *; try discriminate.
  injection H as <-. eexists. split; [reflexivity|]. by apply with_elink_rel.
Qed.

Lemma vlist_next_rel b1 b2 i : brel b1 b2 -> vlist_next T1 b1 i = vlist_next T2 b2 i.
Proof. intros (_&_&_&_&_&He). unfold vlist_next. by rewrite He. Qed.

Lemma set_at_rel (l1 : list (elem T1)) (l2 : list (elem T2)) i f1 f2 l1' :
  Forall2 er l1 l2 -> (forall e1 e2, er e1 e2 -> er (f1 e1) (f2 e2)) ->
  set_at l1 i f1 = Ok l1' ->
  exists l2', set_at l2 i f2 = Ok l2' /\ Forall2 er l1' l2'.
Proof.
  intros H Hf E. unfold set_at in *.
  destruct (l1 !! i) as [e1|] eqn:E1; [|discriminate]. injection E as <-.
  destruct (Forall2_lookup_l _ _ _ _ _ H E1) as (e2 & -> & He).
  eexists. split; [reflexivity|]. apply Forall2_insert; auto.
Qed.

Lemma set_base_rel b1 b2 i v b1' :
  brel b1 b2 -> (- tr_max_base T1 <= v <= tr_max_base T1)%Z ->
  set_base T1 b1 i v = Ok b1' ->
  exists b2', set_base T2 b2 i v = Ok b2' /\ brel b1' b2'.
Proof.
  intros (Hn & Hda & Ht & Htb & Hu & He) Hv H. unfold set_base in *.
  destruct (set_at (m_da T1 b1) _ _) as [da1| | | |] eqn:E; simpl in H; try discriminate.
  injection H as <-.
  eapply set_at_rel in E as (da2 & -> & Hda'); [|exact Hda|].
  - eexists. split; [reflexivity|]. by repeat split.
  - intros. by apply er_set_base.
Qed.

Lemma set_check_rel b1 b2 i k b1' :
  brel b1 b2 -> k < 256 ->
  set_check T1 b1 i k = Ok b1' ->
  exists b2', set_check T2 b2 i k = Ok b2' /\ brel b1' b2'.
Proof.
  intros (Hn & Hda & Ht & Htb & Hu & He) Hv H. unfold set_check in *.
  destruct (set_at (m_da T1 b1) _ _) as [da1| | | |] eqn:E; simpl in H; try discriminate.
  injection H as <-.
  eapply set_at_rel in E as (da2 & -> & Hda'); [|exact Hda|].
  - eexists. split; [reflexivity|]. by repeat split.
  - intros. by apply er_set_check.
Qed.

Lemma find_base_rel fuel b1 b2 (children : list (child_t (V:=V))) max_offset index base b1' :
  brel b1 b2 ->
  find_base T1 fuel b1 children max_offset index = Ok (base, b1') ->
  exists b2', find_base T2 fuel b2 children max_offset index = Ok (base, b2') /\ brel b1' b2'.
Proof.
  revert b1 b2 index. induction fuel as [|fuel IH]; intros b1 b2 index Hb H; simpl in *;
    [discriminate|].
  rewrite <- (vlist_next_rel _ _ index Hb).
  destruct (at_ children 0) as [ch0| | | |]; simpl in *; try discriminate.
  destruct (_ <? _); [by eapply IH|].
  pose proof Hb as (_&_&_&_&Hu&_). rewrite <- Hu.
  destruct (match m_used_bases T1 b1 !! _ with Some u => u | None => false end);
    [by eapply IH|].
  pose proof (da_expand_rel _ _ (vlist_next T1 b1 index - offset ch0 + max_offset + 1) Hb) as Hb1.
  destruct (vlist_expand T1 _ _) as [b1x| | | |] eqn:E; simpl in H; try discriminate.
  destruct (vlist_expand_rel _ _ _ _ Hb1 E) as (b2x & -> & Hbx). simpl.
  rewrite (forallb_eq _ (fun ch => negb (da_in_use T2 b2x (vlist_next T1 b1 index - offset ch0 + offset ch)))) in H
    by (intros ch; by rewrite (da_in_use_rel _ _ _ Hbx)).
  destruct (forallb _ _).
  - injection H as <- <-. eauto.
  - by eapply IH.
Qed.

Lemma reserve_rel (children : list (child_t (V:=V))) b1 b2 base b1' :
  brel b1 b2 -> reserve T1 b1 base children = Ok b1' ->
  exists b2', reserve T2 b2 base children = Ok b2' /\ brel b1' b2'.
Proof.
  revert b1 b2. induction children as [|ch children IH]; intros b1 b2 Hb H; simpl in *.
  - injection H as <-. eauto.
  - destruct (set_base T1 b1 _ 1) as [b1a| | | |] eqn:E1; simpl in H; try discriminate.
    eapply set_base_rel in E1 as (b2a & -> & Hba); [|exact Hb|lia]. simpl.
    destruct (vlist_use T1 b1a _) as [b1b| | | |] eqn:E2; simpl in H; try discriminate.
    eapply vlist_use_rel in E2 as (b2b & -> & Hbb); [|exact Hba]. simpl.
    by eapply IH.
Qed.

Definition in_range (v : Z) : Prop :=
  (- tr_max_base T1 <= v <= tr_max_base T1)%Z.

Lemma set_children_rel
    (arr1 : nat -> list (record_type V) -> builder.t T1 -> outcome (Z * builder.t T1))
    (arr2 : nat -> list (record_type V) -> builder.t T2 -> outcome (Z * builder.t T2))
    p base children b1 b2 b1' :
  (forall p rs b1 b2 v b1',
     brel b1 b2 -> arr1 p rs b1 = Ok (v, b1') ->
     exists b2', arr2 p rs b2 = Ok (v, b2') /\ brel b1' b2' /\ in_range v) ->
  brel b1 b2 ->
  set_children T1 arr1 p base children b1 = Ok b1' ->
  exists b2', set_children T2 arr2 p base children b2 = Ok b2' /\ brel b1' b2'.
Proof.
  intros Harr. revert b1 b2.
  induction children as [|ch children IH]; intros b1 b2 Hb H; simpl in *.
  - injection H as <-. eauto.
  - match type of H with obind ?m _ = _ =>
      destruct m as [[v b1a]| | | |] eqn:E end; simpl in H; try discriminate.
    assert (exists b2a,
      (if negb (c ch =? 0) then arr2 (p + 1) (range ch) b2
       else if negb (length (range ch) =? 1) then Throw DuplicateKey
       else arr2 p (range ch) b2) = Ok (v, b2a) /\ brel b1a b2a /\ in_range v)
      as (b2a & -> & Hba & Hv).
    { destruct (negb (c ch =? 0)); [by eapply Harr|].
      destruct (negb (length (range ch) =? 1)); [discriminate|]. by eapply Harr. }
    simpl.
    destruct (set_base T1 b1a _ v) as [b1b| | | |] eqn:E1; simpl in H; try discriminate.
    eapply set_base_rel in E1 as (b2b & -> & Hbb); [|exact Hba|exact Hv]. simpl.
    destruct (set_check T1 b1b _ _) as [b1c| | | |] eqn:E2; simpl in H; try discriminate.
    eapply set_check_rel in E2 as (b2c & -> & Hbc); [|exact Hbb|].
    2:{ apply Nat.mod_upper_bound. lia. }
    simpl. by eapply IH.
Qed.

Lemma arrange_rel fuel p (rs : list (record_type V)) b1 b2 v b1' :
  brel b1 b2 -> arrange T1 fuel p rs b1 = Ok (v, b1') ->
  exists b2', arrange T2 fuel p rs b2 = Ok (v, b2') /\ brel b1' b2' /\ in_range v.
Proof.
  revert p rs b1 b2 v b1'.
  induction fuel as [|fuel IH]; intros p rs b1 b2 v b1' Hb H; [discriminate|].
  pose proof Hb as (Hn & Hda & Ht & Htb & Hu & He).
  assert (Hnode : forall rs,
    (do '(children, max_offset) <- list_children (m_table T1 b1) p (-1) [] 0 rs;;
     do '(base, b) <- find_base T1 (find_base_fuel T1 b1 children) b1 children max_offset 0;;
     if (tr_max_base T1 <=? Z.of_nat (base + max_offset))%Z then Throw CapacityExceeded
     else
       let used := if length (m_used_bases T1 b) <=? base
                   then resize (m_used_bases T1 b) (base + 1) false
                   else m_used_bases T1 b in
       do used <- set_at used base (fun _ => true);;
       let b := with_used_bases T1 b used in
       do b <- reserve T1 b base children;;
       do b <- set_children T1 (arrange T1 fuel) p base children b;;
       Ok (Z.of_nat base, b)) = Ok (v, b1') ->
    exists b2',
    (do '(children, max_offset) <- list_children (m_table T2 b2) p (-1) [] 0 rs;;
     do '(base, b) <- find_base T2 (find_base_fuel T2 b2 children) b2 children max_offset 0;;
     if (tr_max_base T2 <=? Z.of_nat (base + max_offset))%Z then Throw CapacityExceeded
     else
       let used := if length (m_used_bases T2 b) <=? base
                   then resize (m_used_bases T2 b) (base + 1) false
                   else m_used_bases T2 b in
       do used <- set_at used base (fun _ => true);;
       let b := with_used_bases T2 b used in
       do b <- reserve T2 b base children;;
       do b <- set_children T2 (arrange T2 fuel) p base children b;;
       Ok (Z.of_nat base, b)) = Ok (v, b2') /\ brel b1' b2' /\ in_range v).
  { clear H. intros rs0 H. rewrite <- Htb.
    destruct (list_children _ _ _ _ _ _) as [[children max_offset]| | | |];
      simpl in *; try discriminate.
    assert (Hfuel : find_base_fuel T2 b2 children = find_base_fuel T1 b1 children).
    { unfold find_base_fuel. by rewrite (brel_da_length _ _ Hb), Hu. }
    rewrite Hfuel.
    destruct (find_base T1 _ _ _ _ _) as [[base b1a]| | | |] eqn:E; simpl in H;
      try discriminate.
    eapply find_base_rel in E as (b2a & -> & Hba); [|exact Hb]. simpl.
    destruct (Z.leb_spec (tr_max_base T1) (Z.of_nat (base + max_offset)));
      [discriminate|].
    destruct (Z.leb_spec (tr_max_base T2) (Z.of_nat (base + max_offset))); [lia|].
    pose proof Hba as (_ & _ & _ & _ & Hua & _). rewrite <- Hua.
    destruct (set_at _ base _) as [used| | | |]; simpl in *; try discriminate.
    destruct (reserve T1 _ _ _) as [b1b| | | |] eqn:E2; simpl in H; try discriminate.
    eapply (reserve_rel _ _ (with_used_bases T2 b2a used)) in E2 as (b2b & -> & Hbb).
    2:{ destruct Hba as (?&?&?&?&?&?). by repeat split. }
    simpl.
    destruct (set_children T1 _ _ _ _ _) as [b1c| | | |] eqn:E3; simpl in H;
      try discriminate.
    eapply set_children_rel in E3 as (b2c & -> & Hbc); [|exact IH|exact Hbb].
    simpl. injection H as <- <-. eexists. split; [reflexivity|]. split; [exact Hbc|].
    unfold in_range. lia. }
  simpl in H. simpl.
  destruct rs as [|rec [|rec' rs']]; [by apply Hnode| |by apply Hnode].
  rewrite <- Ht.
  destruct (Z.ltb_spec (tr_max_base T1) (Z.of_nat (otail.tellp (m_tail T1 b1))));
    [discriminate|].
  destruct (Z.ltb_spec (tr_max_base T2) (Z.of_nat (otail.tellp (m_tail T1 b1)))); [lia|].
  injection H as <- <-. eexists. split; [reflexivity|]. split.
  - by repeat split.
  - unfold in_range. lia.
Qed.

Lemma with_table_rel b1 b2 tbl :
  brel b1 b2 -> brel (with_table T1 b1 tbl) (with_table T2 b2 tbl).
Proof. intros (?&?&?&?&?&?). by repeat split. Qed.

Lemma with_tail_rel b1 b2 tl :
  brel b1 b2 -> brel (with_tail T1 b1 tl) (with_tail T2 b2 tl).
Proof. intros (?&?&?&?&?&?). by repeat split. Qed.

Lemma with_n_rel b1 b2 n :
  brel b1 b2 -> brel (with_n T1 b1 n) (with_n T2 b2 n).
Proof. intros (?&?&?&?&?&?). by repeat split. Qed.

Lemma with_da_nil_rel b1 b2 :
  brel b1 b2 -> brel (with_da T1 b1 []) (with_da T2 b2 []).
Proof. intros (?&?&?&?&?&?). repeat split; simpl; try assumption. constructor. Qed.

Lemma vlist_init_rel b1 b2 b1' :
  brel b1 b2 -> vlist_init T1 b1 = Ok b1' ->
  exists b2', vlist_init T2 b2 = Ok b2' /\ brel b1' b2'.
Proof.
  intros Hb H. pose proof Hb as (_&_&_&_&_&He).
  unfold vlist_init in *. rewrite <- He.
  destruct (set_at _ 0 _) as [el| | | |]; try discriminate.
  cbn [obind] in *.
  destruct (set_at el 0 _) as [el'| | | |]; try discriminate.
  cbn [obind] in *. injection H as <-.
  eexists. split; [reflexivity|]. by apply with_elink_rel.
Qed.

Lemma clear_rel b1 b2 b1' :
  brel b1 b2 -> clear T1 b1 = Ok b1' ->
  exists b2', clear T2 b2 = Ok b2' /\ brel b1' b2'.
Proof.
  intros Hb H. unfold clear in *. eapply vlist_init_rel; [|exact H].
  unfold otail.clear. apply with_tail_rel, da_expand_rel, with_da_nil_rel, with_table_rel, Hb.
Qed.

Lemma build_rel (rs : list (record_type V)) b1 b2 b1' :
  brel b1 b2 -> build T1 sort b1 rs = Ok b1' ->
  exists b2', build T2 sort b2 rs = Ok b2' /\ brel b1' b2'.
Proof.
  intros Hb H. unfold build in *.
  destruct (clear T1 b1) as [b1a| | | |] eqn:E0; try discriminate.
  eapply clear_rel in E0 as (b2a & -> & Hba); [|exact Hb].
  cbn [obind] in *.
  assert (Htb : m_table T1 (with_n T1 b1a (length rs))
                = m_table T2 (with_n T2 b2a (length rs))).
  { by destruct Hba as (_&_&_&?&_). }
  rewrite <- Htb.
  match type of H with context [vlist_expand T1 ?b ?n] =>
    destruct (vlist_expand T1 b n) as [b1b| | | |] eqn:E1;
    try discriminate;
    eapply vlist_expand_rel in E1 as (b2b & -> & Hbb)
  end.
  2:{ apply da_expand_rel, with_table_rel, with_n_rel, Hba. }
  cbn [obind] in *.
  destruct (set_base T1 b1b _ 1) as [b1c| | | |] eqn:E2; try discriminate.
  eapply set_base_rel in E2 as (b2c & -> & Hbc); [|exact Hbb|lia].
  cbn [obind] in *.
  destruct (vlist_use T1 b1c _) as [b1d| | | |] eqn:E3; try discriminate.
  eapply vlist_use_rel in E3 as (b2d & -> & Hbd); [|exact Hbc].
  cbn [obind] in *.
  destruct (arrange T1 _ _ _ _) as [[v b1e]| | | |] eqn:E4; try discriminate.
  eapply arrange_rel in E4 as (b2e & -> & Hbe & Hv); [|exact Hbd].
  cbn [obind] in *.
  by eapply set_base_rel.
Qed.

(** The lookups *)

Definition arel (a1 : array.t (elem T1)) (a2 : array.t (elem T2)) : Prop :=
  array.m_size a1 = array.m_size a2 /\
  match array.m_block a1, array.m_block a2 with
  | Some l1, Some l2 => Forall2 er l1 l2
  | None, None => True
  | _, _ => False
  end.

Definition trel (t1 : trie.t T1) (t2 : trie.t T2) : Prop :=
  trie.m_block T1 t1 = trie.m_block T2 t2 /\
  trie.m_table T1 t1 = trie.m_table T2 t2 /\
  arel (trie.m_da T1 t1) (trie.m_da T2 t2) /\
  trie.m_tail T1 t1 = trie.m_tail T2 t2 /\
  trie.m_n T1 t1 = trie.m_n T2 t2.

Lemma trel_set_tail t1 t2 tl :
  trel t1 t2 -> trel (trie.set_tail T1 t1 tl) (trie.set_tail T2 t2 tl).
Proof.
  intros (?&?&?&?&?). split; [|split; [|split; [|split]]]; simpl;
    first [assumption | reflexivity].
Qed.

Lemma array_at_rel a1 a2 i :
  arel a1 a2 ->
  orel er (array.at_ a1 i) (array.at_ a2 i).
Proof.
  intros [_ H]. unfold array.at_, at_.
  destruct a1 as [[l1|] s1], a2 as [[l2|] s2]; simpl in *;
    try contradiction; [|exact I].
  destruct (l1 !! i) as [e1|] eqn:E1.
  - destruct (Forall2_lookup_l _ _ _ _ _ H E1) as (e2 & -> & He). exact He.
  - apply lookup_ge_None in E1. rewrite (Forall2_length H) in E1.
    apply lookup_ge_None in E1. rewrite E1. exact I.
Qed.

Lemma get_base_rel t1 t2 i :
  trel t1 t2 -> trie.get_base T1 t1 i = trie.get_base T2 t2 i.
Proof.
  intros (_&_&Ha&_). unfold trie.get_base.
  pose proof (array_at_rel _ _ i Ha) as H.
  destruct (array.at_ (trie.m_da T1 t1) i), (array.at_ (trie.m_da T2 t2) i);
    simpl in *; try contradiction; try congruence.
  by rewrite (er_base _ _ H).
Qed.

Lemma get_check_rel t1 t2 i :
  trel t1 t2 -> trie.get_check T1 t1 i = trie.get_check T2 t2 i.
Proof.
  intros (_&_&Ha&_). unfold trie.get_check.
  pose proof (array_at_rel _ _ i Ha) as H.
  destruct (array.at_ (trie.m_da T1 t1) i), (array.at_ (trie.m_da T2 t2) i);
    simpl in *; try contradiction; try congruence.
  by rewrite (er_check _ _ H).
Qed.

Lemma descend_rel t1 t2 i ch :
  trel t1 t2 -> trie.descend T1 t1 i ch = trie.descend T2 t2 i ch.
Proof.
  intros Ht. pose proof Ht as (_&Htb&[Hsz _]&_). unfold trie.descend.
  rewrite (get_base_rel _ _ i Ht), Htb. unfold array.size. rewrite Hsz.
  destruct (trie.get_base T2 t2 i) as [base| | | |]; simpl; try reflexivity.
  destruct (base <=? 0)%Z; [reflexivity|].
  destruct (at_ _ ch) as [check| | | |]; simpl; try reflexivity.
  destruct (_ <=? _); [reflexivity|].
  by rewrite (get_check_rel _ _ _ Ht).
Qed.

Lemma locate_loop_rel t1 t2 cur p :
  trel t1 t2 -> trie.locate_loop T1 t1 cur p = trie.locate_loop T2 t2 cur p.
Proof.
  intros Ht. revert cur. induction p as [|ch p IH]; intros cur; simpl;
    rewrite (descend_rel _ _ _ _ Ht);
    destruct (trie.descend T2 t2 cur _) as [cur'| | | |]; simpl; try reflexivity;
    destruct (cur' =? INVALID_INDEX); try reflexivity;
    rewrite (get_base_rel _ _ _ Ht);
    destruct (trie.get_base T2 t2 cur') as [base| | | |]; simpl; try reflexivity.
  destruct (base <? 0)%Z; [reflexivity|]. destruct (ch =? 0); [reflexivity|]. apply IH.
Qed.

Definition lrel {A} (x : A * trie.t T1) (y : A * trie.t T2) : Prop :=
  fst x = fst y /\ trel (snd x) (snd y).

Lemma locate_rel t1 t2 key :
  trel t1 t2 -> orel lrel (trie.locate T1 t1 key) (trie.locate T2 t2 key).
Proof.
  intros Ht. pose proof Ht as (_&_&_&Htl&_). unfold trie.locate.
  rewrite (locate_loop_rel _ _ _ _ Ht), Htl.
  destruct (trie.locate_loop T2 t2 _ _) as [[[off p]|]| | | |]; simpl; try done.
  destruct (itail.match_string _ _) as [[|]| | | |]; simpl; try done.
  - destruct (itail.strlen _) as [n| | | |]; simpl; try done.
    split; [reflexivity|]. by apply trel_set_tail.
  - split; [reflexivity|]. by apply trel_set_tail.
Qed.

Lemma in_rel t1 t2 key :
  trel t1 t2 -> orel lrel (trie.in_ T1 t1 key) (trie.in_ T2 t2 key).
Proof.
  intros Ht. unfold trie.in_.
  eapply orel_bind; [by apply locate_rel|].
  intros [o1 t1'] [o2 t2'] [Ho Ht']. simpl in *. subst. by split.
Qed.

Lemma find_rel t1 t2 key v :
  trel t1 t2 -> orel lrel (trie.find T1 t1 key v) (trie.find T2 t2 key v).
Proof.
  intros Ht. unfold trie.find.
  eapply orel_bind; [by apply locate_rel|].
  intros [o1 t1'] [o2 t2'] [Ho Ht']. simpl in *. subst.
  pose proof Ht' as (_&_&_&Htl&_). rewrite Htl.
  destruct (negb (o2 =? 0)); [|by split].
  destruct (get _ v) as [[v' tl]| | | |]; simpl; try done.
  split; [reflexivity|]. by apply trel_set_tail.
Qed.

Definition exit_rel (e1 : @trie.prefix_exit T1 V) (e2 : @trie.prefix_exit T2 V) : Prop :=
  match e1, e2 with
  | trie.Return _ r1 t1 p1, trie.Return _ r2 t2 p2 => r1 = r2 /\ trel t1 t2 /\ p1 = p2
  | trie.Break _ o1 p1, trie.Break _ o2 p2 => o1 = o2 /\ p1 = p2
  | _, _ => False
  end.

Lemma next_prefix_loop_rel fuel t1 t2 (pfx : prefix_cursor.t V) :
  trel t1 t2 ->
  orel exit_rel (trie.next_prefix_loop T1 fuel t1 pfx)
                (trie.next_prefix_loop T2 fuel t2 pfx).
Proof.
  intros Ht. pose proof Ht as (_&_&_&Htl&_).
  revert pfx. induction fuel as [|fuel IH]; intros pfx; simpl; [exact I|].
  rewrite (descend_rel _ _ _ _ Ht).
  destruct (trie.descend T2 t2 _ _) as [cur| | | |]; simpl; try done.
  destruct (cur =? INVALID_INDEX); [by (split; [|split])|].
  rewrite (get_base_rel _ _ _ Ht).
  destruct (trie.get_base T2 t2 cur) as [base| | | |]; simpl; try done.
  destruct (base <? 0)%Z; [by split|].
  rewrite (descend_rel _ _ _ _ Ht).
  destruct (trie.descend T2 t2 cur 0) as [cur0| | | |]; simpl; try done.
  destruct (cur0 =? INVALID_INDEX); simpl.
  { destruct (trie.query_at _ =? 0); [by (split; [|split])|apply IH]. }
  rewrite (get_base_rel _ _ _ Ht).
  destruct (trie.get_base T2 t2 cur0) as [base0| | | |]; simpl; try done.
  destruct (base0 =? 0)%Z; simpl.
  { destruct (trie.query_at _ =? 0); [by (split; [|split])|apply IH]. }
  destruct (0 <=? base0)%Z; simpl; [reflexivity|].
  rewrite Htl.
  destruct (itail.strlen _) as [n| | | |]; simpl; try done.
  destruct (negb (n =? 0)); simpl; [reflexivity|].
  destruct (get _ _) as [[v tl]| | | |]; simpl; try done.
  split; [reflexivity|]. split; [by apply trel_set_tail|reflexivity].
Qed.

Definition nrel (x : bool * trie.t T1 * prefix_cursor.t V)
    (y : bool * trie.t T2 * prefix_cursor.t V) : Prop :=
  fst (fst x) = fst (fst y) /\ trel (snd (fst x)) (snd (fst y)) /\ snd x = snd y.

Lemma next_rel t1 t2 (pfx : prefix_cursor.t V) :
  trel t1 t2 -> orel nrel (trie.next T1 t1 pfx) (trie.next T2 t2 pfx).
Proof.
  intros Ht. pose proof Ht as (_&_&_&Htl&_).
  unfold trie.next, trie.next_prefix.
  destruct (_ <=? _); [by (split; [|split])|].
  eapply orel_bind; [by apply next_prefix_loop_rel|].
  intros [r1 t1' p1|o1 p1] [r2 t2' p2|o2 p2]; simpl; try contradiction.
  - intros (-> & Ht' & ->). by (split; [|split]).
  - intros [-> ->]. rewrite Htl.
    destruct (itail.match_string_partial _ _) as [[|]| | | |]; simpl; try done.
    + destruct (itail.strlen _) as [n| | | |]; simpl; try done.
      destruct (get _ _) as [[v tl]| | | |]; simpl; try done.
      split; [reflexivity|]. split; [by apply trel_set_tail|reflexivity].
    + split; [reflexivity|]. split; [by apply trel_set_tail|reflexivity].
Qed.

Lemma enumerate_rel n t1 t2 (pfx : prefix_cursor.t V) :
  trel t1 t2 -> enumerate T1 n t1 pfx = enumerate T2 n t2 pfx.
Proof.
  revert t1 t2 pfx. induction n as [|n IH]; intros t1 t2 pfx Ht; simpl;
    [reflexivity|].
  pose proof (next_rel _ _ pfx Ht) as H.
  destruct (trie.next T1 t1 pfx) as [[[r1 t1'] p1]| | | |],
           (trie.next T2 t2 pfx) as [[[r2 t2'] p2]| | | |];
    simpl in *; try contradiction; try congruence.
  destruct H as (Hr & Ht' & Hp). simpl in *. subst.
  destruct r2; [|reflexivity]. by rewrite (IH _ _ _ Ht').
Qed.

Lemma result_rel {A} (o1 : outcome (A * trie.t T1)) (o2 : outcome (A * trie.t T2)) :
  orel lrel o1 o2 -> result o1 = result o2.
Proof.
  destruct o1 as [[a1 t1]| | | |], o2 as [[a2 t2]| | | |]; simpl;
    try contradiction; try congruence.
  intros [H _]. simpl in H. by subst.
Qed.

Lemma assign_rel b1 b2 :
  brel b1 b2 ->
  trel (trie.assign T1 (trie.init T1 0) (m_da T1 b1) (m_tail T1 b1) (m_table T1 b1))
       (trie.assign T2 (trie.init T2 0) (m_da T2 b2) (m_tail T2 b2) (m_table T2 b2)).
Proof.
  intros Hb. pose proof (brel_da_length _ _ Hb) as Hl.
  destruct Hb as (Hn & Hda & Ht & Htb & Hu & He).
  unfold trie.assign, trel; simpl. rewrite Ht, Htb.
  split; [reflexivity|]. split; [reflexivity|]. split; [by split|]. by split.
Qed.

Theorem build_trie_rel (rs : list (record_type V)) t1 :
  build_trie T1 sort rs = Ok t1 ->
  exists t2, build_trie T2 sort rs = Ok t2 /\ trel t1 t2.
Proof.
  unfold build_trie. intros H.
  destruct (build T1 sort _ rs) as [b1| | | |] eqn:E; simpl in H; try discriminate.
  injection H as <-.
  eapply (build_rel _ _ (builder.init T2 0 [])) in E as (b2 & -> & Hb).
  2:{ repeat split; simpl; constructor. }
  simpl. eexists. split; [reflexivity|]. by apply assign_rel.
Qed.
End simulation.

Lemma get_base5_set_base e v :
  is_int32 v ->
  doublearray5_traits.get_base (doublearray5_traits.set_base e v) = v.
Proof.
  intros Hv. unfold is_int32 in Hv.
  unfold doublearray5_traits.get_base, doublearray5_traits.set_base. simpl.
  set (u := uint32 v).
  assert (Hu : (0 <= u < 2 ^ 32)%Z) by (apply Z.mod_pos_bound; lia).
  rewrite !Z2Nat.id by (apply Z.mod_pos_bound; lia).
  assert (E : (u mod 2 ^ 8 + 2 ^ 8 * (u / 2 ^ 8 mod 2 ^ 8)
               + 2 ^ 16 * (u / 2 ^ 16 mod 2 ^ 8)
               + 2 ^ 24 * (u / 2 ^ 24 mod 2 ^ 8) = u)%Z).
  { change (2 ^ 8)%Z with 256%Z. change (2 ^ 16)%Z with (256 * 256)%Z.
    change (2 ^ 24)%Z with (256 * 256 * 256)%Z.
    change (2 ^ 32)%Z with 4294967296%Z in Hu.
    rewrite <- !Z.div_div by lia.
    pose proof (Z.div_mod u 256 ltac:(lia)).
    pose proof (Z.div_mod (u / 256) 256 ltac:(lia)).
    pose proof (Z.div_mod (u / 256 / 256) 256 ltac:(lia)).
    pose proof (Z.mod_pos_bound u 256 ltac:(lia)).
    pose proof (Z.mod_pos_bound (u / 256) 256 ltac:(lia)).
    pose proof (Z.mod_pos_bound (u / 256 / 256) 256 ltac:(lia)).
    assert ((0 <= u / 256 / 256 / 256 < 256)%Z).
    { split; [repeat apply Z.div_pos; lia|].
      repeat (apply Z.div_lt_upper_bound; [lia|]). lia. }
    rewrite (Z.mod_small (u / 256 / 256 / 256) 256) by lia.
    pose proof (Z.div_mod (u / 256 / 256) 256 ltac:(lia)). lia. }
  rewrite E. unfold u, sint32, uint32.
  change (2 ^ 31)%Z with 2147483648%Z in *. change (2 ^ 32)%Z with 4294967296%Z in *.
  Z.div_mod_to_equations. lia.
Qed.

Definition er45 (e1 : elem doublearray4_traits.t) (e2 : elem doublearray5_traits.t)
    : Prop :=
  is_int32 e1 /\
  doublearray4_traits.get_base e1 = doublearray5_traits.get_base e2 /\
  doublearray4_traits.get_check e1 = doublearray5_traits.get_check e2.

Section width.
Context {V : Type} {codec : value_codec V}.
Context (sort : list builder.unigram_freq -> list builder.unigram_freq).

Lemma er45_set_base e1 e2 v :
  er45 e1 e2 -> (- 0x7FFFFF <= v <= 0x7FFFFF)%Z ->
  er45 (doublearray4_traits.set_base e1 v) (doublearray5_traits.set_base e2 v).
Proof.
  intros (Hi & Hb & Hc) Hv. split; [apply sint32_range|]. split.
  - rewrite get_base4_set_base by lia.
    rewrite get_base5_set_base by (unfold is_int32; lia). reflexivity.
  - rewrite get_check4_set_base by lia. exact Hc.
Qed.

Lemma er45_set_check e1 e2 k :
  er45 e1 e2 -> k < 256 ->
  er45 (doublearray4_traits.set_check e1 k) (doublearray5_traits.set_check e2 k).
Proof.
  intros (Hi & Hb & Hc) Hk. split; [apply sint32_range|]. split.
  - rewrite get_base4_set_check by assumption. exact Hb.
  - by rewrite get_check4_set_check.
Qed.

Lemma er45_default :
  er45 doublearray4_traits.default_value doublearray5_traits.default_value.
Proof.
  split; [unfold is_int32; vm_compute; split; [discriminate|reflexivity]|].
  split; reflexivity.
Qed.

(** C8. When the build with 4-byte elements succeeds, the build with
    5-byte elements of the same records succeeds too, and the two tries
    give the same results for in(k), for find(k) and for the enumeration of
    prefixes, on every query. *)
Theorem width_neutrality (rs : list (builder.record_type V))
    (t4 : trie.t doublearray4_traits.t) :
  build_trie doublearray4_traits.t sort rs = Ok t4 ->
  exists t5 : trie.t doublearray5_traits.t,
    build_trie doublearray5_traits.t sort rs = Ok t5 /\
    (forall key,
       result (trie.in_ doublearray4_traits.t t4 key)
       = result (trie.in_ doublearray5_traits.t t5 key)) /\
    (forall key v,
       result (trie.find doublearray4_traits.t t4 key v)
       = result (trie.find doublearray5_traits.t t5 key v)) /\
    (forall q v n,
       enumerate doublearray4_traits.t n t4 (trie.prefix q v)
       = enumerate doublearray5_traits.t n t5 (trie.prefix q v)).
Proof.
  intros H.
  assert (Hb : forall e1 e2, er45 e1 e2 ->
            tr_get_base doublearray4_traits.t e1 = tr_get_base doublearray5_traits.t e2)
    by (by intros e1 e2 (_ & ? & _)).
  assert (Hc : forall e1 e2, er45 e1 e2 ->
            tr_get_check doublearray4_traits.t e1 = tr_get_check doublearray5_traits.t e2)
    by (by intros e1 e2 (_ & _ & ?)).
  assert (Hm : (1 <= tr_max_base doublearray4_traits.t
                <= tr_max_base doublearray5_traits.t)%Z)
    by (simpl; unfold doublearray4_traits.max_base, doublearray5_traits.max_base; lia).
  edestruct (build_trie_rel doublearray4_traits.t doublearray5_traits.t sort er45)
    as (t5 & H5 & Ht);
    [exact Hb | exact er45_default | exact er45_set_base | exact er45_set_check
    | exact Hm | exact H |].
  exists t5. split; [exact H5|]. split; [|split].
  - intros key. eapply result_rel, in_rel; eassumption.
  - intros key v. eapply result_rel, find_rel; eassumption.
  - intros q v n. eapply enumerate_rel; eassumption.
Qed.
End width.

Lemma sample_build4 :
  (do _ <- build_trie doublearray4_traits.t sorts.sort_stable sample_records;;
   Ok tt) = Ok tt.
Proof. vm_compute. reflexivity. Qed.

Lemma width_neutrality_witness :
  exists (t4 : trie.t doublearray4_traits.t) (t5 : trie.t doublearray5_traits.t),
    build_trie doublearray4_traits.t sorts.sort_stable sample_records = Ok t4 /\
    build_trie doublearray5_traits.t sorts.sort_stable sample_records = Ok t5 /\
    (forall key,
       result (trie.in_ doublearray4_traits.t t4 key)
       = result (trie.in_ doublearray5_traits.t t5 key)) /\
    (forall key (v : Z),
       result (trie.find doublearray4_traits.t t4 key v)
       = result (trie.find doublearray5_traits.t t5 key v)) /\
    (forall q (v : Z) n,
       enumerate doublearray4_traits.t n t4 (trie.prefix q v)
       = enumerate doublearray5_traits.t n t5 (trie.prefix q v)).
Proof.
  destruct (obind_ok _ _ _ sample_build4) as (t4 & E & _).
  destruct (width_neutrality sorts.sort_stable sample_records t4 E)
    as (t5 & H5 & Hall).
  exists t4, t5. split; [exact E|]. split; [exact H5|]. exact Hall.
Defined.

(** * Further properties of the library *)

Import builder.

Local Open Scope nat_scope.


(** *** Vectors *)

Lemma length_resize {A} (l : list A) n x : length (resize l n x) = n.
Proof. unfold resize. rewrite length_app, length_take, length_replicate. lia. Qed.

Lemma lookup_resize_old {A} (l : list A) n x i :
  i < length l -> i < n -> resize l n x !! i = l !! i.
Proof.
  intros Hi Hn. unfold resize.
  rewrite lookup_app_l by (rewrite length_take; lia).
  by apply lookup_take_lt.
Qed.

Lemma lookup_resize_new {A} (l : list A) n x i :
  length l <= i -> i < n -> resize l n x !! i = Some x.
Proof.
  intros Hi Hn. unfold resize.
  rewrite lookup_app_r by (rewrite length_take; lia).
  rewrite length_take. apply lookup_replicate_2. lia.
Qed.

Lemma resize_grow {A} (l : list A) n x :
  length l <= n -> resize l n x = l ++ replicate (n - length l) x.
Proof. intros H. unfold resize. by rewrite firstn_all2. Qed.

Lemma set_at_Some {A} (l : list A) i f a :
  l !! i = Some a -> set_at l i f = Ok (<[i := f a]> l).
Proof. intros H. unfold set_at. by rewrite H. Qed.

Lemma set_at_lt {A} (l : list A) i f :
  i < length l -> exists a, l !! i = Some a /\ set_at l i f = Ok (<[i := f a]> l).
Proof.
  intros H. destruct (lookup_lt_is_Some_2 l i H) as [a Ha].
  exists a. split; [exact Ha|]. by apply set_at_Some.
Qed.

Lemma at_Some {A} (l : list A) i a : l !! i = Some a -> at_ l i = Ok a.
Proof. intros H. unfold at_. by rewrite H. Qed.

(** *** The vacant list: links stay within the list and point forward *)

Definition node_ok (n i : nat) (e : dlink_element_type) : Prop :=
  i < next e <= n /\ prev e < n /\ (1 <= i -> prev e < i).

Definition vl_ok (el : list dlink_element_type) : Prop :=
  1 <= length el /\
  forall i e, el !! i = Some e -> node_ok (length el) i e.

Lemma node_ok_mono n m i e : n <= m -> node_ok n i e -> node_ok m i e.
Proof. unfold node_ok. lia. Qed.

Lemma vlist_expand_loop_ok count : forall i back el,
  i + count = length el -> 1 <= i -> back < i ->
  (forall j e, j < i -> el !! j = Some e -> node_ok (length el) j e) ->
  exists el',
    vlist_expand_loop count i back el = Ok el' /\
    length el' = length el /\
    el' !! 0 = el !! 0 /\
    (forall j e, el' !! j = Some e -> node_ok (length el) j e).
Proof.
  induction count as [|count IH]; intros i back el Hlen Hi Hback Hok; simpl.
  - exists el. split; [reflexivity|]. split; [reflexivity|]. split; [reflexivity|].
    intros j e Hj. apply Hok; [|exact Hj]. apply lookup_lt_Some in Hj. lia.
  - destruct (set_at_lt el i (fun e => mk_dlink back (next e)) ltac:(lia))
      as (a & Ha & ->). cbn [obind].
    rewrite (set_at_Some _ i _ (mk_dlink back (next a)))
      by (apply list_lookup_insert_eq; lia).
    cbn [obind next prev]. rewrite list_insert_insert_eq.
    destruct (IH (S i) i (<[i := mk_dlink back (i + 1)]> el)) as (el' & -> & Hl & H0 & Hall).
    + rewrite length_insert. lia.
    + lia.
    + lia.
    + intros j e Hj He. rewrite length_insert.
      destruct (decide (j = i)) as [->|Hne].
      * rewrite list_lookup_insert_eq in He by lia. injection He as <-.
        unfold node_ok; simpl. lia.
      * rewrite list_lookup_insert_ne in He by congruence.
        apply Hok; [lia|exact He].
    + exists el'. rewrite length_insert in *. split; [reflexivity|].
      split; [exact Hl|]. split; [|exact Hall].
      rewrite H0. apply list_lookup_insert_ne. lia.
Qed.

Section vlist.
Context (T : traits) {V : Type} {codec : value_codec V}.

Lemma vlist_expand_ok (b : builder.t T) size :
    vl_ok (m_elink T b) ->
    exists el,
      vlist_expand T b size = Ok (with_elink T b el) /\
      vl_ok el /\ length el = Nat.max (length (m_elink T b)) size.
Proof.
    intros [Hlen Hok]. unfold vlist_expand.
    destruct (Nat.ltb_spec (length (m_elink T b)) size) as [Hlt|Hge].
    - set (el0 := resize (m_elink T b) size dlink_default).
      assert (Hl0 : length el0 = size) by apply length_resize.
      destruct (lookup_lt_is_Some_2 (m_elink T b) 0 ltac:(lia)) as [e0 He0].
      assert (He0' : el0 !! 0 = Some e0).
      { unfold el0. rewrite lookup_resize_old by lia. exact He0. }
      rewrite (at_Some _ _ _ He0'). cbn [obind].
      destruct (vlist_expand_loop_ok (length el0 - length (m_elink T b))
                  (length (m_elink T b)) (prev e0) el0)
        as (el1 & -> & Hl1 & H10 & Hall).
      + lia.
      + lia.
      + by destruct (Hok 0 e0 He0) as (_ & ? & _).
      + intros j e Hj He. unfold el0 in He. rewrite lookup_resize_old in He by lia.
        eapply node_ok_mono; [|by apply Hok]. lia.
      + cbn [obind].
        rewrite (set_at_Some _ 0 _ e0) by (by rewrite H10).
        cbn [obind]. eexists. split; [reflexivity|]. split.
        * split; [rewrite length_insert; lia|].
          intros i e He. rewrite length_insert, Hl1.
          destruct (decide (i = 0)) as [->|Hne].
          -- rewrite list_lookup_insert_eq in He by lia. injection He as <-.
             pose proof (Hok 0 e0 He0) as (? & ? & ?). unfold node_ok; simpl. lia.
          -- rewrite list_lookup_insert_ne in He by congruence. by apply Hall.
        * rewrite length_insert. lia.
    - exists (m_elink T b). split; [by destruct b|]. split; [by split|]. lia.
Qed.

Lemma vlist_use_ok (b : builder.t T) i :
    vl_ok (m_elink T b) -> 1 <= i < length (m_elink T b) ->
    exists el,
      vlist_use T b i = Ok (with_elink T b el) /\
      vl_ok el /\ length (m_elink T b) <= length el <= S (length (m_elink T b)).
Proof.
    intros [Hlen Hok] Hi. unfold vlist_use.
    destruct (lookup_lt_is_Some_2 (m_elink T b) i ltac:(lia)) as [e He].
    rewrite (at_Some _ _ _ He). cbn [obind].
    destruct (Hok i e He) as (Hnext & Hprev & Hprev'). specialize (Hprev' ltac:(lia)).
    set (el := m_elink T b) in *.
    (* the list after the optional extension *)
    assert (Hext : exists el1,
      (if length el <=? next e
       then do el' <- set_at (resize el (next e + 1) dlink_default) (next e)
                        (fun e' => mk_dlink (prev e') (next e + 1));;
            set_at el' 0 (fun e' => mk_dlink (next e) (builder.next e'))
       else Ok el) = Ok el1 /\
      vl_ok el1 /\ next e < length el1 /\ length el <= length el1 <= S (length el)).
    { destruct (Nat.leb_spec (length el) (next e)) as [Hle|Hgt].
      - assert (Hn : next e = length el) by lia.
        set (el0 := resize el (next e + 1) dlink_default).
        assert (Hl0 : length el0 = next e + 1) by apply length_resize.
        assert (Hnew : el0 !! next e = Some dlink_default).
        { unfold el0. apply lookup_resize_new; lia. }
        rewrite (set_at_Some _ _ _ _ Hnew). cbn [obind].
        destruct (lookup_lt_is_Some_2 el 0 ltac:(lia)) as [e0 He0].
        assert (He0' : <[next e := mk_dlink 0 (next e + 1)]> el0 !! 0 = Some e0).
        { rewrite list_lookup_insert_ne by lia. unfold el0.
          rewrite lookup_resize_old by lia. exact He0. }
        rewrite (set_at_Some _ _ _ _ He0'). eexists. split; [reflexivity|].
        rewrite !length_insert, Hl0. split; [|lia].
        split; [rewrite !length_insert; lia|].
        intros j ej Hj. rewrite !length_insert, Hl0.
        destruct (decide (j = 0)) as [->|Hj0].
        + rewrite list_lookup_insert_eq in Hj by (rewrite length_insert; lia).
          injection Hj as <-. pose proof (Hok 0 e0 He0) as (? & ? & ?).
          unfold node_ok; simpl. lia.
        + rewrite list_lookup_insert_ne in Hj by congruence.
          destruct (decide (j = next e)) as [->|Hjn].
          * rewrite list_lookup_insert_eq in Hj by lia. injection Hj as <-.
            unfold node_ok; simpl. lia.
          * rewrite list_lookup_insert_ne in Hj by congruence.
            assert (j < length el).
            { apply lookup_lt_Some in Hj. lia. }
            unfold el0 in Hj. rewrite lookup_resize_old in Hj by lia.
            eapply node_ok_mono; [|by apply Hok]. lia.
      - exists el. split; [reflexivity|]. split; [by split|]. lia. }
    destruct Hext as (el1 & -> & [Hlen1 Hok1] & Hn1 & Hl1). cbn [obind].
    destruct (lookup_lt_is_Some_2 el1 (prev e) ltac:(lia)) as [ep Hep].
    rewrite (set_at_Some _ _ _ _ Hep). cbn [obind].
    destruct (lookup_lt_is_Some_2 (<[prev e := mk_dlink (prev ep) (next e)]> el1)
                (next e) ltac:(rewrite length_insert; lia)) as [en Hen].
    rewrite (set_at_Some _ _ _ _ Hen). cbn [obind].
    eexists. split; [reflexivity|]. rewrite !length_insert. split; [|lia].
    split; [rewrite !length_insert; lia|].
    intros j ej Hj. rewrite !length_insert.
    rewrite list_lookup_insert_ne in Hen by lia.
    destruct (decide (j = next e)) as [->|Hjn].
    + rewrite list_lookup_insert_eq in Hj by (rewrite length_insert; lia).
      injection Hj as <-. pose proof (Hok1 _ _ Hen) as (? & ? & ?).
      unfold node_ok; simpl. lia.
    + rewrite list_lookup_insert_ne in Hj by congruence.
      destruct (decide (j = prev e)) as [->|Hjp].
      * rewrite list_lookup_insert_eq in Hj by lia. injection Hj as <-.
        pose proof (Hok1 _ _ Hep) as (? & ? & ?). unfold node_ok; simpl. lia.
      * rewrite list_lookup_insert_ne in Hj by congruence. by apply Hok1.
Qed.

Lemma vlist_next_gt (b : builder.t T) i :
    vl_ok (m_elink T b) -> i < vlist_next T b i.
Proof.
    intros [_ Hok]. unfold vlist_next.
    destruct (m_elink T b !! i) as [e|] eqn:E; [|lia].
    by destruct (Hok i e E) as ([? _] & _).
Qed.
End vlist.

Local Open Scope nat_scope.


Section safety.
Context (T : traits) {V : Type} {codec : value_codec V}.
Hypothesis default_base : tr_get_base T (tr_default_value T) = 0%Z.

(** two builders that differ in the double array and the vacant list only *)
Definition same_rest (b b' : builder.t T) : Prop :=
    m_n T b' = m_n T b /\ m_tail T b' = m_tail T b /\
    m_table T b' = m_table T b /\ m_used_bases T b' = m_used_bases T b.

Lemma same_rest_refl b : same_rest b b.
Proof. by repeat split. Qed.

Lemma same_rest_trans b1 b2 b3 :
    same_rest b1 b2 -> same_rest b2 b3 -> same_rest b1 b3.
Proof. unfold same_rest. intros (?&?&?&?) (?&?&?&?). repeat split; congruence. Qed.

Lemma set_base_ok (b : builder.t T) i v :
    i < length (m_da T b) ->
    exists da, set_base T b i v = Ok (with_da T b da) /\
               length da = length (m_da T b).
Proof.
    intros Hi. unfold set_base.
    destruct (set_at_lt (m_da T b) i (fun e => tr_set_base T e v) Hi) as (a & _ & ->).
    cbn [obind]. eexists. split; [reflexivity|]. by rewrite length_insert.
Qed.

Lemma set_check_ok (b : builder.t T) i v :
    i < length (m_da T b) ->
    exists da, set_check T b i v = Ok (with_da T b da) /\
               length da = length (m_da T b).
Proof.
    intros Hi. unfold set_check.
    destruct (set_at_lt (m_da T b) i (fun e => tr_set_check T e v) Hi) as (a & _ & ->).
    cbn [obind]. eexists. split; [reflexivity|]. by rewrite length_insert.
Qed.

Lemma da_expand_length (b : builder.t T) size :
    length (m_da T (da_expand T b size)) = Nat.max (length (m_da T b)) size.
Proof.
    unfold da_expand. destruct (Nat.ltb_spec (length (m_da T b)) size).
    - simpl. rewrite length_resize. lia.
    - lia.
Qed.

Lemma da_expand_in_use (b : builder.t T) size D0 :
    (forall j, D0 <= j -> da_in_use T b j = false) ->
    forall j, D0 <= j -> da_in_use T (da_expand T b size) j = false.
Proof.
    intros H j Hj. unfold da_expand.
    destruct (Nat.ltb_spec (length (m_da T b)) size) as [Hlt|]; [|by apply H].
    unfold da_in_use. simpl.
    destruct (Nat.lt_ge_cases j (length (m_da T b))) as [Hin|Hout].
    - rewrite lookup_resize_old by lia. by apply (H j).
    - destruct (Nat.lt_ge_cases j size) as [Hs|Hs].
      + rewrite lookup_resize_new by lia. rewrite default_base. reflexivity.
      + rewrite (lookup_ge_None_2 (resize _ _ _)) by (rewrite length_resize; lia).
        reflexivity.
Qed.

Lemma da_expand_rest (b : builder.t T) size :
    same_rest b (da_expand T b size) /\
    m_elink T (da_expand T b size) = m_elink T b.
Proof. unfold da_expand. destruct (_ <? _); by repeat split. Qed.

(** what a successful search for a base establishes *)
Definition found (b : builder.t T) (max_offset base : nat) (b' : builder.t T)
      : Prop :=
    vl_ok (m_elink T b') /\
    1 <= base /\
    base + max_offset < length (m_da T b') /\
    base + max_offset < length (m_elink T b') /\
    length (m_da T b) <= length (m_da T b') /\
    same_rest b b'.

Lemma found_from b b1 max_offset base b' :
    length (m_da T b) <= length (m_da T b1) -> same_rest b b1 ->
    found b1 max_offset base b' -> found b max_offset base b'.
Proof.
    intros Hl Hr (H1 & H2 & H3 & H4 & H5 & H6).
    split; [exact H1|]. split; [exact H2|]. split; [exact H3|]. split; [exact H4|].
    split; [lia|]. eapply same_rest_trans; eassumption.
Qed.

Lemma find_base_ok fuel : forall (b : builder.t T) children max_offset index ch0 rest D0,
    children = ch0 :: rest ->
    vl_ok (m_elink T b) ->
    (forall j, D0 <= j -> da_in_use T b j = false) ->
    (forall ch : child_t (V:=V), ch ∈ children -> offset ch <= max_offset) ->
    1 <= fuel ->
    offset ch0 + Nat.max (Nat.max 1 (length (m_used_bases T b))) D0 <= index + fuel ->
    exists base b',
      find_base T fuel b children max_offset index = Ok (base, b') /\
      found b max_offset base b'.
Proof.
    induction fuel as [|fuel IH];
      intros b children max_offset index ch0 rest D0 Hch Hvl Hfree Hoff Hfuel Hbound;
      [lia|].
    subst children. cbn [find_base at_ lookup list_lookup obind].
    pose proof (vlist_next_gt T b index Hvl) as Hgt.
    set (index' := vlist_next T b index) in *.
    set (B := offset ch0 + Nat.max (Nat.max 1 (length (m_used_bases T b))) D0) in *.
    assert (Hcont : forall b1,
      vl_ok (m_elink T b1) ->
      (forall j, D0 <= j -> da_in_use T b1 j = false) ->
      length (m_da T b) <= length (m_da T b1) -> same_rest b b1 ->
      index' < B ->
      exists base b',
        find_base T fuel b1 (ch0 :: rest) max_offset index' = Ok (base, b') /\
        found b max_offset base b').
    { intros b1 Hvl1 Hfree1 Hlen1 Hrest1 Hsmall.
      destruct (IH b1 (ch0 :: rest) max_offset index' ch0 rest D0)
        as (base & b' & E & Hf); try assumption; try reflexivity.
      - lia.
      - destruct Hrest1 as (_ & _ & _ & Hu). rewrite Hu. fold B. lia.
      - exists base, b'. split; [exact E|]. eapply found_from; eassumption. }
    destruct (Nat.ltb_spec index' (INITIAL_INDEX + offset ch0)) as [Hsmall|Hbig].
    { apply Hcont; try assumption; [lia|apply same_rest_refl|].
      unfold INITIAL_INDEX in Hsmall. lia. }
    unfold INITIAL_INDEX in Hbig.
    set (base := index' - offset ch0) in *.
    assert (Hexp : forall u, m_used_bases T b !! base = u ->
      (match u with Some u => u | None => false end) = false ->
      exists base' b',
        (do b0 <- vlist_expand T (da_expand T b (base + max_offset + 1))
                    (base + max_offset + 1);;
         if forallb (fun ch => negb (da_in_use T b0 (base + offset ch))) (drop 1 (ch0 :: rest))
         then Ok (base, b0)
         else find_base T fuel b0 (ch0 :: rest) max_offset index') = Ok (base', b') /\
        found b max_offset base' b').
    { intros u Eu Hu.
      destruct (da_expand_rest b (base + max_offset + 1)) as [Hr1 He1].
      destruct (vlist_expand_ok T (da_expand T b (base + max_offset + 1))
                  (base + max_offset + 1)) as (el & -> & Hvl2 & Hl2).
      { by rewrite He1. }
      cbn [obind].
      set (b2 := with_elink T (da_expand T b (base + max_offset + 1)) el).
      assert (Hda2 : m_da T b2 = m_da T (da_expand T b (base + max_offset + 1)))
        by reflexivity.
      assert (Hfree2 : forall j, D0 <= j -> da_in_use T b2 j = false).
      { intros j Hj. pose proof (da_expand_in_use b (base + max_offset + 1) D0 Hfree j Hj) as H.
        unfold da_in_use in *. by rewrite Hda2. }
      assert (Hlen2 : length (m_da T b2) = Nat.max (length (m_da T b)) (base + max_offset + 1)).
      { rewrite Hda2. apply da_expand_length. }
      assert (Hrest2 : same_rest b b2).
      { destruct Hr1 as (?&?&?&?). by repeat split. }
      destruct (forallb _ _) eqn:Efa.
      - exists base, b2. split; [reflexivity|].
        split; [exact Hvl2|]. split; [lia|]. split; [lia|].
        split; [simpl; lia|]. split; [lia|exact Hrest2].
      - destruct (Nat.lt_ge_cases index' B) as [Hlt|Hge].
        + apply Hcont; try assumption. lia.
        + exfalso. apply (eq_true_false_abs (forallb (fun ch => negb (da_in_use T b2 (base + offset ch))) (drop 1 (ch0 :: rest)))); [|exact Efa].
          apply forallb_forall. intros ch _. rewrite Hfree2; [reflexivity|].
          unfold B, base in *. lia. }
    destruct (m_used_bases T b !! base) as [u|] eqn:Eu.
    - destruct u.
      + apply lookup_lt_Some in Eu. apply Hcont; try assumption; [lia|apply same_rest_refl|].
        unfold B, base in *. lia.
      + by apply (Hexp (Some false)).
    - by apply (Hexp None).
Qed.
End safety.

Local Open Scope nat_scope.


Section children.
Context {V : Type}.

(** the byte of a record at position [p] (the terminator at the end) *)
Definition key_byte (p : nat) (r : record_type V) : nat := nth p (key r) 0.

(** the records can be read at position [p], and their bytes index the table *)
Definition keys_ok (p : nat) (rs : list (record_type V)) : Prop :=
    forall r, r ∈ rs -> p <= length (key r) /\ Forall (fun x => x < 256) (key r).

Definition uniform (p : nat) (ch : child_t (V:=V)) : Prop :=
    range ch <> [] /\ forall r, r ∈ range ch -> key_byte p r = c ch.

Definition flat (children : list (child_t (V:=V))) : list (record_type V) :=
    concat (map range children).

Definition adjacent_lt (children : list (child_t (V:=V))) : Prop :=
    forall i ch ch', children !! i = Some ch -> children !! S i = Some ch' ->
                     c ch < c ch'.

Definition pc_of (children : list (child_t (V:=V))) : Z :=
    match list.last children with
    | Some ch => Z.of_nat (c ch)
    | None => (-1)%Z
    end.

(** the bytes at position [p] never go down, starting from [pc] *)
Fixpoint nondecr (pc : Z) (l : list nat) : bool :=
    match l with
    | [] => true
    | x :: l' => (pc <=? Z.of_nat x)%Z && nondecr (Z.of_nat x) l'
    end.

Definition child_ok (p mo : nat) (ch : child_t (V:=V)) : Prop :=
    uniform p ch /\ 1 <= offset ch <= mo.

Lemma key_at_ok p (r : record_type V) :
    p <= length (key r) -> key_at (key r) p = Ok (key_byte p r).
Proof.
    intros H. unfold key_at, key_byte.
    by destruct (Nat.leb_spec p (length (key r))); [|lia].
Qed.

Lemma key_byte_lt p (r : record_type V) :
    Forall (fun x => x < 256) (key r) -> key_byte p r < 256.
Proof.
    intros H. unfold key_byte.
    destruct (Nat.lt_ge_cases p (length (key r))) as [Hlt|Hge].
    - rewrite Forall_forall in H. apply H. by apply nth_In.
    - rewrite nth_overflow by lia. lia.
Qed.

Lemma flat_app (l1 l2 : list (child_t (V:=V))) : flat (l1 ++ l2) = flat l1 ++ flat l2.
Proof. unfold flat. by rewrite map_app, concat_app. Qed.

Lemma flat_snoc (l : list (child_t (V:=V))) ch :
    flat (l ++ [ch]) = flat l ++ range ch.
Proof. rewrite flat_app. unfold flat at 2. simpl. by rewrite app_nil_r. Qed.

Lemma pc_of_snoc (l : list (child_t (V:=V))) ch : pc_of (l ++ [ch]) = Z.of_nat (c ch).
Proof. unfold pc_of. by rewrite last_snoc. Qed.

Lemma adjacent_lt_snoc (l : list (child_t (V:=V))) ch :
    adjacent_lt l -> (pc_of l < Z.of_nat (c ch))%Z -> adjacent_lt (l ++ [ch]).
Proof.
    intros Hl Hpc i x y Hx Hy.
    destruct (Nat.lt_ge_cases (S i) (length l)) as [Hlt|Hge].
    - rewrite lookup_app_l in Hx by lia. rewrite lookup_app_l in Hy by lia.
      by eapply Hl.
    - assert (Hi : S i = length l).
      { apply lookup_lt_Some in Hy. rewrite length_app in Hy. simpl in Hy. lia. }
      rewrite lookup_app_l in Hx by lia.
      rewrite Hi, lookup_app_r in Hy by lia.
      rewrite Nat.sub_diag in Hy. simpl in Hy. injection Hy as <-.
      unfold pc_of in Hpc. rewrite last_lookup in Hpc.
      replace (pred (length l)) with i in Hpc by lia. rewrite Hx in Hpc. lia.
Qed.

(** extending the range of the last child *)
Lemma add_to_last_snoc (l : list (child_t (V:=V))) ch r :
    add_to_last (l ++ [ch]) r = l ++ [mk_child (c ch) (offset ch) (range ch ++ [r])].
Proof.
    unfold add_to_last. destruct (l ++ [ch]) eqn:E; [by destruct l|].
    rewrite <- E. rewrite length_app. simpl.
    replace (length l + 1 - 1) with (length l + 0) by lia.
    rewrite alter_app_r. reflexivity.
Qed.

Lemma snoc_cases {A} (l : list A) : l = [] \/ exists l' x, l = l' ++ [x].
Proof.
    induction l as [|a l IH] using rev_ind; [by left|]. right. by exists l, a.
Qed.

Section list_children.
Context (table : list nat) (p : nat).
Hypothesis table_length : length table = NUMCHARS.

(** whether the listing succeeds depends on the bytes only *)
Lemma list_children_kind rs : forall pc children mo,
      keys_ok p rs ->
      match list_children table p pc children mo rs with
      | Ok _ => nondecr pc (map (key_byte p) rs) = true
      | Throw e => e = UnsortedInput /\ nondecr pc (map (key_byte p) rs) = false
      | _ => False
      end.
Proof.
      induction rs as [|r rs IH]; intros pc children mo Hk; simpl; [reflexivity|].
      destruct (Hk r ltac:(left)) as [Hp Hb].
      rewrite (key_at_ok p r Hp). cbn [obind].
      assert (Hk' : keys_ok p rs) by (intros x Hx; apply Hk; by right).
      destruct (Z.ltb_spec pc (Z.of_nat (key_byte p r))) as [Hlt|Hge].
      - destruct (lookup_lt_is_Some_2 table (key_byte p r)) as [tc Htc].
        { rewrite table_length. by apply key_byte_lt. }
        rewrite (at_Some _ _ _ Htc). cbn [obind].
        specialize (IH (Z.of_nat (key_byte p r))
          (children ++ [mk_child (key_byte p r) (tc + 1) [r]])
          (if mo <? tc + 1 then tc + 1 else mo) Hk').
        destruct (list_children _ _ _ _ _ rs) as [[]|e| | |]; try contradiction.
        + destruct (Z.leb_spec pc (Z.of_nat (key_byte p r))); [exact IH|lia].
        + destruct IH as [-> IH]. split; [reflexivity|]. rewrite IH. apply andb_false_r.
      - destruct (Z.ltb_spec (Z.of_nat (key_byte p r)) pc) as [Hlt|Hge'].
        + split; [reflexivity|].
          destruct (Z.leb_spec pc (Z.of_nat (key_byte p r))); [lia|reflexivity].
        + specialize (IH (Z.of_nat (key_byte p r)) (add_to_last children r) mo Hk').
          destruct (list_children _ _ _ _ _ rs) as [[]|e| | |]; try contradiction.
          * destruct (Z.leb_spec pc (Z.of_nat (key_byte p r))); [exact IH|lia].
          * destruct IH as [-> IH]. split; [reflexivity|]. rewrite IH. apply andb_false_r.
Qed.

(** what a successful listing returns *)
Lemma list_children_ok rs : forall pc children mo children' mo',
      keys_ok p rs ->
      pc = pc_of children ->
      (forall ch, ch ∈ children -> child_ok p mo ch) ->
      adjacent_lt children ->
      list_children table p pc children mo rs = Ok (children', mo') ->
      flat children' = flat children ++ rs /\
      (forall ch, ch ∈ children' -> child_ok p mo' ch) /\
      adjacent_lt children' /\
      length children <= length children'.
Proof.
      induction rs as [|r rs IH]; intros pc children mo children' mo' Hk Hpc Hch Hadj H;
        simpl in H.
      - injection H as <- <-. rewrite app_nil_r.
        split; [reflexivity|]. split; [exact Hch|]. split; [exact Hadj|]. lia.
      - destruct (Hk r ltac:(left)) as [Hp Hb].
        rewrite (key_at_ok p r Hp) in H. cbn [obind] in H.
        assert (Hk' : keys_ok p rs) by (intros x Hx; apply Hk; by right).
        destruct (Z.ltb_spec pc (Z.of_nat (key_byte p r))) as [Hlt|Hge].
        + destruct (at_ table (key_byte p r)) as [tc| | | |]; try discriminate.
          cbn [obind] in H.
          apply IH in H; try assumption.
          * destruct H as (Hf & Hc & Ha & Hl).
            split; [|split; [exact Hc|split; [exact Ha|]]].
            -- rewrite Hf, flat_snoc. simpl. rewrite <- app_assoc. reflexivity.
            -- rewrite length_app in Hl. simpl in Hl. lia.
          * by rewrite pc_of_snoc.
          * intros ch Hin. apply elem_of_app in Hin as [Hin|Hin].
            -- destruct (Hch ch Hin) as [Hu Ho]. split; [exact Hu|].
               destruct (mo <? tc + 1) eqn:E; [apply Nat.ltb_lt in E|]; lia.
            -- apply list_elem_of_singleton in Hin as ->. split.
               ++ split; [discriminate|]. simpl. intros x Hx.
                  by apply list_elem_of_singleton in Hx as ->.
               ++ simpl. destruct (Nat.ltb_spec mo (tc + 1)); lia.
          * apply adjacent_lt_snoc; [exact Hadj|]. simpl. lia.
        + destruct (Z.ltb_spec (Z.of_nat (key_byte p r)) pc) as [Hlt|Hge'];
            [discriminate|].
          assert (Heq : pc = Z.of_nat (key_byte p r)) by lia.
          destruct (snoc_cases children) as [->|(l & ch & ->)].
          { unfold pc_of in Hpc. simpl in Hpc. lia. }
          rewrite pc_of_snoc in Hpc.
          assert (Hc : c ch = key_byte p r) by lia.
          rewrite add_to_last_snoc in H.
          apply IH in H; try assumption.
          * destruct H as (Hf & Hc' & Ha & Hl).
            split; [|split; [exact Hc'|split; [exact Ha|]]].
            -- rewrite Hf, !flat_snoc. simpl. rewrite <- !app_assoc. reflexivity.
            -- rewrite !length_app in *. simpl in *. lia.
          * rewrite pc_of_snoc. simpl. lia.
          * intros x Hin. apply elem_of_app in Hin as [Hin|Hin].
            -- apply Hch. apply elem_of_app. by left.
            -- apply list_elem_of_singleton in Hin as ->.
               destruct (Hch ch) as [[Hne Hu] Ho]; [apply elem_of_app; right; by left|].
               split; [|exact Ho]. split; simpl.
               ++ by destruct (range ch).
               ++ intros x Hx. apply elem_of_app in Hx as [Hx|Hx]; [by apply Hu|].
                  apply list_elem_of_singleton in Hx as ->. by symmetry.
          * intros i x y Hx Hy.
            assert (Hi : S i < length (l ++ [ch])).
            { apply lookup_lt_Some in Hy. by rewrite !length_app in *. }
            rewrite length_app in Hi. simpl in Hi.
            destruct (decide (S i = length l)) as [Hl|Hl].
            -- rewrite lookup_app_l in Hx by lia.
               rewrite Hl, lookup_app_r in Hy by lia.
               rewrite Nat.sub_diag in Hy. simpl in Hy. injection Hy as <-. simpl.
               apply (Hadj i x ch).
               ++ rewrite lookup_app_l by lia. exact Hx.
               ++ rewrite Hl, lookup_app_r by lia. by rewrite Nat.sub_diag.
            -- rewrite lookup_app_l in Hx by lia. rewrite lookup_app_l in Hy by lia.
               apply (Hadj i x y); rewrite lookup_app_l by lia; assumption.
Qed.
End list_children.

(** two consecutive records with the same byte lie in the same child *)
Lemma pair_in_child p children : forall l1 r r' l2,
    (forall ch, ch ∈ children -> uniform p ch) ->
    adjacent_lt children ->
    flat children = l1 ++ r :: r' :: l2 ->
    key_byte p r = key_byte p r' ->
    exists ch l1' l2', ch ∈ children /\ range ch = l1' ++ r :: r' :: l2'.
Proof.
    induction children as [|ch children IH]; intros l1 r r' l2 Hu Hadj Hf Hb.
    - unfold flat in Hf. simpl in Hf. by destruct l1.
    - unfold flat in Hf. simpl in Hf. fold (flat children) in Hf.
      apply app_eq_app in Hf as [l [[H1 H2]|[H1 H2]]].
      + (* the range of ch reaches into l1 ++ r :: r' :: l2 *)
        destruct l as [|x0 l].
        * rewrite app_nil_r in H1. simpl in H2.
          destruct (IH [] r r' l2) as (ch' & a & b' & Hin & Hr).
          -- intros y Hy. apply Hu. by right.
          -- intros i x y Hx Hy. by apply (Hadj (S i) x y).
          -- by rewrite H2.
          -- exact Hb.
          -- exists ch', a, b'. split; [by right|exact Hr].
        * simpl in H2. injection H2 as <- H2.
          destruct l as [|x1 l].
          -- (* r ends the range of ch, r' starts the next child *)
             simpl in H2. exfalso.
             destruct children as [|ch' children]; [by unfold flat in H2|].
             unfold flat in H2. simpl in H2.
             destruct (Hu ch' ltac:(right; left)) as [Hne Hu'].
             destruct (range ch') as [|y ys] eqn:E; [contradiction|].
             simpl in H2. injection H2 as <- H2.
             pose proof (Hadj 0 ch ch' eq_refl eq_refl) as Hlt.
             destruct (Hu ch ltac:(left)) as [_ Hu0].
             rewrite <- (Hu0 r) in Hlt by (rewrite H1; apply elem_of_app; right; by left).
             rewrite <- (Hu' r') in Hlt by (by left). lia.
          -- simpl in H2. injection H2 as <- H2.
             exists ch, l1, l. split; [by left|]. exact H1.
      + (* l1 covers the range of ch *)
        destruct (IH l r r' l2) as (ch' & a & b' & Hin & Hr).
        * intros y Hy. apply Hu. by right.
        * intros i x y Hx Hy. by apply (Hadj (S i) x y).
        * exact H2.
        * exact Hb.
        * exists ch', a, b'. split; [by right|exact Hr].
Qed.
End children.

Local Open Scope nat_scope.


(** The first error the depth-first inspection of the groups meets. *)
Section verdict.
Context {V : Type}.

Fixpoint verdict_children (vrec : nat -> list (record_type V) -> option error)
      (p : nat) (children : list (child_t (V:=V))) : option error :=
    match children with
    | [] => None
    | ch :: children =>
        match (if negb (c ch =? 0) then vrec (p + 1) (range ch)
               else if negb (length (range ch) =? 1) then Some DuplicateKey
               else None) with
        | Some e => Some e
        | None => verdict_children vrec p children
        end
    end.

Fixpoint verdict (table : list nat) (fuel p : nat) (rs : list (record_type V))
      : option error :=
    match fuel with
    | O => None
    | S fuel =>
        match rs with
        | [_] => None
        | _ =>
            match list_children table p (-1) [] 0 rs with
            | Ok (children, _) => verdict_children (verdict table fuel) p children
            | Throw e => Some e
            | _ => None
            end
        end
    end.
End verdict.

Section arrange.
Context (T : traits) {V : Type} {codec : value_codec V}.
Hypothesis default_base : tr_get_base T (tr_default_value T) = 0%Z.

Definition inv (b : builder.t T) : Prop :=
    vl_ok (m_elink T b) /\ length (m_table T b) = NUMCHARS.

(** a call either runs out of capacity, or throws the error of the verdict,
      or returns when the verdict finds nothing *)
Definition agrees {R} (st : R -> builder.t T) (o : outcome R)
      (v : option error) (b : builder.t T) : Prop :=
    o = Throw CapacityExceeded \/
    (exists e, v = Some e /\ o = Throw e) \/
    (v = None /\ exists r, o = Ok r /\ inv (st r) /\
       m_table T (st r) = m_table T b /\
       length (m_da T b) <= length (m_da T (st r))).

Lemma reserve_ok (children : list (child_t (V:=V))) : forall (b : builder.t T) base,
    vl_ok (m_elink T b) ->
    (forall ch, ch ∈ children ->
       1 <= base + offset ch /\ base + offset ch < length (m_da T b) /\
       base + offset ch < length (m_elink T b)) ->
    exists b', reserve T b base children = Ok b' /\
      vl_ok (m_elink T b') /\ length (m_da T b') = length (m_da T b) /\
      same_rest T b b'.
Proof.
    induction children as [|ch children IH]; intros b base Hvl Hch; simpl.
    - exists b. split; [reflexivity|]. split; [exact Hvl|]. split; [reflexivity|].
      apply same_rest_refl.
    - destruct (Hch ch ltac:(left)) as (H1 & H2 & H3).
      destruct (set_base_ok T b (base + offset ch) 1 H2) as (da & -> & Hda).
      cbn [obind].
      destruct (vlist_use_ok T (with_da T b da) (base + offset ch)) as (el & -> & Hvl' & Hel).
      { exact Hvl. }
      { simpl. lia. }
      cbn [obind].
      destruct (IH (with_elink T (with_da T b da) el) base) as (b' & -> & Hvl'' & Hda' & Hrest).
      { exact Hvl'. }
      { intros x Hx. destruct (Hch x ltac:(by right)) as (? & ? & ?). simpl in *. lia. }
      exists b'. split; [reflexivity|]. split; [exact Hvl''|].
      split; [simpl in Hda'; lia|].
      destruct Hrest as (?&?&?&?). by repeat split.
Qed.

Definition fuel_ok (fuel p : nat) (rs : list (record_type V)) : Prop :=
    1 <= fuel /\
    (length rs <> 1 -> forall r, r ∈ rs -> length (key r) + 2 <= p + fuel).

Definition arrange_agrees_at (fuel : nat) : Prop :=
    forall p rs (b : builder.t T),
      inv b -> rs <> [] -> keys_ok p rs -> fuel_ok fuel p rs ->
      agrees snd (arrange T fuel p rs b) (verdict (m_table T b) fuel p rs) b.

Lemma set_children_agrees fuel p base mo (children : list (child_t (V:=V))) :
    arrange_agrees_at fuel ->
    forall b : builder.t T,
      inv b ->
      (forall ch, ch ∈ children ->
         child_ok p mo ch /\ keys_ok p (range ch) /\
         base + offset ch < length (m_da T b) /\
         (forall r, r ∈ range ch -> length (key r) + 2 <= p + S fuel)) ->
      agrees id (set_children T (arrange T fuel) p base children b)
             (verdict_children (verdict (m_table T b) fuel) p children) b.
Proof.
    intros IH. induction children as [|ch children IHc]; intros b Hinv Hch.
    - right. right. split; [reflexivity|]. exists b. split; [reflexivity|].
      split; [exact Hinv|]. split; [reflexivity|]. simpl. lia.
    - destruct (Hch ch ltac:(left)) as ([[Hne Hu] Ho] & Hk & Hlt & Hfuel).
      cbn [set_children verdict_children].
      (* the value for this child *)
      assert (Hthis : agrees snd
                (if negb (c ch =? 0) then arrange T fuel (p + 1) (range ch) b
                 else if negb (length (range ch) =? 1) then Throw DuplicateKey
                 else arrange T fuel p (range ch) b)
                (if negb (c ch =? 0) then verdict (m_table T b) fuel (p + 1) (range ch)
                 else if negb (length (range ch) =? 1) then Some DuplicateKey
                 else None) b).
      { destruct (range ch) as [|r0 rest0] eqn:Er; [contradiction|].
        assert (Hr0 : r0 ∈ r0 :: rest0) by left.
        destruct (Hk r0 Hr0) as [Hp0 _]. specialize (Hfuel r0 Hr0) as Hf0.
        destruct (Nat.eqb_spec (c ch) 0) as [Hc0|Hc0]; cbn [negb].
        - destruct (Nat.eqb_spec (length (r0 :: rest0)) 1) as [Hl|Hl]; cbn [negb].
          + destruct rest0; [|simpl in Hl; lia].
            pose proof (IH p [r0] b Hinv ltac:(discriminate) Hk) as H.
            assert (Hfo : fuel_ok fuel p [r0]) by (split; [lia|simpl; congruence]).
            specialize (H Hfo).
            destruct fuel as [|fuel']; [lia|]. exact H.
          + right. left. by exists DuplicateKey.
        - apply IH; [exact Hinv | discriminate | |].
          + intros r Hr. destruct (Hk r Hr) as [Hp Hb]. split; [|exact Hb].
            assert (key_byte p r <> 0) by (rewrite (Hu r Hr); exact Hc0).
            unfold key_byte in *.
            destruct (Nat.lt_ge_cases p (length (key r))); [lia|].
            rewrite nth_overflow in * by lia. congruence.
          + assert (key_byte p r0 <> 0) by (rewrite (Hu r0 Hr0); exact Hc0).
            unfold key_byte in *.
            assert (p < length (key r0)).
            { destruct (Nat.lt_ge_cases p (length (key r0))); [lia|].
              rewrite nth_overflow in * by lia. congruence. }
            split; [lia|]. intros _ r Hr. specialize (Hfuel r Hr). lia. }
      destruct Hthis as [->|[(e & -> & ->)|(-> & [v b1] & -> & Hinv1 & Htb1 & Hlen1)]].
      + by left.
      + right. left. by exists e.
      + cbn [obind snd] in *.
        assert (Hlt1 : base + offset ch < length (m_da T b1)) by lia.
        destruct (set_base_ok T b1 (base + offset ch) v Hlt1) as (da & -> & Hda).
        cbn [obind].
        assert (Hlt2 : base + offset ch < length (m_da T (with_da T b1 da)))
          by (simpl; lia).
        destruct (set_check_ok T (with_da T b1 da) (base + offset ch)
                    ((offset ch - 1) mod 256) Hlt2) as (da' & -> & Hda').
        cbn [obind]. simpl in Hda'.
        set (b2 := with_da T (with_da T b1 da) da').
        assert (Hinv2 : inv b2) by exact Hinv1.
        assert (Htb2 : m_table T b2 = m_table T b) by exact Htb1.
        assert (Hlen2 : length (m_da T b) <= length (m_da T b2)) by (simpl; lia).
        specialize (IHc b2 Hinv2).
        rewrite Htb2 in IHc.
        destruct IHc as [->|[(e & -> & ->)|(-> & b3 & -> & Hinv3 & Htb3 & Hlen3)]].
        * intros x Hx. destruct (Hch x ltac:(by right)) as (? & ? & ? & ?).
          split; [assumption|]. split; [assumption|]. split; [lia|assumption].
        * by left.
        * right. left. by exists e.
        * right. right. split; [reflexivity|]. exists b3. split; [reflexivity|].
          split; [exact Hinv3|]. split; [congruence|]. simpl in *. lia.
Qed.

Lemma arrange_agrees fuel : arrange_agrees_at fuel.
Proof.
    induction fuel as [|fuel IH]; intros p rs b Hinv Hne Hk [Hf1 Hf2]; [lia|].
    assert (Hleaf : forall rec,
      agrees snd
        (let offset := otail.tellp (m_tail T b) in
         if (tr_max_base T <? Z.of_nat offset)%Z then Throw CapacityExceeded
         else Ok ((- Z.of_nat offset)%Z,
                  with_tail T b (put (otail.write_string (m_tail T b) (key rec) p)
                                     (value rec))))
        None b).
    { intros rec. cbv zeta. destruct (_ <? _)%Z; [by left|].
      right. right. split; [reflexivity|]. eexists. split; [reflexivity|].
      split; [exact Hinv|]. split; [reflexivity|]. simpl. lia. }
    assert (Hnode : length rs <> 1 ->
      agrees snd
        (do '(children, max_offset) <- list_children (m_table T b) p (-1) [] 0 rs;;
         do '(base, b) <- find_base T (find_base_fuel T b children) b children max_offset 0;;
         if (tr_max_base T <=? Z.of_nat (base + max_offset))%Z then Throw CapacityExceeded
         else
           let used := if length (m_used_bases T b) <=? base
                       then resize (m_used_bases T b) (base + 1) false
                       else m_used_bases T b in
           do used <- set_at used base (fun _ => true);;
           let b := with_used_bases T b used in
           do b <- reserve T b base children;;
           do b <- set_children T (arrange T fuel) p base children b;;
           Ok (Z.of_nat base, b))
        (match list_children (m_table T b) p (-1) [] 0 rs with
         | Ok (children, _) => verdict_children (verdict (m_table T b) fuel) p children
         | Throw e => Some e
         | _ => None
         end) b).
    { intros Hlen. specialize (Hf2 Hlen). destruct Hinv as [Hvl Htl].
      pose proof (list_children_kind (m_table T b) p Htl rs (-1)%Z [] 0 Hk) as Hkind.
      destruct (list_children (m_table T b) p (-1) [] 0 rs)
        as [[children mo]|e| | |] eqn:Elc; try contradiction.
      2:{ right. left. by exists e. }
      destruct (list_children_ok (m_table T b) p Htl rs (-1)%Z [] 0 children mo Hk)
        as (Hflat & Hchok & Hadj & _);
        [reflexivity | intros ch Hch; by apply elem_of_nil in Hch
        | by intros i x y Hx | exact Elc |].
      unfold flat in Hflat at 2. simpl in Hflat.
      destruct children as [|ch0 rest]; [unfold flat in Hflat; simpl in Hflat; congruence|].
      cbn [obind].
      destruct (find_base_ok T default_base (find_base_fuel T b (ch0 :: rest)) b
                  (ch0 :: rest) mo 0 ch0 rest (length (m_da T b)))
        as (base & b1 & -> & Hvl1 & Hb1 & Hda1 & Hel1 & Hlen1 & Hrest1).
      { reflexivity. }
      { exact Hvl. }
      { intros j Hj. unfold da_in_use. by rewrite lookup_ge_None_2. }
      { intros ch Hch. by destruct (Hchok ch Hch) as [_ [_ ?]]. }
      { unfold find_base_fuel. lia. }
      { unfold find_base_fuel. lia. }
      cbn [obind].
      destruct (Z.leb_spec (tr_max_base T) (Z.of_nat (base + mo))); [by left|].
      cbv zeta.
      set (used := if length (m_used_bases T b1) <=? base
                   then resize (m_used_bases T b1) (base + 1) false
                   else m_used_bases T b1).
      assert (Hused : base < length used).
      { unfold used. destruct (Nat.leb_spec (length (m_used_bases T b1)) base).
        - rewrite length_resize. lia.
        - lia. }
      destruct (set_at_lt used base (fun _ => true) Hused) as (u & _ & ->).
      cbn [obind].
      set (b2 := with_used_bases T b1 (<[base := true]> used)).
      destruct Hrest1 as (Hn1 & Htail1 & Htb1 & Hu1).
      destruct (reserve_ok (ch0 :: rest) b2 base) as (b3 & -> & Hvl3 & Hda3 & Hrest3).
      { exact Hvl1. }
      { intros ch Hch. destruct (Hchok ch Hch) as [_ [? ?]]. simpl. lia. }
      cbn [obind].
      destruct Hrest3 as (Hn3 & Htail3 & Htb3 & Hu3).
      assert (Htb3' : m_table T b3 = m_table T b) by (rewrite Htb3; exact Htb1).
      pose proof (set_children_agrees fuel p base mo (ch0 :: rest) IH b3) as Hsc.
      rewrite Htb3' in Hsc.
      destruct Hsc as [->|[(e & -> & ->)|(-> & b4 & -> & Hinv4 & Htb4 & Hlen4)]].
      - split; [exact Hvl3|]. by rewrite Htb3'.
      - intros ch Hch. split; [by apply Hchok|].
        assert (Hsub : forall r, r ∈ range ch -> r ∈ rs).
        { intros r Hr. rewrite <- Hflat. unfold flat.
          apply list_elem_of_In, in_concat. exists (range ch).
          split; [apply in_map; by apply list_elem_of_In|by apply list_elem_of_In]. }
        split; [intros r Hr; apply Hk; by apply Hsub|].
        split.
        + destruct (Hchok ch Hch) as [_ [? ?]]. rewrite Hda3. simpl. lia.
        + intros r Hr. apply Hf2. by apply Hsub.
      - by left.
      - right. left. by exists e.
      - right. right. split; [reflexivity|]. cbn [obind]. eexists.
        split; [reflexivity|]. cbn [snd id] in *.
        split; [exact Hinv4|]. split; [congruence|].
        rewrite Hda3 in Hlen4. simpl in Hlen4. lia. }
    cbn [arrange verdict].
    destruct rs as [|rec [|rec' rs']]; [contradiction| |].
    - apply Hleaf.
    - apply Hnode. simpl. lia.
Qed.
End arrange.

Local Open Scope nat_scope.


(** *** The order of keys *)

Lemma lex_lt_irrefl x : lex_lt x x = false.
Proof.
  induction x as [|a x IH]; [reflexivity|]. simpl.
  rewrite Nat.ltb_irrefl, Nat.eqb_refl. exact IH.
Qed.

Lemma lex_lt_asym x : forall y, lex_lt x y = true -> lex_lt y x = false.
Proof.
  induction x as [|a x IH]; intros [|b y] H; simpl in *; try done.
  apply orb_true_iff in H as [H|H].
  - apply Nat.ltb_lt in H.
    destruct (Nat.ltb_spec b a); [lia|]. destruct (Nat.eqb_spec b a); [lia|done].
  - apply andb_true_iff in H as [H1 H2]. apply Nat.eqb_eq in H1 as ->.
    rewrite Nat.ltb_irrefl, Nat.eqb_refl. simpl. by apply IH.
Qed.

Lemma lex_lt_app pre s s' : lex_lt (pre ++ s) (pre ++ s') = lex_lt s s'.
Proof.
  induction pre as [|a pre IH]; [reflexivity|]. simpl.
  by rewrite Nat.ltb_irrefl, Nat.eqb_refl.
Qed.

Section order.
Context {V : Type}.

Lemma pairwise_true (f : record_type V -> record_type V -> bool) rs :
  pairwise f rs = true ->
  forall l1 r r' l2, rs = l1 ++ r :: r' :: l2 -> f r r' = true.
Proof.
  induction rs as [|a rs IH]; intros H l1 r r' l2 E; [by destruct l1|].
  destruct rs as [|b rs]; [by destruct l1 as [|? [|? ?]]|].
  cbn [pairwise] in H. apply andb_true_iff in H as [H1 H2].
  destruct l1 as [|x l1]; simpl in E.
  - by injection E as -> ->.
  - injection E as -> E. by apply (IH H2 l1 r r' l2).
Qed.

Lemma pairwise_false (f : record_type V -> record_type V -> bool) rs :
  pairwise f rs = false ->
  exists l1 r r' l2, rs = l1 ++ r :: r' :: l2 /\ f r r' = false.
Proof.
  induction rs as [|a rs IH]; intros H; [discriminate|].
  destruct rs as [|b rs]; [discriminate|].
  cbn [pairwise] in H. apply andb_false_iff in H as [H|H].
  - by exists [], a, b, rs.
  - destruct (IH H) as (l1 & r & r' & l2 & -> & Hf).
    exists (a :: l1), r, r', l2. by rewrite Hf.
Qed.

(** the key byte at [p] is the first byte of what follows the first [p] *)
Lemma key_byte_drop p (r : record_type V) :
  p <= length (key r) -> key_byte p r = nth 0 (drop p (key r)) 0.
Proof.
  intros H. unfold key_byte.
  rewrite <- (take_drop p (key r)) at 1.
  rewrite app_nth2 by (rewrite length_take; lia).
  rewrite length_take. by replace (p - p `min` length (key r)) with 0 by lia.
Qed.

Lemma byte_lt_lex p (r r' : record_type V) :
  p <= length (key r) -> p <= length (key r') ->
  take p (key r) = take p (key r') ->
  key_byte p r < key_byte p r' -> lex_lt (key r) (key r') = true.
Proof.
  intros Hp Hp' Ht Hlt.
  rewrite (key_byte_drop p r Hp), (key_byte_drop p r' Hp') in Hlt.
  rewrite <- (take_drop p (key r)), <- (take_drop p (key r')), Ht, lex_lt_app.
  destruct (drop p (key r')) as [|y ys]; simpl in Hlt; [lia|].
  destruct (drop p (key r)) as [|x xs]; simpl in *; [reflexivity|].
  destruct (Nat.ltb_spec x y); [reflexivity|lia].
Qed.

Lemma key_byte_nonzero p (r : record_type V) :
  key_byte p r <> 0 -> p < length (key r).
Proof.
  unfold key_byte. intros H.
  destruct (Nat.lt_ge_cases p (length (key r))); [assumption|].
  rewrite nth_overflow in H by lia. done.
Qed.

Lemma take_succ_byte p (r : record_type V) :
  p < length (key r) -> take (S p) (key r) = take p (key r) ++ [key_byte p r].
Proof.
  intros H. destruct (lookup_lt_is_Some_2 (key r) p H) as [x Hx].
  unfold key_byte. rewrite (nth_lookup_Some _ _ 0 _ Hx). by apply take_S_r.
Qed.

Lemma nondecr_pair l1 : forall pc x y l2,
  nondecr pc (l1 ++ x :: y :: l2) = true -> x <= y.
Proof.
  induction l1 as [|a l1 IH]; intros pc x y l2 H; simpl in H.
  - apply andb_true_iff in H as [_ H]. apply andb_true_iff in H as [H _].
    apply Z.leb_le in H. lia.
  - apply andb_true_iff in H as [_ H]. by eapply IH.
Qed.

Lemma nondecr_true l : forall pc,
  match l with [] => True | x :: _ => (pc <= Z.of_nat x)%Z end ->
  (forall l1 x y l2, l = l1 ++ x :: y :: l2 -> x <= y) ->
  nondecr pc l = true.
Proof.
  induction l as [|a l IH]; intros pc H0 H; [reflexivity|]. simpl.
  apply andb_true_iff. split; [by apply Z.leb_le|].
  apply IH.
  - destruct l as [|b l]; [exact I|]. specialize (H [] a b l eq_refl). lia.
  - intros l1 x y l2 ->. by apply (H (a :: l1) x y l2).
Qed.

(** the range of a child is a segment of the records *)
Lemma range_segment (children : list (child_t (V:=V))) ch :
  ch ∈ children -> exists A B, flat children = A ++ range ch ++ B.
Proof.
  intros Hin. apply list_elem_of_split in Hin as (l1 & l2 & ->).
  exists (flat l1), (flat l2). rewrite flat_app. unfold flat at 2. by simpl.
Qed.

Lemma segment_pair (rs A m B l1 l2 : list (record_type V)) r r' :
  rs = A ++ m ++ B -> m = l1 ++ r :: r' :: l2 ->
  rs = (A ++ l1) ++ r :: r' :: (l2 ++ B).
Proof. intros -> ->. by rewrite <- !app_assoc. Qed.

Lemma pairwise_segment (f : record_type V -> record_type V -> bool) rs A m B :
  rs = A ++ m ++ B -> pairwise f rs = true -> pairwise f m = true.
Proof.
  intros E H. destruct (pairwise f m) eqn:Em; [reflexivity|].
  destruct (pairwise_false f m Em) as (l1 & r & r' & l2 & E' & Hf).
  rewrite <- Hf.
  eapply (pairwise_true f rs H). eapply segment_pair; eassumption.
Qed.

End order.

(** *** What the inspection of the groups finds *)

Section inspection.
Context {V : Type}.
Context (table : list nat).
Hypothesis table_length : length table = NUMCHARS.

Definition child_verdict (vrec : nat -> list (record_type V) -> option error)
    (p : nat) (ch : child_t (V:=V)) : option error :=
  if negb (c ch =? 0) then vrec (p + 1) (range ch)
  else if negb (length (range ch) =? 1) then Some DuplicateKey
  else None.

Lemma verdict_children_none vrec p (children : list (child_t (V:=V))) :
  verdict_children vrec p children = None ->
  forall ch, ch ∈ children -> child_verdict vrec p ch = None.
Proof.
  induction children as [|x children IH]; intros H ch Hin.
  - by apply elem_of_nil in Hin.
  - cbn [verdict_children] in H. fold (child_verdict vrec p x) in H.
    destruct (child_verdict vrec p x) eqn:E; [discriminate|].
    apply elem_of_cons in Hin as [->|Hin]; [exact E|by apply IH].
Qed.

Lemma verdict_children_some vrec p (children : list (child_t (V:=V))) e :
  verdict_children vrec p children = Some e ->
  exists ch, ch ∈ children /\ child_verdict vrec p ch = Some e.
Proof.
  induction children as [|x children IH]; intros H; [discriminate|].
  cbn [verdict_children] in H. fold (child_verdict vrec p x) in H.
  destruct (child_verdict vrec p x) eqn:E.
  - injection H as ->. exists x. split; [by left|exact E].
  - destruct (IH H) as (ch & Hin & Hch). exists ch. split; [by right|exact Hch].
Qed.

(** the groups of a level, when the bytes at [p] never go down *)
Lemma verdict_level fuel p (rs : list (record_type V)) :
  keys_ok p rs -> length rs <> 1 ->
  (exists children mo,
     list_children table p (-1) [] 0 rs = Ok (children, mo) /\
     verdict table (S fuel) p rs = verdict_children (verdict table fuel) p children /\
     nondecr (-1) (map (key_byte p) rs) = true /\
     flat children = rs /\
     (forall ch, ch ∈ children -> uniform p ch) /\
     adjacent_lt children) \/
  (verdict table (S fuel) p rs = Some UnsortedInput /\
   nondecr (-1) (map (key_byte p) rs) = false).
Proof.
  intros Hk Hlen.
  assert (Hv : verdict table (S fuel) p rs =
    match list_children table p (-1) [] 0 rs with
    | Ok (children, _) => verdict_children (verdict table fuel) p children
    | Throw e => Some e
    | _ => None
    end).
  { destruct rs as [|a [|b rs]]; [reflexivity|by simpl in Hlen|reflexivity]. }
  pose proof (list_children_kind table p table_length rs (-1)%Z [] 0 Hk) as Hkind.
  destruct (list_children table p (-1) [] 0 rs)
    as [[children mo]|e| | |] eqn:Elc; try contradiction.
  - left. exists children, mo. split; [reflexivity|]. split; [exact Hv|].
    split; [exact Hkind|].
    destruct (list_children_ok table p table_length rs (-1)%Z [] 0 children mo Hk)
      as (Hflat & Hchok & Hadj & _);
      [reflexivity | intros ch Hch; by apply elem_of_nil in Hch
      | by intros i x y Hx | exact Elc |].
    split; [exact Hflat|]. split; [|exact Hadj].
    intros ch Hch. by destruct (Hchok ch Hch).
  - right. destruct Hkind as [-> Hn]. by split.
Qed.

(** the records of a group with a non-zero byte can be read one byte on *)
Lemma keys_ok_child p (rs : list (record_type V)) children ch :
  keys_ok p rs -> flat children = rs -> ch ∈ children -> uniform p ch ->
  c ch <> 0 -> keys_ok (p + 1) (range ch).
Proof.
  intros Hk Hflat Hin [_ Hu] Hc r Hr.
  destruct (range_segment children ch Hin) as (A & B & HAB).
  assert (Hrs : r ∈ rs).
  { rewrite <- Hflat, HAB. apply elem_of_app. right. apply elem_of_app. by left. }
  destruct (Hk r Hrs) as [_ Hb]. split; [|exact Hb].
  assert (p < length (key r)); [|lia].
  apply key_byte_nonzero. by rewrite (Hu r Hr).
Qed.

(** a pair of consecutive records that is not ascending is always found *)
Lemma verdict_pair fuel : forall p (rs : list (record_type V)) l1 r r' l2,
  rs = l1 ++ r :: r' :: l2 ->
  keys_ok p rs ->
  take p (key r) = take p (key r') ->
  lex_lt (key r) (key r') = false ->
  length (key r) + 2 <= p + fuel ->
  verdict table fuel p rs <> None.
Proof.
  induction fuel as [|fuel IH]; intros p rs l1 r r' l2 E Hk Ht Hlex Hfuel.
  { destruct (Hk r) as [Hp _]; [|lia]. rewrite E. apply elem_of_app. right. left. }
  assert (Hlen : length rs <> 1).
  { rewrite E, length_app. simpl. lia. }
  destruct (verdict_level fuel p rs Hk Hlen)
    as [(children & mo & _ & -> & Hnd & Hflat & Hu & Hadj)|[-> _]]; [|discriminate].
  assert (Hr : r ∈ rs) by (rewrite E; apply elem_of_app; right; left).
  assert (Hr' : r' ∈ rs) by (rewrite E; apply elem_of_app; right; right; left).
  destruct (Hk r Hr) as [Hp _]. destruct (Hk r' Hr') as [Hp' _].
  assert (Hle : key_byte p r <= key_byte p r').
  { rewrite E, map_app in Hnd. simpl in Hnd. by eapply nondecr_pair. }
  destruct (decide (key_byte p r = key_byte p r')) as [Heq|Hne].
  2:{ rewrite (byte_lt_lex p r r') in Hlex by (assumption || lia). discriminate. }
  destruct (pair_in_child p children l1 r r' l2 Hu Hadj) as (ch & a & b' & Hin & Hrange);
    [by rewrite Hflat | exact Heq |].
  intros Hnone.
  pose proof (verdict_children_none _ _ _ Hnone ch Hin) as Hch.
  unfold child_verdict in Hch.
  destruct (Hu ch Hin) as [_ Huc].
  assert (Hcr : key_byte p r = c ch).
  { apply Huc. rewrite Hrange. apply elem_of_app. right. left. }
  destruct (Nat.eqb_spec (c ch) 0) as [Hc0|Hc0]; cbn [negb] in Hch.
  - rewrite Hrange, length_app in Hch. simpl in Hch.
    destruct (Nat.eqb_spec (length a + S (S (length b'))) 1); [lia|discriminate].
  - assert (Hlt : p < length (key r)) by (apply key_byte_nonzero; congruence).
    assert (Hlt' : p < length (key r')) by (apply key_byte_nonzero; congruence).
    revert Hch. apply (IH (p + 1) (range ch) a r r' b' Hrange).
    + by apply (keys_ok_child p rs children ch Hk Hflat Hin (Hu ch Hin)).
    + rewrite Nat.add_1_r, !take_succ_byte by assumption. congruence.
    + exact Hlex.
    + lia.
Qed.

(** no duplicate is reported when consecutive keys differ *)
Lemma verdict_neighbours_differ fuel : forall p (rs : list (record_type V)),
  keys_ok p rs ->
  (forall r, r ∈ rs -> Forall (fun x => x <> 0) (key r)) ->
  (forall r r', r ∈ rs -> r' ∈ rs -> take p (key r) = take p (key r')) ->
  neighbours_differ rs = true ->
  verdict table fuel p rs <> Some DuplicateKey.
Proof.
  induction fuel as [|fuel IH]; intros p rs Hk Hnz Hpre Hnd; [discriminate|].
  destruct (decide (length rs = 1)) as [Hlen|Hlen].
  { destruct rs as [|a [|b rs]]; try discriminate. }
  destruct (verdict_level fuel p rs Hk Hlen)
    as [(children & mo & _ & -> & _ & Hflat & Hu & Hadj)|[-> _]]; [|discriminate].
  intros Hsome.
  destruct (verdict_children_some _ _ _ _ Hsome) as (ch & Hin & Hch).
  destruct (range_segment children ch Hin) as (A & B & HAB).
  rewrite Hflat in HAB.
  assert (Hsub : forall r, r ∈ range ch -> r ∈ rs).
  { intros r Hr. rewrite HAB. apply elem_of_app. right. apply elem_of_app. by left. }
  destruct (Hu ch Hin) as [Hne Huc].
  unfold child_verdict in Hch.
  destruct (Nat.eqb_spec (c ch) 0) as [Hc0|Hc0]; cbn [negb] in Hch.
  - destruct (range ch) as [|x [|y rest]] eqn:Er; [contradiction|discriminate|].
    assert (Hx : x ∈ rs) by (apply Hsub; left).
    assert (Hy : y ∈ rs) by (apply Hsub; right; left).
    assert (Hend : forall r, r ∈ rs -> key_byte p r = 0 -> key r = take p (key r)).
    { intros r Hr Hb. destruct (Hk r Hr) as [Hp _].
      destruct (Nat.lt_ge_cases p (length (key r))) as [Hlt|Hge].
      - exfalso. specialize (Hnz r Hr). rewrite Forall_forall in Hnz.
        apply (Hnz (key_byte p r)); [|exact Hb].
        unfold key_byte. by apply nth_In.
      - by rewrite firstn_all2 by lia. }
    assert (Hkx : key x = key y).
    { rewrite (Hend x Hx), (Hend y Hy).
      - by apply Hpre.
      - rewrite <- Hc0. apply Huc. right. left.
      - rewrite <- Hc0. apply Huc. left. }
    pose proof (pairwise_true _ rs Hnd (A ++ []) x y (rest ++ B)) as Hd.
    rewrite app_nil_r in Hd. simpl in Hd.
    rewrite HAB in Hd. specialize (Hd eq_refl).
    rewrite bool_decide_eq_true_2 in Hd by exact Hkx. discriminate.
  - revert Hch. apply IH.
    + by apply (keys_ok_child p rs children ch Hk Hflat Hin (Hu ch Hin)).
    + intros r Hr. by apply Hnz, Hsub.
    + intros r r' Hr Hr'.
      assert (Hlt : p < length (key r)).
      { apply key_byte_nonzero. by rewrite (Huc r Hr). }
      assert (Hlt' : p < length (key r')).
      { apply key_byte_nonzero. by rewrite (Huc r' Hr'). }
      rewrite Nat.add_1_r, !take_succ_byte by assumption.
      rewrite (Huc r Hr), (Huc r' Hr'). f_equal. apply Hpre; by apply Hsub.
    + by apply (pairwise_segment _ rs A (range ch) B).
Qed.

(** no disorder is reported when no key is greater than the next one *)
Lemma verdict_nondescending fuel : forall p (rs : list (record_type V)),
  keys_ok p rs ->
  (forall r r', r ∈ rs -> r' ∈ rs -> take p (key r) = take p (key r')) ->
  nondescending rs = true ->
  verdict table fuel p rs <> Some UnsortedInput.
Proof.
  induction fuel as [|fuel IH]; intros p rs Hk Hpre Hnd; [discriminate|].
  destruct (decide (length rs = 1)) as [Hlen|Hlen].
  { destruct rs as [|a [|b rs]]; try discriminate. }
  destruct (verdict_level fuel p rs Hk Hlen)
    as [(children & mo & _ & -> & _ & Hflat & Hu & Hadj)|[_ Hfalse]].
  - intros Hsome.
    destruct (verdict_children_some _ _ _ _ Hsome) as (ch & Hin & Hch).
    destruct (range_segment children ch Hin) as (A & B & HAB).
    rewrite Hflat in HAB.
    assert (Hsub : forall r, r ∈ range ch -> r ∈ rs).
    { intros r Hr. rewrite HAB. apply elem_of_app. right. apply elem_of_app. by left. }
    destruct (Hu ch Hin) as [Hne Huc].
    unfold child_verdict in Hch.
    destruct (Nat.eqb_spec (c ch) 0) as [Hc0|Hc0]; cbn [negb] in Hch.
    + destruct (negb _); discriminate.
    + revert Hch. apply IH.
      * by apply (keys_ok_child p rs children ch Hk Hflat Hin (Hu ch Hin)).
      * intros r r' Hr Hr'.
        assert (Hlt : p < length (key r)).
        { apply key_byte_nonzero. by rewrite (Huc r Hr). }
        assert (Hlt' : p < length (key r')).
        { apply key_byte_nonzero. by rewrite (Huc r' Hr'). }
        rewrite Nat.add_1_r, !take_succ_byte by assumption.
        rewrite (Huc r Hr), (Huc r' Hr'). f_equal. apply Hpre; by apply Hsub.
      * by apply (pairwise_segment _ rs A (range ch) B).
  - exfalso. rewrite nondecr_true in Hfalse; [discriminate| |].
    + destruct (map (key_byte p) rs); [exact I|lia].
    + intros l1 x y l2 E.
      apply map_eq_app in E as (m1 & m2 & -> & <- & E).
      destruct m2 as [|r [|r' m2]]; try discriminate.
      simpl in E. injection E as <- <- _.
      destruct (Nat.le_gt_cases (key_byte p r) (key_byte p r')) as [Hle|Hgt];
        [exact Hle|].
      assert (Hr : r ∈ m1 ++ r :: r' :: m2) by (apply elem_of_app; right; left).
      assert (Hr' : r' ∈ m1 ++ r :: r' :: m2)
        by (apply elem_of_app; right; right; left).
      pose proof (pairwise_true _ _ Hnd m1 r r' m2 eq_refl) as Hd. simpl in Hd.
      rewrite (byte_lt_lex p r' r) in Hd;
        [discriminate | by apply Hk | by apply Hk | by apply Hpre | exact Hgt].
Qed.

(** the only errors found are disorder and duplicates *)
Lemma verdict_errors fuel : forall p (rs : list (record_type V)) e,
  keys_ok p rs ->
  verdict table fuel p rs = Some e -> e = UnsortedInput \/ e = DuplicateKey.
Proof.
  induction fuel as [|fuel IH]; intros p rs e Hk H; [discriminate|].
  destruct (decide (length rs = 1)) as [Hlen|Hlen].
  { destruct rs as [|a [|b rs]]; try discriminate. }
  destruct (verdict_level fuel p rs Hk Hlen)
    as [(children & mo & _ & Hv & _ & Hflat & Hu & Hadj)|[Hv _]];
    rewrite Hv in H; [|left; congruence].
  destruct (verdict_children_some _ _ _ _ H) as (ch & Hin & Hch).
  unfold child_verdict in Hch.
  destruct (Nat.eqb_spec (c ch) 0) as [Hc0|Hc0]; cbn [negb] in Hch.
  - destruct (negb _); [right; congruence|discriminate].
  - apply (IH (p + 1) (range ch) e); [|exact Hch].
    by apply (keys_ok_child p rs children ch Hk Hflat Hin (Hu ch Hin)).
Qed.

End inspection.

Local Open Scope nat_scope.


Lemma pairwise_impl {V : Type} (f g : record_type V -> record_type V -> bool) rs :
  (forall r r', f r r' = true -> g r r' = true) ->
  pairwise f rs = true -> pairwise g rs = true.
Proof.
  intros Hfg. induction rs as [|a rs IH]; [reflexivity|].
  destruct rs as [|b rs]; [reflexivity|]. cbn [pairwise].
  rewrite !andb_true_iff. intros [H1 H2]. split; [by apply Hfg|by apply IH].
Qed.

Lemma ascending_nondescending {V : Type} (rs : list (record_type V)) :
  ascending rs = true -> nondescending rs = true.
Proof.
  apply pairwise_impl. intros r r' H. by rewrite (lex_lt_asym _ _ H).
Qed.

Lemma ascending_neighbours_differ {V : Type} (rs : list (record_type V)) :
  ascending rs = true -> neighbours_differ rs = true.
Proof.
  apply pairwise_impl. intros r r' H.
  destruct (decide (key r = key r')) as [E|E].
  - rewrite E, lex_lt_irrefl in H. discriminate.
  - by rewrite bool_decide_eq_false_2.
Qed.

Lemma arrange_fuel_bound {V : Type} (rs : list (record_type V)) r :
  r ∈ rs -> length (key r) + 2 <= arrange_fuel rs.
Proof.
  unfold arrange_fuel. induction rs as [|a rs IH]; intros Hin.
  - by apply elem_of_nil in Hin.
  - simpl. apply elem_of_cons in Hin as [->|Hin]; [lia|]. specialize (IH Hin). lia.
Qed.

Lemma c_string_bytes s : c_string s -> Forall (fun x => x < 256) s.
Proof. unfold c_string. apply List.Forall_impl. lia. Qed.

Section build.
Context (T : traits) {V : Type} {codec : value_codec V}.
Context (sort : list unigram_freq -> list unigram_freq).
Hypothesis default_base : tr_get_base T (tr_default_value T) = 0%Z.

Lemma vlist_init_ok (b : builder.t T) :
  vlist_init T b = Ok (with_elink T b [mk_dlink 0 1]).
Proof.
  unfold vlist_init.
  assert (Hl : length (resize (m_elink T b) 1 dlink_default) = 1)
    by apply length_resize.
  destruct (resize (m_elink T b) 1 dlink_default) as [|e [|e' el]];
    try discriminate.
  reflexivity.
Qed.

Lemma clear_ok (b : builder.t T) :
  clear T b =
  Ok (mk T (m_n T b) [tr_default_value T] (le_bytes 4 0) (seq 0 NUMCHARS)
         (m_used_bases T b) [mk_dlink 0 1]).
Proof. unfold clear. by rewrite vlist_init_ok. Qed.

Lemma build_table_length (table : list nat) (rs : list (record_type V)) :
  length (build_table sort table rs) = length table.
Proof. unfold build_table, fill_table. apply fill_length. Qed.

(** the table [build] hands to [arrange] *)
Definition built_table (rs : list (record_type V)) : list nat :=
  build_table sort (seq 0 NUMCHARS) rs.

Lemma build_agrees (b : builder.t T) (rs : list (record_type V)) :
  rs <> [] -> (forall r, r ∈ rs -> Forall (fun x => x < 256) (key r)) ->
  build T sort b rs = Throw CapacityExceeded \/
  (exists e, verdict (built_table rs) (arrange_fuel rs) 0 rs = Some e /\
             build T sort b rs = Throw e) \/
  (verdict (built_table rs) (arrange_fuel rs) 0 rs = None /\
   exists b', build T sort b rs = Ok b').
Proof.
  intros Hne Hbytes. unfold build. rewrite clear_ok. cbn [obind].
  set (b1 := da_expand T _ _).
  assert (Hda1 : length (m_da T b1) = 2).
  { unfold b1. rewrite da_expand_length. reflexivity. }
  assert (Hel1 : m_elink T b1 = [mk_dlink 0 1]).
  { unfold b1. by rewrite (proj2 (da_expand_rest T _ _)). }
  assert (Htb1 : m_table T b1 = built_table rs).
  { unfold b1, da_expand. by destruct (_ <? _). }
  destruct (vlist_expand_ok T b1 (INITIAL_INDEX + 1)) as (el2 & -> & Hvl2 & Hlen2).
  { rewrite Hel1. split; [simpl; lia|].
    intros i e Hi. destruct i as [|i]; [|by destruct i].
    injection Hi as <-. unfold node_ok. simpl. lia. }
  cbn [obind]. rewrite Hel1 in Hlen2. simpl in Hlen2.
  destruct (set_base_ok T (with_elink T b1 el2) INITIAL_INDEX 1)
    as (da3 & -> & Hda3); [simpl; unfold INITIAL_INDEX; lia|].
  cbn [obind]. simpl in Hda3.
  destruct (vlist_use_ok T (with_da T (with_elink T b1 el2) da3) INITIAL_INDEX)
    as (el4 & -> & Hvl4 & Hlen4); [exact Hvl2 | simpl; unfold INITIAL_INDEX; lia |].
  cbn [obind].
  set (b4 := with_elink T _ el4).
  assert (Htb4 : m_table T b4 = built_table rs) by exact Htb1.
  pose proof (arrange_agrees T default_base (arrange_fuel rs) 0 rs b4) as H.
  rewrite Htb4 in H.
  destruct H as [->|[(e & He & ->)|(Hv & [v b5] & -> & Hinv5 & _ & Hlen5)]].
  - split; [exact Hvl4|]. rewrite Htb4. unfold built_table.
    rewrite build_table_length. apply length_seq.
  - exact Hne.
  - intros r Hr. split; [lia|by apply Hbytes].
  - split; [unfold arrange_fuel; lia|]. intros _ r Hr.
    pose proof (arrange_fuel_bound rs r Hr). lia.
  - by left.
  - right. left. by exists e.
  - right. right. split; [exact Hv|]. cbn [obind snd] in *.
    destruct (set_base_ok T b5 INITIAL_INDEX v) as (da6 & -> & _).
    { simpl in Hlen5. unfold INITIAL_INDEX. lia. }
    by eexists.
Qed.

(** X1. For every non-empty list of records whose key bytes fit [uint8_t],
    whatever the state of the builder and the order of the records, [build]
    ends: it returns, or it throws one of the three builder errors (unsorted
    records, duplicated keys, no space). It never reads or writes outside
    one of its vectors and the search for a base address always stops. *)
Theorem build_ends (b : builder.t T) (rs : list (record_type V)) :
  rs <> [] -> byte_keys rs ->
  (exists b', build T sort b rs = Ok b') \/
  (exists e, build T sort b rs = Throw e /\ builder_error e).
Proof.
  intros Hne Hbytes. unfold byte_keys in Hbytes. rewrite list.Forall_forall in Hbytes.
  destruct (build_agrees b rs Hne Hbytes) as [->|[(e & He & ->)|(_ & b' & ->)]].
  - right. exists CapacityExceeded. split; [reflexivity|]. right. by right.
  - right. exists e. split; [reflexivity|].
    destruct (verdict_errors (built_table rs)
                (eq_trans (build_table_length _ _) (length_seq _ _))
                (arrange_fuel rs) 0 rs e) as [-> | ->];
      [intros r Hr; split; [lia|by apply Hbytes] | exact He | by left | right; by left].
  - left. by exists b'.
Qed.

(** records in strictly ascending order pass the inspection *)
Lemma build_sorted_outcome (b : builder.t T) (rs : list (record_type V)) :
  rs <> [] -> c_string_keys rs -> ascending rs = true ->
  (exists b', build T sort b rs = Ok b') \/
  build T sort b rs = Throw CapacityExceeded.
Proof.
  intros Hne Hcs Hasc. unfold c_string_keys in Hcs. rewrite list.Forall_forall in Hcs.
  assert (Hbytes : forall r, r ∈ rs -> Forall (fun x => x < 256) (key r))
    by (intros r Hr; by apply c_string_bytes, Hcs).
  assert (Hk : keys_ok 0 rs) by (intros r Hr; split; [lia|by apply Hbytes]).
  assert (Htl : length (built_table rs) = NUMCHARS)
    by exact (eq_trans (build_table_length _ _) (length_seq _ _)).
  destruct (build_agrees b rs Hne Hbytes) as [->|[(e & He & ->)|(_ & b' & ->)]].
  - by right.
  - exfalso.
    destruct (verdict_errors _ Htl _ _ _ _ Hk He) as [-> | ->]; revert He.
    + apply (verdict_nondescending _ Htl); [exact Hk|done|].
      by apply ascending_nondescending.
    + apply (verdict_neighbours_differ _ Htl); [exact Hk| |done|].
      * intros r Hr. eapply List.Forall_impl; [|by apply Hcs]. simpl. lia.
      * by apply ascending_neighbours_differ.
  - left. by exists b'.
Qed.

(** X2. A non-empty list of records whose keys are C strings in strictly
    ascending order is accepted: [build] returns, unless the double array
    runs out of space. It throws neither the unsorted-records nor the
    duplicated-keys error. *)
Theorem build_accepts_sorted (b : builder.t T) (rs : list (record_type V)) :
  rs <> [] -> c_string_keys rs -> ascending rs = true ->
  (exists b', build T sort b rs = Ok b') \/
  build T sort b rs = Throw CapacityExceeded.
Proof. apply build_sorted_outcome. Qed.

(** X3. If no key is greater than the next one and some key is identical
    to the next one, [build] throws the duplicated-keys error (unless the
    double array runs out of space first). *)
Theorem build_rejects_duplicates (b : builder.t T) (rs : list (record_type V)) :
  byte_keys rs -> nondescending rs = true -> neighbours_differ rs = false ->
  build T sort b rs = Throw DuplicateKey \/
  build T sort b rs = Throw CapacityExceeded.
Proof.
  intros Hbytes Hnd Hdup. unfold byte_keys in Hbytes. rewrite list.Forall_forall in Hbytes.
  assert (Hk : keys_ok 0 rs) by (intros r Hr; split; [lia|by apply Hbytes]).
  assert (Htl : length (built_table rs) = NUMCHARS)
    by exact (eq_trans (build_table_length _ _) (length_seq _ _)).
  destruct (pairwise_false _ rs Hdup) as (l1 & r & r' & l2 & E & Hf).
  assert (Hkeys : key r = key r').
  { destruct (decide (key r = key r')) as [Hkk|Hkk]; [exact Hkk|].
    by rewrite bool_decide_eq_false_2 in Hf. }
  assert (Hne : rs <> []) by (rewrite E; by destruct l1).
  assert (Hr : r ∈ rs) by (rewrite E; apply elem_of_app; right; left).
  assert (Hsome : verdict (built_table rs) (arrange_fuel rs) 0 rs <> None).
  { apply (verdict_pair _ Htl _ 0 rs l1 r r' l2 E Hk); [done| |].
    - rewrite Hkeys. apply lex_lt_irrefl.
    - pose proof (arrange_fuel_bound rs r Hr). lia. }
  destruct (build_agrees b rs Hne Hbytes) as [->|[(e & He & ->)|(Hn & _)]].
  - by right.
  - destruct (verdict_errors _ Htl _ _ _ _ Hk He) as [-> | ->]; [|by left].
    exfalso. revert He. by apply (verdict_nondescending _ Htl).
  - contradiction.
Qed.

(** X4. If the keys are C strings, no key is identical to the next one and
    some key is not smaller than the next one, [build] throws the
    unsorted-records error (unless the double array runs out of space
    first). *)
Theorem build_rejects_unsorted (b : builder.t T) (rs : list (record_type V)) :
  c_string_keys rs -> neighbours_differ rs = true -> ascending rs = false ->
  build T sort b rs = Throw UnsortedInput \/
  build T sort b rs = Throw CapacityExceeded.
Proof.
  intros Hcs Hdiff Hasc. unfold c_string_keys in Hcs. rewrite list.Forall_forall in Hcs.
  assert (Hbytes : forall r, r ∈ rs -> Forall (fun x => x < 256) (key r))
    by (intros r Hr; by apply c_string_bytes, Hcs).
  assert (Hk : keys_ok 0 rs) by (intros r Hr; split; [lia|by apply Hbytes]).
  assert (Htl : length (built_table rs) = NUMCHARS)
    by exact (eq_trans (build_table_length _ _) (length_seq _ _)).
  destruct (pairwise_false _ rs Hasc) as (l1 & r & r' & l2 & E & Hf).
  assert (Hne : rs <> []) by (rewrite E; by destruct l1).
  assert (Hr : r ∈ rs) by (rewrite E; apply elem_of_app; right; left).
  assert (Hsome : verdict (built_table rs) (arrange_fuel rs) 0 rs <> None).
  { apply (verdict_pair _ Htl _ 0 rs l1 r r' l2 E Hk); [done|exact Hf|].
    pose proof (arrange_fuel_bound rs r Hr). lia. }
  destruct (build_agrees b rs Hne Hbytes) as [->|[(e & He & ->)|(Hn & _)]].
  - by right.
  - destruct (verdict_errors _ Htl _ _ _ _ Hk He) as [-> | ->]; [by left|].
    exfalso. revert He.
    apply (verdict_neighbours_differ _ Htl); [exact Hk| |done|exact Hdiff].
    intros x Hx. eapply List.Forall_impl; [|by apply Hcs]. simpl. lia.
  - contradiction.
Qed.

(** X5. [build] on an empty list of records is undefined behaviour:
    [arrange] is entered with an empty range, lists no child and then
    accesses the first (and the last) entry of its empty child list. *)
Theorem build_empty (b : builder.t T) : build T sort b [] = Undefined.
Proof.
  unfold build. rewrite clear_ok. cbn [obind].
  set (b1 := da_expand T _ _).
  assert (Hel1 : m_elink T b1 = [mk_dlink 0 1]).
  { unfold b1. by rewrite (proj2 (da_expand_rest T _ _)). }
  assert (Hda1 : length (m_da T b1) = 2).
  { unfold b1. rewrite da_expand_length. reflexivity. }
  destruct (vlist_expand_ok T b1 (INITIAL_INDEX + 1)) as (el2 & -> & Hvl2 & Hlen2).
  { rewrite Hel1. split; [simpl; lia|].
    intros i e Hi. destruct i as [|i]; [|by destruct i].
    injection Hi as <-. unfold node_ok. simpl. lia. }
  cbn [obind]. rewrite Hel1 in Hlen2. simpl in Hlen2.
  destruct (set_base_ok T (with_elink T b1 el2) INITIAL_INDEX 1)
    as (da3 & -> & Hda3); [simpl; unfold INITIAL_INDEX; lia|].
  cbn [obind]. simpl in Hda3.
  destruct (vlist_use_ok T (with_da T (with_elink T b1 el2) da3) INITIAL_INDEX)
    as (el4 & -> & Hvl4 & Hlen4); [exact Hvl2 | simpl; unfold INITIAL_INDEX; lia |].
  cbn [obind]. set (b4 := with_elink T _ el4).
  unfold arrange_fuel. cbn [map foldr arrange list_children obind].
  destruct (find_base_fuel T b4 []) as [|fuel] eqn:E;
    [unfold find_base_fuel in E; lia|].
  reflexivity.
Qed.

End build.

Local Open Scope nat_scope.


(** *** The two element layouts *)

Lemma default_base4 :
  tr_get_base doublearray4_traits.t (tr_default_value doublearray4_traits.t) = 0%Z.
Proof. reflexivity. Qed.

Lemma default_base5 :
  tr_get_base doublearray5_traits.t (tr_default_value doublearray5_traits.t) = 0%Z.
Proof. reflexivity. Qed.

(** a fresh builder of 5-byte elements *)
Definition fresh5 : builder.t doublearray5_traits.t :=
  init doublearray5_traits.t 0 [].

Lemma build_ends_witness :
  (exists b', build doublearray5_traits.t sorts.sort_stable fresh5 sample_records
              = Ok b') \/
  (exists e, build doublearray5_traits.t sorts.sort_stable fresh5 sample_records
             = Throw e /\ builder_error e).
Proof.
  apply (build_ends doublearray5_traits.t sorts.sort_stable default_base5).
  - discriminate.
  - apply (bool_decide_unpack _). vm_compute. reflexivity.
Defined.

Lemma build_accepts_sorted_witness :
  (exists b', build doublearray5_traits.t sorts.sort_stable fresh5 sample_records
              = Ok b') \/
  build doublearray5_traits.t sorts.sort_stable fresh5 sample_records
  = Throw CapacityExceeded.
Proof.
  apply (build_accepts_sorted doublearray5_traits.t sorts.sort_stable default_base5).
  - discriminate.
  - apply (bool_decide_unpack _). vm_compute. reflexivity.
  - vm_compute. reflexivity.
Defined.

Lemma build_rejects_duplicates_witness :
  let rs := records_of [("a", 1%Z); ("b", 2%Z); ("b", 3%Z)]%string in
  build doublearray5_traits.t sorts.sort_stable fresh5 rs = Throw DuplicateKey \/
  build doublearray5_traits.t sorts.sort_stable fresh5 rs = Throw CapacityExceeded.
Proof.
  apply (build_rejects_duplicates doublearray5_traits.t sorts.sort_stable
           default_base5).
  - apply (bool_decide_unpack _). vm_compute. reflexivity.
  - vm_compute. reflexivity.
  - vm_compute. reflexivity.
Defined.

Lemma build_rejects_unsorted_witness :
  let rs := records_of [("a", 1%Z); ("c", 2%Z); ("b", 3%Z)]%string in
  build doublearray5_traits.t sorts.sort_stable fresh5 rs = Throw UnsortedInput \/
  build doublearray5_traits.t sorts.sort_stable fresh5 rs = Throw CapacityExceeded.
Proof.
  apply (build_rejects_unsorted doublearray5_traits.t sorts.sort_stable
           default_base5).
  - apply (bool_decide_unpack _). vm_compute. reflexivity.
  - vm_compute. reflexivity.
  - vm_compute. reflexivity.
Defined.

Local Open Scope Z_scope.

(** X6. In the 5-byte element the BASE value occupies the first four bytes
    and the CHECK value the fifth: every 32-bit base value is read back as
    it was set, every check value is read back as it was set, and setting
    one field leaves the other one unchanged. *)
Theorem element5_fields (e : doublearray5_traits.element_type) (v : Z) (k : nat) :
  is_int32 v ->
  doublearray5_traits.get_base (doublearray5_traits.set_base e v) = v /\
  doublearray5_traits.get_check (doublearray5_traits.set_base e v)
    = doublearray5_traits.get_check e /\
  doublearray5_traits.get_check (doublearray5_traits.set_check e k) = k /\
  doublearray5_traits.get_base (doublearray5_traits.set_check e k)
    = doublearray5_traits.get_base e.
Proof.
  intros Hv. split; [by apply get_base5_set_base|]. by repeat split.
Qed.

Lemma element5_fields_witness :
  let e := doublearray5_traits.mk_element 1 2 3 4 5 in
  doublearray5_traits.get_base (doublearray5_traits.set_base e (- 2 ^ 31))
    = - 2 ^ 31 /\
  doublearray5_traits.get_check (doublearray5_traits.set_base e (- 2 ^ 31))
    = doublearray5_traits.get_check e /\
  doublearray5_traits.get_check (doublearray5_traits.set_check e 255) = 255%nat /\
  doublearray5_traits.get_base (doublearray5_traits.set_check e 255)
    = doublearray5_traits.get_base e.
Proof.
  apply element5_fields. unfold is_int32. lia.
Defined.

(** X7. In the 4-byte element a BASE value that does not fit 24 bits is
    not rejected: [set_base] keeps its low 24 bits (with 32-bit wrap-around
    of the shift), so that [get_base] returns the value reduced to
    -2^23 .. 2^23 - 1; the CHECK value is unchanged. *)
Theorem set_base4_truncates (e v : Z) :
  doublearray4_traits.get_base (doublearray4_traits.set_base e v)
  = (v + 2 ^ 23) mod 2 ^ 24 - 2 ^ 23 /\
  doublearray4_traits.get_check (doublearray4_traits.set_base e v)
  = doublearray4_traits.get_check e.
Proof.
  unfold doublearray4_traits.get_base, doublearray4_traits.get_check,
    doublearray4_traits.set_base.
  rewrite !land_255, Z.shiftl_mul_pow2, Z.shiftr_div_pow2 by lia.
  change (2 ^ 8) with 256.
  assert (Ha : 0 <= e mod 256 < 256) by (apply Z.mod_pos_bound; lia).
  rewrite lor_disjoint_low by exact Ha.
  unfold sint32.
  change (2 ^ 31) with 2147483648. change (2 ^ 32) with 4294967296.
  change (2 ^ 23) with 8388608. change (2 ^ 24) with 16777216.
  split.
  - Z.div_mod_to_equations. lia.
  - f_equal. Z.div_mod_to_equations. lia.
Qed.

Local Open Scope nat_scope.


(** ** The vacant list and the double array

    The construction relies on the vacant list naming free elements only.
    The list is kept in [m_elink] as a doubly linked list threaded through
    the indices; [u] tells which elements of the double array are in use. *)

Definition linv (el : list dlink_element_type) (u : nat -> bool) : Prop :=
  vl_ok el /\
  u 0 = false /\
  (forall j, length el <= j -> u j = false) /\
  (* the successor of a free element is free *)
  (forall j e, el !! j = Some e -> u j = false -> u (next e) = false) /\
  (* the successor of a free element points back to it *)
  (forall j e en, el !! j = Some e -> u j = false ->
     el !! next e = Some en -> prev en = j) /\
  (* the head knows the last free element *)
  (forall j e e0, el !! j = Some e -> u j = false -> next e = length el ->
     el !! 0 = Some e0 -> prev e0 = j).

Lemma linv_ext el u u' : (forall j, u j = u' j) -> linv el u -> linv el u'.
Proof.
  intros E (H1 & H2 & H3 & H4 & H5 & H6).
  split; [exact H1|]. split; [by rewrite <- E|].
  split; [intros j Hj; rewrite <- E; by apply H3|].
  split; [intros j e He Hu; rewrite <- E in *; by eapply H4|].
  split; [intros j e en He Hu; rewrite <- E in *; by eapply H5|].
  intros j e e0 He Hu. rewrite <- E in *. by eapply H6.
Qed.

(** *** vlist_expand *)

(** the nodes the loop of vlist_expand writes *)
Lemma vlist_expand_loop_spec count : forall i back el,
  i + count = length el ->
  exists el',
    vlist_expand_loop count i back el = Ok el' /\
    length el' = length el /\
    (forall j, j < i -> el' !! j = el !! j) /\
    (count <> 0 -> exists e, el !! i = Some e /\ el' !! i = Some (mk_dlink back (i + 1))) /\
    (forall j, i < j < length el -> el' !! j = Some (mk_dlink (j - 1) (j + 1))).
Proof.
  induction count as [|count IH]; intros i back el Hlen; simpl.
  - exists el. split; [reflexivity|]. split; [reflexivity|].
    split; [reflexivity|]. split; [done|]. intros j Hj. lia.
  - destruct (set_at_lt el i (fun e => mk_dlink back (next e)) ltac:(lia))
      as (a & Ha & ->). cbn [obind].
    rewrite (set_at_Some _ i _ (mk_dlink back (next a)))
      by (apply list_lookup_insert_eq; lia).
    cbn [obind next prev]. rewrite list_insert_insert_eq.
    destruct (IH (S i) i (<[i := mk_dlink back (i + 1)]> el))
      as (el' & -> & Hl & Hlow & Hat & Hhigh).
    { rewrite length_insert. lia. }
    rewrite length_insert in *.
    exists el'. split; [reflexivity|]. split; [exact Hl|].
    split; [|split].
    + intros j Hj. rewrite Hlow by lia. apply list_lookup_insert_ne. lia.
    + intros _. exists a. split; [exact Ha|].
      rewrite Hlow by lia. apply list_lookup_insert_eq. lia.
    + intros j Hj. destruct (decide (j = S i)) as [->|Hne].
      * destruct count as [|count]; [lia|].
        destruct Hat as (e & _ & ->); [done|]. f_equal. f_equal; lia.
      * apply Hhigh. lia.
Qed.

Section vacant_list.
Context (T : traits) {V : Type} {codec : value_codec V}.

(** what vlist_expand leaves in m_elink *)
Lemma vlist_expand_spec (b : builder.t T) size :
  1 <= length (m_elink T b) ->
  exists el,
    vlist_expand T b size = Ok (with_elink T b el) /\
    length el = Nat.max (length (m_elink T b)) size /\
    (length (m_elink T b) < size ->
     exists e0, m_elink T b !! 0 = Some e0 /\
       el !! 0 = Some (mk_dlink (size - 1) (next e0)) /\
       (forall j, 1 <= j < length (m_elink T b) -> el !! j = m_elink T b !! j) /\
       el !! length (m_elink T b)
         = Some (mk_dlink (prev e0) (length (m_elink T b) + 1)) /\
       (forall j, length (m_elink T b) < j < size ->
          el !! j = Some (mk_dlink (j - 1) (j + 1)))) /\
    (size <= length (m_elink T b) -> el = m_elink T b).
Proof.
  intros Hlen. unfold vlist_expand.
  destruct (Nat.ltb_spec (length (m_elink T b)) size) as [Hlt|Hge].
  - set (L := length (m_elink T b)) in *.
    set (el0 := resize (m_elink T b) size dlink_default).
    assert (Hl0 : length el0 = size) by apply length_resize.
    destruct (lookup_lt_is_Some_2 (m_elink T b) 0 ltac:(lia)) as [e0 He0].
    assert (He0' : el0 !! 0 = Some e0).
    { unfold el0. rewrite lookup_resize_old by lia. exact He0. }
    rewrite (at_Some _ _ _ He0'). cbn [obind].
    destruct (vlist_expand_loop_spec (length el0 - L) L (prev e0) el0)
      as (el1 & -> & Hl1 & Hlow & Hat & Hhigh); [lia|].
    cbn [obind].
    rewrite (set_at_Some _ 0 _ e0) by (rewrite Hlow by lia; exact He0').
    cbn [obind]. eexists. split; [reflexivity|].
    rewrite length_insert, Hl1, Hl0.
    split; [lia|]. split; [|lia].
    intros _. exists e0. split; [exact He0|].
    split; [by rewrite list_lookup_insert_eq by (rewrite Hl1, Hl0; lia)|].
    split; [|split].
    + intros j Hj. rewrite list_lookup_insert_ne by lia.
      rewrite Hlow by lia. unfold el0. by rewrite lookup_resize_old by lia.
    + rewrite list_lookup_insert_ne by lia.
      destruct Hat as (e & _ & ->); [lia|reflexivity].
    + intros j Hj. rewrite list_lookup_insert_ne by lia. apply Hhigh. lia.
  - exists (m_elink T b). split; [by destruct b|]. split; [lia|].
    split; [lia|done].
Qed.

Lemma vlist_expand_linv (b : builder.t T) size u :
  linv (m_elink T b) u ->
  exists el,
    vlist_expand T b size = Ok (with_elink T b el) /\
    linv el u /\ length el = Nat.max (length (m_elink T b)) size.
Proof.
  intros (Hvl & H0 & Hbeyond & Hvf & Hpn & Hlast).
  destruct (vlist_expand_spec b size (proj1 Hvl)) as (el & E & Hlen & Hgrow & Hsame).
  exists el. split; [exact E|]. split; [|exact Hlen].
  destruct (Nat.lt_ge_cases (length (m_elink T b)) size) as [Hlt|Hge].
  2:{ rewrite (Hsame Hge).
      exact (conj Hvl (conj H0 (conj Hbeyond (conj Hvf (conj Hpn Hlast))))). }
  destruct (Hgrow Hlt) as (e0 & He0 & Hn0 & Hold & Hfirst & Hnew). clear Hgrow Hsame.
  set (L := length (m_elink T b)) in *.
  destruct (vlist_expand_ok T b size Hvl) as (el2 & E2 & Hvl2 & _).
  assert (el2 = el) as -> by (rewrite E in E2; by injection E2).
  assert (Hlen' : length el = size) by lia.
  (* the node found at an index of the new list *)
  assert (Hnode : forall j e, el !! j = Some e ->
    (j = 0 /\ e = mk_dlink (size - 1) (next e0)) \/
    (1 <= j < L /\ m_elink T b !! j = Some e) \/
    (j = L /\ e = mk_dlink (prev e0) (L + 1)) \/
    (L < j < size /\ e = mk_dlink (j - 1) (j + 1))).
  { intros j e He. pose proof (lookup_lt_Some _ _ _ He) as Hj.
    destruct (decide (j = 0)) as [->|Hj0]; [left; split; [done|congruence]|].
    destruct (Nat.lt_ge_cases j L) as [HjL|HjL].
    - right. left. split; [lia|]. rewrite <- Hold by lia. exact He.
    - destruct (decide (j = L)) as [->|HjL'].
      + right. right. left. split; [done|congruence].
      + right. right. right. split; [lia|]. rewrite Hnew in He by lia. congruence. }
  assert (Hfree_new : forall j, L <= j -> u j = false) by exact Hbeyond.
  destruct (Hvl) as [_ Hok].
  split; [exact Hvl2|]. split; [exact H0|].
  split; [intros j Hj; apply Hbeyond; lia|].
  split; [|split].
  - intros j e He Hu.
    destruct (Hnode j e He) as [[-> ->]|[[Hj Hj']|[[-> ->]|[Hj ->]]]]; simpl.
    + by apply (Hvf 0 e0).
    + by apply (Hvf j e).
    + apply Hbeyond. lia.
    + apply Hbeyond. lia.
  - intros j e en He Hu Hen.
    destruct (Hnode j e He) as [[-> ->]|[[Hj Hj']|[[-> ->]|[Hj ->]]]];
      simpl in Hen.
    + (* the head *)
      destruct (Hok 0 e0 He0) as ([Hn1 Hn2] & _). fold L in Hn2.
      destruct (Hnode _ _ Hen) as [[? ->]|[[Hm Hm']|[[Hm ->]|[Hm ->]]]]; simpl.
      * lia.
      * by apply (Hpn 0 e0 en).
      * by apply (Hlast 0 e0 e0).
      * lia.
    + destruct (Hok j e Hj') as ([Hn1 Hn2] & _). fold L in Hn2.
      destruct (Hnode _ _ Hen) as [[? ->]|[[Hm Hm']|[[Hm ->]|[Hm ->]]]]; simpl.
      * lia.
      * by apply (Hpn j e en).
      * by apply (Hlast j e e0).
      * lia.
    + destruct (Hnode _ _ Hen) as [[? ->]|[[Hm Hm']|[[Hm ->]|[Hm ->]]]];
        simpl; lia.
    + destruct (Hnode _ _ Hen) as [[? ->]|[[Hm Hm']|[[Hm ->]|[Hm ->]]]];
        simpl; lia.
  - intros j e e0' He Hu Hnext He0'.
    rewrite Hn0 in He0'. injection He0' as <-. simpl.
    rewrite Hlen' in Hnext.
    destruct (Hnode j e He) as [[-> ->]|[[Hj Hj']|[[-> ->]|[Hj ->]]]];
      simpl in Hnext.
    + destruct (Hok 0 e0 He0) as ([Hn1 Hn2] & _). fold L in Hn2. lia.
    + destruct (Hok j e Hj') as ([Hn1 Hn2] & _). fold L in Hn2. lia.
    + lia.
    + lia.
Qed.

(** *** vlist_use *)

(** taking the free element [i] out of the list, once it is in use *)
Lemma vlist_use_linv (b : builder.t T) i u :
  linv (m_elink T b) u -> 1 <= i < length (m_elink T b) -> u i = false ->
  exists el,
    vlist_use T b i = Ok (with_elink T b el) /\
    linv el (fun j => if j =? i then true else u j) /\
    length (m_elink T b) <= length el <= S (length (m_elink T b)).
Proof.
  intros (Hvl & H0 & Hbeyond & Hvf & Hpn & Hlast) Hi Hui.
  destruct (vlist_use_ok T b i Hvl Hi) as (el' & E & Hvl' & Hlen').
  exists el'. split; [exact E|]. split; [|exact Hlen'].
  revert E. unfold vlist_use.
  destruct Hvl as [Hlen Hok].
  destruct (lookup_lt_is_Some_2 (m_elink T b) i ltac:(lia)) as [e He].
  rewrite (at_Some _ _ _ He). cbn [obind].
  destruct (Hok i e He) as (Hnext & Hprev & Hprev'). specialize (Hprev' ltac:(lia)).
  set (el := m_elink T b) in *. set (L := length el) in *.
  set (p := prev e) in *. set (n := next e) in *.
  destruct (lookup_lt_is_Some_2 el 0 ltac:(lia)) as [e0 He0].
  destruct (lookup_lt_is_Some_2 el p ltac:(lia)) as [ep Hep].
  assert (Hun : u n = false) by (by apply (Hvf i e)).
  assert (Hpoint : forall j ej, el !! j = Some ej -> u j = false -> next ej = i -> j = p).
  { intros j ej Hj Huj Hn. symmetry. apply (Hpn j ej e Hj Huj). by rewrite Hn. }
  destruct (Nat.leb_spec L n) as [Hle|Hgt].
  - (* the list grows by one node *)
    assert (Hn : n = L) by lia.
    assert (Hi0 : prev e0 = i) by (by apply (Hlast i e e0)).
    set (el0 := resize el (n + 1) dlink_default).
    assert (Hl0 : length el0 = n + 1) by apply length_resize.
    assert (Hnew : el0 !! n = Some dlink_default).
    { unfold el0. apply lookup_resize_new; lia. }
    rewrite (set_at_Some _ _ _ _ Hnew). cbn [obind prev].
    assert (Hold : forall j, j < L -> el0 !! j = el !! j).
    { intros j Hj. unfold el0. apply lookup_resize_old; lia. }
    set (el1 := <[n := mk_dlink 0 (n + 1)]> el0).
    assert (He01 : el1 !! 0 = Some e0).
    { unfold el1. rewrite list_lookup_insert_ne by lia. rewrite Hold by lia. exact He0. }
    rewrite (set_at_Some _ _ _ _ He01). cbn [obind].
    set (el2 := <[0 := mk_dlink n (next e0)]> el1).
    assert (Hl2 : length el2 = n + 1).
    { unfold el2, el1. by rewrite !length_insert. }
    (* the node at p *)
    set (ep2 := if decide (p = 0) then mk_dlink n (next e0) else ep).
    assert (Hep2 : el2 !! p = Some ep2).
    { unfold ep2, el2. destruct (decide (p = 0)) as [Hp0|Hp0].
      - rewrite Hp0. apply list_lookup_insert_eq. unfold el1. rewrite length_insert. lia.
      - rewrite list_lookup_insert_ne by lia. unfold el1.
        rewrite list_lookup_insert_ne by lia. rewrite Hold by lia. exact Hep. }
    rewrite (set_at_Some _ _ _ _ Hep2). cbn [obind].
    set (el3 := <[p := mk_dlink (prev ep2) n]> el2).
    assert (Hen3 : el3 !! n = Some (mk_dlink 0 (n + 1))).
    { unfold el3, el2, el1. rewrite !list_lookup_insert_ne by lia.
      apply list_lookup_insert_eq. lia. }
    rewrite (set_at_Some _ _ _ _ Hen3). cbn [obind prev next].
    intros E. injection E as <-.
    (* the node found at an index of the new list *)
    assert (Hnode : forall j ej,
      <[n := mk_dlink p (n + 1)]> el3 !! j = Some ej ->
      (j = n /\ ej = mk_dlink p (n + 1)) \/
      (j = p /\ ej = mk_dlink (prev ep2) n) \/
      (j = 0 /\ p <> 0 /\ ej = mk_dlink n (next e0)) \/
      (j <> n /\ j <> p /\ j <> 0 /\ j < L /\ el !! j = Some ej)).
    { intros j ej Hj. pose proof (lookup_lt_Some _ _ _ Hj) as Hjl.
      rewrite length_insert in Hjl. unfold el3 in Hjl. rewrite length_insert, Hl2 in Hjl.
      destruct (decide (j = n)) as [->|Hjn].
      { left. rewrite list_lookup_insert_eq in Hj
          by (unfold el3; rewrite length_insert; lia). split; [done|congruence]. }
      rewrite list_lookup_insert_ne in Hj by congruence. unfold el3 in Hj.
      destruct (decide (j = p)) as [->|Hjp].
      { right. left. rewrite list_lookup_insert_eq in Hj by lia.
        split; [done|congruence]. }
      rewrite list_lookup_insert_ne in Hj by congruence. unfold el2 in Hj.
      destruct (decide (j = 0)) as [->|Hj0].
      { right. right. left. rewrite list_lookup_insert_eq in Hj
          by (unfold el1; rewrite length_insert; lia).
        split; [done|]. split; [congruence|congruence]. }
      rewrite list_lookup_insert_ne in Hj by congruence. unfold el1 in Hj.
      rewrite list_lookup_insert_ne in Hj by congruence.
      right. right. right. rewrite Hold in Hj by lia.
      repeat (split; [assumption || lia|]). exact Hj. }
    assert (Hprev2 : p <> 0 -> prev ep2 = prev ep).
    { intros Hp0. unfold ep2. by destruct (decide (p = 0)). }
    split; [exact Hvl'|].
    split; [destruct (Nat.eqb_spec 0 i); [lia|exact H0]|].
    split; [|split; [|split]].
    + intros j Hj. rewrite length_insert in Hj. unfold el3 in Hj.
      rewrite length_insert, Hl2 in Hj.
      destruct (Nat.eqb_spec j i); [lia|]. apply Hbeyond. lia.
    + intros j ej Hj Hu.
      destruct (Nat.eqb_spec j i) as [|Hji]; [discriminate|].
      destruct (Hnode j ej Hj) as [[-> ->]|[[-> ->]|[(-> & Hp0 & ->)|(?&?&?&?& Hj')]]];
        simpl.
      * destruct (Nat.eqb_spec (n + 1) i); [lia|]. apply Hbeyond. lia.
      * destruct (Nat.eqb_spec n i); [lia|exact Hun].
      * destruct (Nat.eqb_spec (next e0) i) as [Hx|Hx].
        -- exfalso. apply Hp0. symmetry. by apply (Hpoint 0 e0).
        -- by apply (Hvf 0 e0).
      * destruct (Nat.eqb_spec (next ej) i) as [Hx|Hx].
        -- exfalso. pose proof (Hpoint j ej Hj' Hu Hx). lia.
        -- by apply (Hvf j ej).
    + intros j ej en' Hj Hu Hen'.
      destruct (Nat.eqb_spec j i) as [|Hji]; [discriminate|].
      destruct (Hnode j ej Hj) as [[-> ->]|[[-> ->]|[(-> & Hp0 & ->)|(?&?&?&?& Hj')]]];
        simpl in Hen'.
      * apply lookup_lt_Some in Hen'. rewrite length_insert in Hen'.
        unfold el3 in Hen'. rewrite length_insert, Hl2 in Hen'. lia.
      * destruct (Hnode _ _ Hen') as [[_ ->]|[[? _]|[(? & _)|(? & _)]]];
          [reflexivity|lia|lia|lia].
      * destruct (Hok 0 e0 He0) as ([Hn1 Hn2] & _). fold L in Hn2.
        assert (next e0 <> i) by (intros Hx; apply Hp0; symmetry; by apply (Hpoint 0 e0)).
        assert (next e0 <> L).
        { intros Hx. pose proof (Hlast 0 e0 e0 He0 H0 Hx He0). lia. }
        destruct (Hnode _ _ Hen') as [[? _]|[[Hm ->]|[(? & _)|(?&?&?&?& Hm')]]];
          [lia| |lia|].
        -- simpl. rewrite Hprev2 by exact Hp0. apply (Hpn 0 e0 ep He0 H0).
           by rewrite Hm.
        -- by apply (Hpn 0 e0 en').
      * destruct (Hok j ej Hj') as ([Hn1 Hn2] & _). fold L in Hn2.
        assert (next ej <> i) by (intros Hx; pose proof (Hpoint j ej Hj' Hu Hx); lia).
        assert (next ej <> L).
        { intros Hx. pose proof (Hlast j ej e0 Hj' Hu Hx He0). lia. }
        destruct (Hnode _ _ Hen') as [[? _]|[[Hm ->]|[(? & _)|(?&?&?&?& Hm')]]];
          [lia| |lia|].
        -- simpl. assert (p <> 0) by lia. rewrite Hprev2 by assumption.
           apply (Hpn j ej ep Hj' Hu). by rewrite Hm.
        -- by apply (Hpn j ej en').
    + intros j ej e0' Hj Hu Hnx He0'.
      rewrite length_insert in Hnx. unfold el3 in Hnx. rewrite length_insert, Hl2 in Hnx.
      destruct (Nat.eqb_spec j i) as [|Hji]; [discriminate|].
      assert (Hp0' : prev e0' = n).
      { destruct (Hnode _ _ He0') as [[? _]|[[Hm ->]|[(_ & _ & ->)|(_ & _ & ? & _)]]];
          [lia| |reflexivity|lia].
        simpl. unfold ep2. destruct (decide (p = 0)); [reflexivity|lia]. }
      rewrite Hp0'.
      destruct (Hnode j ej Hj) as [[-> ->]|[[-> ->]|[(-> & Hp0 & ->)|(?&?&?&?& Hj')]]];
        simpl in Hnx.
      * reflexivity.
      * lia.
      * destruct (Hok 0 e0 He0) as ([Hn1 Hn2] & _). fold L in Hn2. lia.
      * destruct (Hok j ej Hj') as ([Hn1 Hn2] & _). fold L in Hn2. lia.
  - (* the list keeps its length *)
    cbn [obind].
    rewrite (set_at_Some _ _ _ _ Hep). cbn [obind].
    destruct (lookup_lt_is_Some_2 el n ltac:(lia)) as [en Hen].
    assert (Hen1 : <[p := mk_dlink (prev ep) n]> el !! n = Some en).
    { rewrite list_lookup_insert_ne by lia. exact Hen. }
    rewrite (set_at_Some _ _ _ _ Hen1). cbn [obind].
    intros E. injection E as <-.
    assert (Hpen : prev en = i) by (by apply (Hpn i e en)).
    assert (Hnode : forall j ej,
      <[n := mk_dlink p (next en)]> (<[p := mk_dlink (prev ep) n]> el) !! j = Some ej ->
      (j = n /\ ej = mk_dlink p (next en)) \/
      (j = p /\ ej = mk_dlink (prev ep) n) \/
      (j <> n /\ j <> p /\ el !! j = Some ej)).
    { intros j ej Hj.
      destruct (decide (j = n)) as [->|Hjn].
      { left. rewrite list_lookup_insert_eq in Hj by (rewrite length_insert; lia).
        split; [done|congruence]. }
      rewrite list_lookup_insert_ne in Hj by congruence.
      destruct (decide (j = p)) as [->|Hjp].
      { right. left. rewrite list_lookup_insert_eq in Hj by lia.
        split; [done|congruence]. }
      rewrite list_lookup_insert_ne in Hj by congruence.
      right. right. by repeat split. }
    split; [exact Hvl'|].
    split; [destruct (Nat.eqb_spec 0 i); [lia|exact H0]|].
    split; [|split; [|split]].
    + intros j Hj. rewrite !length_insert in Hj.
      destruct (Nat.eqb_spec j i); [lia|]. apply Hbeyond. exact Hj.
    + intros j ej Hj Hu.
      destruct (Nat.eqb_spec j i) as [|Hji]; [discriminate|].
      destruct (Hok n en Hen) as ([Hn1 Hn2] & _).
      destruct (Hnode j ej Hj) as [[-> ->]|[[-> ->]|(?&?& Hj')]]; simpl.
      * destruct (Nat.eqb_spec (next en) i); [lia|]. by apply (Hvf n en).
      * destruct (Nat.eqb_spec n i); [lia|exact Hun].
      * destruct (Nat.eqb_spec (next ej) i) as [Hx|Hx].
        -- exfalso. pose proof (Hpoint j ej Hj' Hu Hx). lia.
        -- by apply (Hvf j ej).
    + intros j ej en' Hj Hu Hen'.
      destruct (Nat.eqb_spec j i) as [|Hji]; [discriminate|].
      destruct (Hok n en Hen) as ([Hn1 Hn2] & _).
      destruct (Hnode j ej Hj) as [[-> ->]|[[-> ->]|(?&?& Hj')]]; simpl in Hen'.
      * destruct (Hnode _ _ Hen') as [[? _]|[[? _]|(_ & _ & Hm)]]; [lia|lia|].
        by apply (Hpn n en en').
      * destruct (Hnode _ _ Hen') as [[_ ->]|[[? _]|(? & _)]]; [reflexivity|lia|lia].
      * destruct (Hok j ej Hj') as ([Hm1 Hm2] & _).
        assert (next ej <> i) by (intros Hx; pose proof (Hpoint j ej Hj' Hu Hx); lia).
        destruct (Hnode _ _ Hen') as [[Hm _]|[[Hm ->]|(_ & _ & Hm)]].
        -- exfalso. pose proof (Hpn j ej en Hj' Hu) as Hx.
           rewrite Hm in Hx. specialize (Hx Hen). lia.
        -- simpl. apply (Hpn j ej ep Hj' Hu). by rewrite Hm.
        -- by apply (Hpn j ej en').
    + intros j ej e0' Hj Hu Hnx He0'.
      rewrite !length_insert in Hnx.
      destruct (Nat.eqb_spec j i) as [|Hji]; [discriminate|].
      assert (Hp0' : prev e0' = prev e0).
      { destruct (Hnode _ _ He0') as [[? _]|[[Hm ->]|(_ & _ & Hm)]]; [lia| |congruence].
        simpl. rewrite <- Hm in Hep. congruence. }
      rewrite Hp0'.
      destruct (Hok n en Hen) as ([Hn1 Hn2] & _).
      destruct (Hnode j ej Hj) as [[-> ->]|[[-> ->]|(?&?& Hj')]]; simpl in Hnx.
      * by apply (Hlast n en e0).
      * fold L in Hnx. lia.
      * by apply (Hlast j ej e0).
Qed.

End vacant_list.

Local Open Scope nat_scope.


(** ** What the construction needs of an element layout

    [wf] singles out the elements the layout can hold (for the 4-byte
    layout, the 32-bit integers). Base values between [-max_base] and
    [max_base] are read back as they were set, check bytes too, and a
    setter leaves the other field alone. *)

Record element_laws (T : traits) (wf : elem T -> Prop) : Prop := {
  wf_default : wf (tr_default_value T);
  wf_set_base : forall e v, wf e -> wf (tr_set_base T e v);
  wf_set_check : forall e k, wf e -> wf (tr_set_check T e k);
  base_default : tr_get_base T (tr_default_value T) = 0%Z;
  base_set_base : forall e v,
    wf e -> (- tr_max_base T <= v <= tr_max_base T)%Z ->
    tr_get_base T (tr_set_base T e v) = v;
  check_set_base : forall e v,
    wf e -> (- tr_max_base T <= v <= tr_max_base T)%Z ->
    tr_get_check T (tr_set_base T e v) = tr_get_check T e;
  check_set_check : forall e k,
    wf e -> k < 256 -> tr_get_check T (tr_set_check T e k) = k;
  base_set_check : forall e k,
    wf e -> k < 256 -> tr_get_base T (tr_set_check T e k) = tr_get_base T e;
  max_base_pos : (1 <= tr_max_base T)%Z;
}.

Lemma element_laws4 : element_laws doublearray4_traits.t is_int32.
Proof.
  split; simpl.
  - unfold is_int32, doublearray4_traits.default_value. lia.
  - intros e v _. apply sint32_range.
  - intros e k _. apply sint32_range.
  - reflexivity.
  - intros e v _ Hv. apply get_base4_set_base.
    unfold doublearray4_traits.max_base in Hv. lia.
  - intros e v _ Hv. apply get_check4_set_base.
    unfold doublearray4_traits.max_base in Hv. lia.
  - intros e k _ Hk. by apply get_check4_set_check.
  - intros e k He Hk. by apply get_base4_set_check.
  - unfold doublearray4_traits.max_base. lia.
Qed.

Lemma element_laws5 : element_laws doublearray5_traits.t (fun _ => True).
Proof.
  split; simpl; try done.
  - intros e v _ Hv. apply get_base5_set_base.
    unfold doublearray5_traits.max_base, is_int32 in *. lia.
Qed.

Section strong.
Context (T : traits) {V : Type} {codec : value_codec V}.
Context (wf : elem T -> Prop).
Hypothesis laws : element_laws T wf.

(** the invariant of the builder: the vacant list names free elements only *)
Definition binv (b : builder.t T) : Prop :=
  linv (m_elink T b) (da_in_use T b) /\ Forall wf (m_da T b).

Lemma binv_vl b : binv b -> vl_ok (m_elink T b).
Proof. by intros [[? _] _]. Qed.

(** an element in use keeps its place: the double array only changes at
    free elements *)
Definition keeps_used (da da' : list (elem T)) : Prop :=
  forall i e, da !! i = Some e -> tr_get_base T e <> 0%Z -> da' !! i = Some e.

Lemma keeps_used_refl da : keeps_used da da.
Proof. by intros i e H _. Qed.

Lemma keeps_used_trans da1 da2 da3 :
  keeps_used da1 da2 -> keeps_used da2 da3 -> keeps_used da1 da3.
Proof. intros H1 H2 i e Hi He. apply H2; [by apply H1|exact He]. Qed.

Lemma keeps_used_in_use b b' i :
  keeps_used (m_da T b) (m_da T b') ->
  da_in_use T b i = true -> da_in_use T b' i = true.
Proof.
  intros Hk. unfold da_in_use.
  destruct (m_da T b !! i) as [e|] eqn:E; [|discriminate].
  intros Hu. rewrite (Hk i e E); [exact Hu|].
  destruct (Z.eqb_spec (tr_get_base T e) 0); [discriminate|assumption].
Qed.

Lemma in_use_lt b i : da_in_use T b i = true -> i < length (m_da T b).
Proof.
  unfold da_in_use. destruct (m_da T b !! i) eqn:E; [|discriminate].
  intros _. by apply lookup_lt_Some in E.
Qed.

(** *** da_expand *)

Lemma da_expand_lookup (b : builder.t T) size i :
  i < length (m_da T b) -> m_da T (da_expand T b size) !! i = m_da T b !! i.
Proof.
  intros Hi. unfold da_expand. destruct (Nat.ltb_spec (length (m_da T b)) size).
  - simpl. apply lookup_resize_old; lia.
  - reflexivity.
Qed.

Lemma da_expand_same_use (b : builder.t T) size j :
  da_in_use T (da_expand T b size) j = da_in_use T b j.
Proof.
  unfold da_expand. destruct (Nat.ltb_spec (length (m_da T b)) size) as [Hlt|];
    [|reflexivity].
  unfold da_in_use. simpl.
  destruct (Nat.lt_ge_cases j (length (m_da T b))) as [Hin|Hout].
  - by rewrite lookup_resize_old by lia.
  - rewrite (lookup_ge_None_2 (m_da T b)) by lia.
    destruct (Nat.lt_ge_cases j size) as [Hs|Hs].
    + rewrite lookup_resize_new by lia. by rewrite (base_default _ _ laws).
    + by rewrite (lookup_ge_None_2 (resize _ _ _)) by (rewrite length_resize; lia).
Qed.

Lemma da_expand_wf (b : builder.t T) size :
  Forall wf (m_da T b) -> Forall wf (m_da T (da_expand T b size)).
Proof.
  intros H. unfold da_expand. destruct (_ <? _); [|exact H]. simpl.
  unfold resize. apply Forall_app. split.
  - by apply Forall_take.
  - apply Forall_replicate. apply (wf_default _ _ laws).
Qed.

(** *** set_base and set_check *)

Lemma set_base_inv (b : builder.t T) i v b' :
  set_base T b i v = Ok b' ->
  exists e, m_da T b !! i = Some e /\
            b' = with_da T b (<[i := tr_set_base T e v]> (m_da T b)).
Proof.
  unfold set_base, set_at. destruct (m_da T b !! i) as [e|]; [|discriminate].
  cbn [obind]. intros H. injection H as <-. by exists e.
Qed.

Lemma set_check_inv (b : builder.t T) i k b' :
  set_check T b i k = Ok b' ->
  exists e, m_da T b !! i = Some e /\
            b' = with_da T b (<[i := tr_set_check T e k]> (m_da T b)).
Proof.
  unfold set_check, set_at. destruct (m_da T b !! i) as [e|]; [|discriminate].
  cbn [obind]. intros H. injection H as <-. by exists e.
Qed.

Definition base_range (v : Z) : Prop :=
  (- tr_max_base T <= v <= tr_max_base T)%Z.

Lemma in_use_insert_base (b : builder.t T) i e v j :
  m_da T b !! i = Some e -> wf e -> base_range v -> v <> 0%Z ->
  da_in_use T (with_da T b (<[i := tr_set_base T e v]> (m_da T b))) j
  = if j =? i then true else da_in_use T b j.
Proof.
  intros Hi Hwf Hv Hv0. unfold da_in_use. simpl.
  destruct (Nat.eqb_spec j i) as [->|Hne].
  - rewrite list_lookup_insert_eq by (by apply lookup_lt_Some in Hi).
    rewrite (base_set_base _ _ laws) by assumption.
    by destruct (Z.eqb_spec v 0).
  - by rewrite list_lookup_insert_ne by congruence.
Qed.

Lemma in_use_insert_check (b : builder.t T) i e k j :
  m_da T b !! i = Some e -> wf e -> k < 256 ->
  da_in_use T (with_da T b (<[i := tr_set_check T e k]> (m_da T b))) j
  = da_in_use T b j.
Proof.
  intros Hi Hwf Hk. unfold da_in_use. simpl.
  destruct (decide (j = i)) as [->|Hne].
  - rewrite list_lookup_insert_eq by (by apply lookup_lt_Some in Hi).
    rewrite (base_set_check _ _ laws) by assumption. by rewrite Hi.
  - by rewrite list_lookup_insert_ne by congruence.
Qed.

Lemma wf_lookup (b : builder.t T) i e :
  Forall wf (m_da T b) -> m_da T b !! i = Some e -> wf e.
Proof. intros H Hi. rewrite list.Forall_forall in H. apply H. by eapply list_elem_of_lookup_2. Qed.

Lemma insert_wf (da : list (elem T)) i e :
  Forall wf da -> wf e -> Forall wf (<[i := e]> da).
Proof. intros H He. by apply Forall_insert. Qed.

(** *** Taking a free element into use *)

Lemma use_element (b : builder.t T) i v b1 b2 :
  binv b -> 1 <= i < length (m_elink T b) -> da_in_use T b i = false ->
  base_range v -> v <> 0%Z ->
  set_base T b i v = Ok b1 -> vlist_use T b1 i = Ok b2 ->
  binv b2 /\
  length (m_da T b2) = length (m_da T b) /\
  same_rest T b b2 /\
  length (m_elink T b) <= length (m_elink T b2) /\
  (forall j, da_in_use T b2 j = if j =? i then true else da_in_use T b j) /\
  (forall j, j <> i -> m_da T b2 !! j = m_da T b !! j).
Proof.
  intros [Hl Hwf] Hi Hfree Hv Hv0 E1 E2.
  destruct (set_base_inv _ _ _ _ E1) as (e & He & ->).
  pose proof (wf_lookup b i e Hwf He) as Hwe.
  destruct (vlist_use_linv T (with_da T b (<[i := tr_set_base T e v]> (m_da T b)))
              i (da_in_use T b) Hl Hi Hfree) as (el & E & Hl' & Hlen).
  rewrite E in E2. injection E2 as <-. simpl in *.
  split; [split|].
  - eapply linv_ext; [|exact Hl']. intros j. simpl.
    symmetry. by apply in_use_insert_base.
  - simpl. apply insert_wf; [exact Hwf|]. by apply (wf_set_base _ _ laws).
  - split; [by rewrite length_insert|]. split; [by repeat split|].
    split; [lia|]. split.
    + intros j.
      change (da_in_use T (with_elink T
                (with_da T b (<[i := tr_set_base T e v]> (m_da T b))) el) j)
        with (da_in_use T (with_da T b (<[i := tr_set_base T e v]> (m_da T b))) j).
      by apply in_use_insert_base.
    + intros j Hj. by apply list_lookup_insert_ne.
Qed.

(** *** The search for a base *)

Lemma vlist_next_free (b : builder.t T) i :
  binv b -> da_in_use T b i = false -> da_in_use T b (vlist_next T b i) = false.
Proof.
  intros [(Hvl & H0 & Hbeyond & Hvf & _) _] Hi. unfold vlist_next.
  destruct (m_elink T b !! i) as [e|] eqn:E.
  - by apply (Hvf i e).
  - apply Hbeyond. apply lookup_ge_None_1 in E. lia.
Qed.

(** what the search returns, when it returns *)
Definition base_found (b : builder.t T) (children : list (child_t (V:=V)))
    (max_offset base : nat) (b' : builder.t T) : Prop :=
  binv b' /\
  1 <= base /\
  base + max_offset < length (m_da T b') /\
  base + max_offset < length (m_elink T b') /\
  (forall ch, ch ∈ children -> da_in_use T b' (base + offset ch) = false) /\
  m_used_bases T b !! base <> Some true /\
  (forall j, da_in_use T b' j = da_in_use T b j) /\
  (forall j, j < length (m_da T b) -> m_da T b' !! j = m_da T b !! j) /\
  length (m_da T b) <= length (m_da T b') /\
  same_rest T b b'.

Lemma find_base_post fuel : forall (b : builder.t T) children max_offset index
    ch0 rest base b',
  children = ch0 :: rest ->
  binv b -> da_in_use T b index = false ->
  (forall ch : child_t (V:=V), ch ∈ children -> offset ch <= max_offset) ->
  find_base T fuel b children max_offset index = Ok (base, b') ->
  base_found b children max_offset base b'.
Proof.
  induction fuel as [|fuel IH];
    intros b children max_offset index ch0 rest base b' Hch Hinv Hfree Hoff E;
    [discriminate|].
  subst children. cbn [find_base at_ lookup list_lookup obind] in E.
  pose proof (vlist_next_free b index Hinv Hfree) as Hfree'.
  set (index' := vlist_next T b index) in *.
  (* a further round, in a builder whose arrays have grown *)
  assert (Hcont : forall b1,
    binv b1 -> (forall j, da_in_use T b1 j = da_in_use T b j) ->
    (forall j, j < length (m_da T b) -> m_da T b1 !! j = m_da T b !! j) ->
    length (m_da T b) <= length (m_da T b1) -> same_rest T b b1 ->
    find_base T fuel b1 (ch0 :: rest) max_offset index' = Ok (base, b') ->
    base_found b (ch0 :: rest) max_offset base b').
  { intros b1 Hinv1 Huse1 Hda1 Hlen1 Hrest1 E1.
    destruct (IH b1 (ch0 :: rest) max_offset index' ch0 rest base b')
      as (H1 & H2 & H3 & H4 & H5 & H6 & H7 & H8 & H9 & H10);
      [reflexivity | exact Hinv1 | by rewrite Huse1 | exact Hoff | exact E1 |].
    split; [exact H1|]. split; [exact H2|]. split; [exact H3|]. split; [exact H4|].
    split; [exact H5|].
    split; [destruct Hrest1 as (_ & _ & _ & <-); exact H6|].
    split; [intros j; by rewrite H7|].
    split; [intros j Hj; rewrite H8 by lia; by apply Hda1|].
    split; [lia|]. eapply same_rest_trans; eassumption. }
  destruct (Nat.ltb_spec index' (INITIAL_INDEX + offset ch0)) as [Hsmall|Hbig].
  { apply (Hcont b); try done; apply same_rest_refl. }
  unfold INITIAL_INDEX in Hbig.
  set (base0 := index' - offset ch0) in *.
  destruct (match m_used_bases T b !! base0 with Some u => u | None => false end)
    eqn:Eu.
  { apply (Hcont b); try done; apply same_rest_refl. }
  destruct Hinv as [Hl Hwf].
  destruct (vlist_expand_linv T (da_expand T b (base0 + max_offset + 1))
              (base0 + max_offset + 1) (da_in_use T b)) as (el & Ee & Hl2 & Hlen2).
  { rewrite (proj2 (da_expand_rest T b _)). exact Hl. }
  rewrite Ee in E. cbn [obind] in E.
  set (b2 := with_elink T (da_expand T b (base0 + max_offset + 1)) el) in *.
  assert (Huse2 : forall j, da_in_use T b2 j = da_in_use T b j).
  { intros j. apply da_expand_same_use. }
  assert (Hinv2 : binv b2).
  { split.
    - eapply linv_ext; [|exact Hl2]. intros j. by rewrite Huse2.
    - by apply da_expand_wf. }
  assert (Hda2 : forall j, j < length (m_da T b) -> m_da T b2 !! j = m_da T b !! j).
  { intros j Hj. by apply da_expand_lookup. }
  assert (Hlenda2 : length (m_da T b2)
                    = Nat.max (length (m_da T b)) (base0 + max_offset + 1)).
  { apply da_expand_length. }
  assert (Hrest2 : same_rest T b b2).
  { destruct (da_expand_rest T b (base0 + max_offset + 1)) as [(?&?&?&?) _].
    by repeat split. }
  destruct (forallb _ _) eqn:Efa.
  - injection E as <- <-.
    split; [exact Hinv2|]. split; [lia|]. split; [lia|].
    split.
    { rewrite (proj2 (da_expand_rest T b _)) in Hlen2.
      change (m_elink T b2) with el. lia. }
    split.
    { intros ch Hin. apply elem_of_cons in Hin as [->|Hin].
      - rewrite Huse2. by replace (base0 + offset ch0) with index' by (unfold base0; lia).
      - rewrite forallb_forall in Efa.
        specialize (Efa ch). rewrite negb_true_iff in Efa. apply Efa.
        by apply list_elem_of_In. }
    split.
    { destruct (m_used_bases T b !! base0) as [[]|]; congruence. }
    split; [exact Huse2|]. split; [exact Hda2|]. split; [lia|exact Hrest2].
  - apply (Hcont b2); try done; lia.
Qed.

(** *** Reserving the elements of the children *)

Lemma reserve_post (children : list (child_t (V:=V))) :
  forall (b : builder.t T) base b',
  binv b ->
  (forall ch, ch ∈ children ->
     1 <= base + offset ch /\ base + offset ch < length (m_elink T b) /\
     da_in_use T b (base + offset ch) = false) ->
  NoDup (map offset children) ->
  reserve T b base children = Ok b' ->
  binv b' /\
  length (m_da T b') = length (m_da T b) /\
  same_rest T b b' /\
  (forall ch, ch ∈ children -> da_in_use T b' (base + offset ch) = true) /\
  (forall j, da_in_use T b j = true -> da_in_use T b' j = true) /\
  (forall j, (forall ch, ch ∈ children -> j <> base + offset ch) ->
     m_da T b' !! j = m_da T b !! j).
Proof.
  induction children as [|ch children IH]; intros b base b' Hinv Hch Hnd E;
    simpl in E.
  - injection E as <-. split; [exact Hinv|]. split; [reflexivity|].
    split; [apply same_rest_refl|]. split; [intros ch Hin; by apply elem_of_nil in Hin|].
    split; done.
  - destruct (set_base T b (base + offset ch) 1) as [b1| | | |] eqn:E1;
      try discriminate. cbn [obind] in E.
    destruct (vlist_use T b1 (base + offset ch)) as [b2| | | |] eqn:E2;
      try discriminate. cbn [obind] in E.
    destruct (Hch ch ltac:(left)) as (Hs1 & Hs2 & Hs3).
    destruct (use_element b (base + offset ch) 1 b1 b2 Hinv)
      as (Hinv2 & Hlen2 & Hrest2 & Hel2 & Huse2 & Hda2); try done.
    { pose proof (max_base_pos _ _ laws). unfold base_range. lia. }
    apply list.NoDup_cons in Hnd as [Hnotin Hnd]. simpl in Hnotin.
    destruct (IH b2 base b' Hinv2) as (H1 & H2 & H3 & H4 & H5 & H6);
      [|exact Hnd|exact E|].
    { intros x Hx. destruct (Hch x ltac:(by right)) as (Hx1 & Hx2 & Hx3).
      split; [exact Hx1|]. split; [lia|]. rewrite Huse2.
      destruct (Nat.eqb_spec (base + offset x) (base + offset ch)) as [Heq|_];
        [|exact Hx3].
      exfalso. apply Hnotin. apply list_elem_of_fmap. exists x. split; [lia|exact Hx]. }
    split; [exact H1|]. split; [lia|].
    split; [eapply same_rest_trans; eassumption|].
    split.
    { intros x Hx. apply elem_of_cons in Hx as [->|Hx]; [|by apply H4].
      apply H5. rewrite Huse2. by rewrite Nat.eqb_refl. }
    split.
    { intros j Hj. apply H5. rewrite Huse2. destruct (_ =? _); done. }
    intros j Hj. rewrite H6.
    + apply Hda2. apply Hj. left.
    + intros x Hx. apply Hj. by right.
Qed.

End strong.

Local Open Scope nat_scope.


(** ** What arrange leaves in the double array and the tail array *)

(** the character table is a rearrangement of the 256 byte values *)
Definition table_ok (table : list nat) : Prop :=
  Permutation table (seq 0 NUMCHARS).

Lemma table_ok_length table : table_ok table -> length table = NUMCHARS.
Proof. intros H. unfold table_ok in H. rewrite H. apply length_seq. Qed.

Lemma table_ok_lt table c tc : table_ok table -> table !! c = Some tc -> tc < 256.
Proof.
  intros H Hc. unfold table_ok in H. apply list_elem_of_lookup_2 in Hc. rewrite H in Hc.
  apply elem_of_seq in Hc. unfold NUMCHARS in Hc. lia.
Qed.

Lemma table_ok_inj table c d tc :
  table_ok table -> table !! c = Some tc -> table !! d = Some tc -> c = d.
Proof.
  intros H Hc Hd. unfold table_ok in H. eapply NoDup_lookup; [|exact Hc|exact Hd].
  rewrite H. apply NoDup_seq.
Qed.

Section children_link.
Context {V : Type}.

(** the offset of a child is the rank of its byte in the table, plus one *)
Definition linked (table : list nat) (ch : child_t (V:=V)) : Prop :=
  exists tc, table !! c ch = Some tc /\ offset ch = tc + 1.

Lemma list_children_linked table p rs : forall pc children mo children' mo',
  (forall ch, ch ∈ children -> linked table ch) ->
  list_children table p pc children mo rs = Ok (children', mo') ->
  forall ch, ch ∈ children' -> linked table ch.
Proof.
  induction rs as [|r rs IH]; intros pc children mo children' mo' Hch H; simpl in H.
  - by injection H as <- <-.
  - destruct (key_at (key r) p) as [cc| | | |]; try discriminate. cbn [obind] in H.
    destruct (pc <? Z.of_nat cc)%Z.
    + destruct (at_ table cc) as [tc| | | |] eqn:Et; try discriminate.
      cbn [obind] in H. eapply IH; [|exact H].
      intros ch Hin. apply elem_of_app in Hin as [Hin|Hin]; [by apply Hch|].
      apply list_elem_of_singleton in Hin as ->. exists tc. split; [|reflexivity].
      simpl. unfold at_ in Et. by destruct (table !! cc); [injection Et as ->|].
    + destruct (Z.of_nat cc <? pc)%Z; [discriminate|].
      eapply IH; [|exact H].
      intros ch Hin. unfold add_to_last in Hin.
      destruct children as [|x children0] eqn:Ec; [by apply elem_of_nil in Hin|].
      rewrite <- Ec in *.
      apply list_elem_of_lookup in Hin as [i Hi].
      destruct (decide (i = length children - 1)) as [->|Hne].
      * rewrite list_lookup_alter_eq in Hi.
        destruct (children !! (length children - 1)) as [y|] eqn:Ey; [|discriminate].
        injection Hi as <-.
        destruct (Hch y (list_elem_of_lookup_2 _ _ _ Ey)) as (tc & ? & ?).
        by exists tc.
      * rewrite list_lookup_alter_ne in Hi by congruence.
        apply Hch. by eapply list_elem_of_lookup_2.
Qed.

(** the bytes of the children go up, so their offsets are distinct *)
Lemma adjacent_lt_lookup (children : list (child_t (V:=V))) :
  adjacent_lt children ->
  forall d i x y, children !! i = Some x -> children !! (i + S d) = Some y ->
                  c x < c y.
Proof.
  intros Hadj. induction d as [|d IH]; intros i x y Hx Hy.
  - apply (Hadj i x y Hx). by rewrite Nat.add_1_r in Hy.
  - destruct (lookup_lt_is_Some_2 children (i + S d)) as [z Hz].
    { apply lookup_lt_Some in Hy. lia. }
    pose proof (IH i x z Hx Hz).
    pose proof (Hadj (i + S d) z y Hz) as Hzy.
    replace (S (i + S d)) with (i + S (S d)) in Hzy by lia.
    specialize (Hzy Hy). lia.
Qed.

Lemma offsets_distinct table (children : list (child_t (V:=V))) :
  table_ok table -> adjacent_lt children ->
  (forall ch, ch ∈ children -> linked table ch) ->
  NoDup (map offset children).
Proof.
  intros Ht Hadj Hl. apply NoDup_alt. intros i j o Hi Hj.
  rewrite list_lookup_fmap in Hi, Hj.
  destruct (children !! i) as [x|] eqn:Ex; [|discriminate].
  destruct (children !! j) as [y|] eqn:Ey; [|discriminate].
  simpl in Hi, Hj. injection Hi as Hi. injection Hj as Hj.
  destruct (Hl x (list_elem_of_lookup_2 _ _ _ Ex)) as (tx & Htx & Hox).
  destruct (Hl y (list_elem_of_lookup_2 _ _ _ Ey)) as (ty & Hty & Hoy).
  assert (tx = ty) by lia. subst ty.
  pose proof (table_ok_inj table _ _ _ Ht Htx Hty) as Hc.
  destruct (Nat.lt_trichotomy i j) as [Hlt|[Heq|Hgt]]; [|exact Heq|].
  - pose proof (adjacent_lt_lookup children Hadj (j - i - 1) i x y Ex) as H.
    replace (i + S (j - i - 1)) with j in H by lia. specialize (H Ey). lia.
  - pose proof (adjacent_lt_lookup children Hadj (i - j - 1) j y x Ey) as H.
    replace (j + S (i - j - 1)) with i in H by lia. specialize (H Ex). lia.
Qed.

Lemma flat_elem (children : list (child_t (V:=V))) r :
  r ∈ flat children -> exists ch, ch ∈ children /\ r ∈ range ch.
Proof.
  unfold flat. intros H. apply list_elem_of_In, in_concat in H as (l & Hl & Hr).
  apply in_map_iff in Hl as (ch & <- & Hch).
  exists ch. split; by apply list_elem_of_In.
Qed.

End children_link.

Section paths.
Context (T : traits) {V : Type} {codec : value_codec V}.
Context (wf : elem T -> Prop).
Hypothesis laws : element_laws T wf.
(* the bytes a value is written as *)
Context (enc : V -> list nat).
Hypothesis put_enc : forall o v, put o v = o ++ enc v.

(** the tail array holds, from offset [off] on, the string [s] with its
    terminator and then the value [v] *)
Definition stored (tail : list nat) (off : nat) (s : list nat) (v : V) : Prop :=
  off <= length tail /\ exists rest, drop off tail = s ++ [0] ++ enc v ++ rest.

Lemma stored_app tail ext off s v :
  stored tail off s v -> stored (tail ++ ext) off s v.
Proof.
  intros [Hoff [rest Hd]]. split; [rewrite length_app; lia|].
  exists (rest ++ ext). rewrite drop_app_le by exact Hoff.
  rewrite Hd. by rewrite <- !app_assoc.
Qed.

(** From a node whose BASE value is [v], reached after [p] bytes of the
    key of [r], the elements of the double array lead to a leaf whose
    tail entry is the rest of the key and the value of [r]. [F] tells
    which elements the way may use. *)
Inductive path (da : list (elem T)) (tail table : list nat) (F : nat -> Prop)
    : Z -> nat -> record_type V -> Prop :=
  | path_leaf v p r :
      (v < 0)%Z ->
      stored tail (Z.to_nat (- v)) (drop p (key r)) (value r) ->
      path da tail table F v p r
  | path_node v p r tc e :
      (0 < v)%Z ->
      table !! key_byte p r = Some tc ->
      F (Z.to_nat v + tc + 1) ->
      da !! (Z.to_nat v + tc + 1) = Some e ->
      tr_get_check T e = tc ->
      (key_byte p r = 0 -> (tr_get_base T e < 0)%Z) ->
      path da tail table F (tr_get_base T e)
           (if key_byte p r =? 0 then p else p + 1) r ->
      path da tail table F v p r.

Lemma path_nonzero da tail table F v p r :
  path da tail table F v p r -> v <> 0%Z.
Proof. destruct 1; lia. Qed.

Lemma path_stable da tail table F da' tail' v p r :
  path da tail table F v p r ->
  (forall i e, F i -> da !! i = Some e -> tr_get_base T e <> 0%Z ->
               da' !! i = Some e) ->
  (exists ext, tail' = tail ++ ext) ->
  path da' tail' table F v p r.
Proof.
  intros H Hda [ext ->]. induction H as [v p r Hv Hs|v p r tc e Hv Ht HF He Hc H0 Hp IH].
  - apply path_leaf; [exact Hv|]. by apply stored_app.
  - eapply path_node; try eassumption.
    apply Hda; [exact HF|exact He|]. by eapply path_nonzero.
Qed.

Lemma path_weaken da tail table (F F' : nat -> Prop) v p r :
  (forall i, F i -> F' i) ->
  path da tail table F v p r -> path da tail table F' v p r.
Proof.
  intros HF H. induction H as [v p r Hv Hs|v p r tc e Hv Ht HFs He Hc H0 Hp IH].
  - by apply path_leaf.
  - eapply path_node; try eassumption. by apply HF.
Qed.

(** the parts of the builder that only grow *)
Definition extends (b b' : builder.t T) : Prop :=
  keeps_used T (m_da T b) (m_da T b') /\
  length (m_da T b) <= length (m_da T b') /\
  (exists ext, m_tail T b' = m_tail T b ++ ext) /\
  m_table T b' = m_table T b.

Definition free (b : builder.t T) (i : nat) : Prop := da_in_use T b i = false.

Definition arrange_post (b : builder.t T) (p : nat) (rs : list (record_type V))
    (v : Z) (b' : builder.t T) : Prop :=
  binv T wf b' /\ extends b b' /\ base_range T v /\
  (length rs = 1 -> (v < 0)%Z) /\ (length rs <> 1 -> (0 < v)%Z) /\
  forall r, r ∈ rs ->
    path (m_da T b') (m_tail T b') (m_table T b) (free b) v p r.

Definition arrange_post_at (fuel : nat) : Prop :=
  forall p rs (b : builder.t T) v b',
    binv T wf b -> table_ok (m_table T b) -> 1 <= length (m_tail T b) ->
    rs <> [] -> keys_ok p rs ->
    arrange T fuel p rs b = Ok (v, b') ->
    arrange_post b p rs v b'.

(** the position a child is arranged at *)
Definition child_pos (p : nat) (ch : child_t (V:=V)) : nat :=
  if c ch =? 0 then p else p + 1.

Lemma set_children_post fuel p base (children : list (child_t (V:=V))) :
  arrange_post_at fuel ->
  forall (b b' : builder.t T),
    binv T wf b -> table_ok (m_table T b) -> 1 <= length (m_tail T b) ->
    (forall ch, ch ∈ children ->
       uniform p ch /\ keys_ok p (range ch) /\
       1 <= offset ch <= 256 /\
       da_in_use T b (base + offset ch) = true) ->
    NoDup (map offset children) ->
    set_children T (arrange T fuel) p base children b = Ok b' ->
    binv T wf b' /\
    length (m_da T b) <= length (m_da T b') /\
    (exists ext, m_tail T b' = m_tail T b ++ ext) /\
    m_table T b' = m_table T b /\
    (forall j, da_in_use T b j = true -> da_in_use T b' j = true) /\
    (forall i e, m_da T b !! i = Some e -> tr_get_base T e <> 0%Z ->
       (forall ch, ch ∈ children -> i <> base + offset ch) ->
       m_da T b' !! i = Some e) /\
    (forall ch, ch ∈ children ->
       exists e, m_da T b' !! (base + offset ch) = Some e /\
         tr_get_check T e = offset ch - 1 /\
         (c ch = 0 -> (tr_get_base T e < 0)%Z) /\
         forall r, r ∈ range ch ->
           path (m_da T b') (m_tail T b') (m_table T b) (free b)
                (tr_get_base T e) (child_pos p ch) r).
Proof.
  intros IH. induction children as [|ch children IHc];
    intros b b' Hinv Htab Htail Hch Hnd E.
  - injection E as <-. split; [exact Hinv|]. split; [lia|].
    split; [exists []; by rewrite app_nil_r|]. split; [reflexivity|].
    split; [done|]. split; [done|].
    intros ch Hin. by apply elem_of_nil in Hin.
  - cbn [set_children] in E.
    destruct (Hch ch ltac:(left)) as ([Hne Hu] & Hk & Hoff & Huse).
    (* the value for this child *)
    assert (Hthis : exists v b1,
      (if negb (c ch =? 0) then arrange T fuel (p + 1) (range ch) b
       else if negb (length (range ch) =? 1) then Throw DuplicateKey
       else arrange T fuel p (range ch) b) = Ok (v, b1) /\
      arrange_post b (child_pos p ch) (range ch) v b1 /\
      (c ch = 0 -> (v < 0)%Z)).
    { destruct (if negb (c ch =? 0) then arrange T fuel (p + 1) (range ch) b
                else if negb (length (range ch) =? 1) then Throw DuplicateKey
                else arrange T fuel p (range ch) b) as [[v b1]| | | |] eqn:Ea;
        try discriminate.
      exists v, b1. split; [reflexivity|].
      unfold child_pos.
      destruct (Nat.eqb_spec (c ch) 0) as [Hc0|Hc0]; cbn [negb] in Ea.
      - destruct (Nat.eqb_spec (length (range ch)) 1) as [Hl|Hl]; cbn [negb] in Ea;
          [|discriminate].
        pose proof (IH p (range ch) b v b1 Hinv Htab Htail Hne Hk Ea) as Hpost.
        split; [exact Hpost|]. intros _.
        destruct Hpost as (_ & _ & _ & Hneg & _). by apply Hneg.
      - split; [|done].
        apply (IH (p + 1) (range ch) b v b1 Hinv Htab Htail Hne); [|exact Ea].
        intros r Hr. destruct (Hk r Hr) as [Hp Hb]. split; [|exact Hb].
        assert (p < length (key r)); [|lia].
        apply key_byte_nonzero. by rewrite (Hu r Hr). }
    destruct Hthis as (v & b1 & Ex & Hpost & Hneg). rewrite Ex in E. clear Ex.
    cbn [obind] in E.
    destruct Hpost as (Hinv1 & (Hkeep1 & Hlen1 & [ext1 Htail1] & Htab1) & Hv & _ & _ & Hpaths).
    assert (Hv0 : v <> 0%Z).
    { destruct (range ch) as [|r0 ?] eqn:Er; [contradiction|].
      eapply path_nonzero. apply (Hpaths r0). left. }
    set (slot := base + offset ch) in *.
    destruct (set_base T b1 slot v) as [b2| | | |] eqn:E2; try discriminate.
    cbn [obind] in E.
    destruct (set_check T b2 slot ((offset ch - 1) mod 256)) as [b3| | | |] eqn:E3;
      try discriminate.
    cbn [obind] in E.
    destruct (set_base_inv T _ _ _ _ E2) as (e1 & He1 & ->).
    destruct (set_check_inv T _ _ _ _ E3) as (e2 & He2 & ->).
    simpl in He2.
    rewrite list_lookup_insert_eq in He2 by (by apply lookup_lt_Some in He1).
    injection He2 as <-.
    simpl in E. rewrite list_insert_insert_eq in E.
    set (e3 := tr_set_check T (tr_set_base T e1 v) ((offset ch - 1) mod 256)) in *.
    set (b3 := with_da T (with_da T b1 (<[slot := tr_set_base T e1 v]> (m_da T b1)))
                 (<[slot := e3]> (m_da T b1))) in *.
    destruct Hinv1 as [Hl1 Hwf1].
    pose proof (wf_lookup T wf b1 slot e1 Hwf1 He1) as Hwe1.
    assert (Hmod : (offset ch - 1) mod 256 = offset ch - 1)
      by (apply Nat.mod_small; lia).
    assert (Hbase3 : tr_get_base T e3 = v).
    { unfold e3. rewrite (base_set_check _ _ laws), (base_set_base _ _ laws);
        try done; [by apply (wf_set_base _ _ laws)|rewrite Hmod; lia]. }
    assert (Hcheck3 : tr_get_check T e3 = offset ch - 1).
    { unfold e3. rewrite (check_set_check _ _ laws);
        [exact Hmod|by apply (wf_set_base _ _ laws)|rewrite Hmod; lia]. }
    assert (Huse1 : da_in_use T b1 slot = true).
    { eapply keeps_used_in_use; [exact Hkeep1|exact Huse]. }
    assert (Huse3 : forall j, da_in_use T b3 j = da_in_use T b1 j).
    { intros j. unfold da_in_use, b3. simpl.
      destruct (decide (j = slot)) as [->|Hj].
      - rewrite list_lookup_insert_eq by (by apply lookup_lt_Some in He1).
        rewrite Hbase3. unfold da_in_use in Huse1.
        rewrite Huse1. by destruct (Z.eqb_spec v 0).
      - by rewrite list_lookup_insert_ne by congruence. }
    assert (Hinv3 : binv T wf b3).
    { split.
      - eapply linv_ext; [|exact Hl1]. intros j. by rewrite Huse3.
      - unfold b3. simpl. apply insert_wf; [exact Hwf1|].
        unfold e3. apply (wf_set_check _ _ laws). by apply (wf_set_base _ _ laws). }
    assert (Htab3 : m_table T b3 = m_table T b) by exact Htab1.
    apply list.NoDup_cons in Hnd as [Hnotin Hnd]. simpl in Hnotin.
    assert (Hother : forall x, x ∈ children -> base + offset x <> slot).
    { intros x Hx Heq. apply Hnotin. apply list_elem_of_fmap. exists x.
      split; [unfold slot in Heq; lia|exact Hx]. }
    destruct (IHc b3 b' Hinv3) as (H1 & H2 & [ext3 H3] & H4 & H5 & H6 & H7);
      [by rewrite Htab3 | | | exact Hnd | exact E |].
    { change (m_tail T b3) with (m_tail T b1). rewrite Htail1, length_app. lia. }
    { intros x Hx. destruct (Hch x ltac:(by right)) as (Hux & Hkx & Hox & Husex).
      split; [exact Hux|]. split; [exact Hkx|]. split; [exact Hox|].
      rewrite Huse3. eapply keeps_used_in_use; [exact Hkeep1|exact Husex]. }
    change (m_tail T b3) with (m_tail T b1) in H3.
    change (length (m_da T b3)) with (length (<[slot := e3]> (m_da T b1))) in H2.
    rewrite length_insert in H2.
    assert (Hslot3 : m_da T b3 !! slot = Some e3).
    { unfold b3. simpl. apply list_lookup_insert_eq. by apply lookup_lt_Some in He1. }
    assert (Hslot' : m_da T b' !! slot = Some e3).
    { apply H6; [exact Hslot3|by rewrite Hbase3|].
      intros x Hx Heq. by apply (Hother x Hx). }
    (* elements that were free before this child are kept from b1 on *)
    assert (Hkeep13 : forall i e, free b i -> m_da T b1 !! i = Some e ->
              tr_get_base T e <> 0%Z -> m_da T b' !! i = Some e).
    { intros i e Hfree Hi He.
      assert (Hne_slot : i <> slot).
      { intros ->. unfold free in Hfree. congruence. }
      apply H6.
      - unfold b3. simpl. by rewrite list_lookup_insert_ne by congruence.
      - exact He.
      - intros x Hx ->.
        destruct (Hch x ltac:(by right)) as (_ & _ & _ & Husex).
        unfold free in Hfree. congruence. }
    split; [exact H1|]. split; [lia|].
    split; [exists (ext1 ++ ext3); by rewrite H3, Htail1, <- app_assoc|].
    split; [congruence|].
    split.
    { intros j Hj. apply H5. rewrite Huse3.
      eapply keeps_used_in_use; [exact Hkeep1|exact Hj]. }
    split.
    { intros i e Hi He Hnot. apply H6.
      - unfold b3. simpl. rewrite list_lookup_insert_ne.
        + by apply Hkeep1.
        + intros <-. by apply (Hnot ch ltac:(left)).
      - exact He.
      - intros x Hx. apply Hnot. by right. }
    intros x Hx. apply elem_of_cons in Hx as [->|Hx].
    + exists e3. split; [exact Hslot'|]. split; [exact Hcheck3|].
      split; [rewrite Hbase3; exact Hneg|].
      intros r Hr. rewrite Hbase3. rewrite <- Htab1.
      eapply path_stable; [rewrite Htab1; by apply Hpaths| |].
      * intros i e HF Hi He. by apply Hkeep13.
      * exists ext3. exact H3.
    + destruct (H7 x Hx) as (e & He & Hce & Hne0 & Hpx).
      exists e. split; [exact He|]. split; [exact Hce|]. split; [exact Hne0|].
      intros r Hr. rewrite <- Htab3.
      eapply path_weaken; [|by apply Hpx].
      intros i Hi. unfold free in *. rewrite Huse3 in Hi.
      destruct (da_in_use T b i) eqn:Eu; [|reflexivity].
      rewrite (keeps_used_in_use T b b1 i Hkeep1 Eu) in Hi. discriminate.
Qed.

End paths.

Local Open Scope nat_scope.


Section arrange_post.
Context (T : traits) {V : Type} {codec : value_codec V}.
Context (wf : elem T -> Prop).
Hypothesis laws : element_laws T wf.
Context (enc : V -> list nat).
Hypothesis put_enc : forall o v, put o v = o ++ enc v.

Lemma arrange_leaf_post p (rec : record_type V) (b : builder.t T) v b' :
  binv T wf b -> 1 <= length (m_tail T b) ->
  (let offset := otail.tellp (m_tail T b) in
   if (tr_max_base T <? Z.of_nat offset)%Z then Throw CapacityExceeded
   else Ok ((- Z.of_nat offset)%Z,
            with_tail T b (put (otail.write_string (m_tail T b) (key rec) p)
                               (value rec)))) = Ok (v, b') ->
  arrange_post T wf enc b p [rec] v b'.
Proof.
  intros Hinv Htail E. cbv zeta in E.
  destruct (Z.ltb_spec (tr_max_base T) (Z.of_nat (otail.tellp (m_tail T b))))
    as [|Hcap]; [discriminate|].
  injection E as <- <-. unfold otail.tellp, otail.bytes in *.
  rewrite put_enc. unfold otail.write_string, otail.write.
  split; [exact Hinv|].
  split.
  { split; [apply keeps_used_refl|]. split; [simpl; lia|].
    split; [|reflexivity]. simpl. eexists. rewrite <- app_assoc. reflexivity. }
  split; [unfold base_range; lia|].
  split; [intros _; lia|]. split; [simpl; lia|].
  intros r Hr. apply list_elem_of_singleton in Hr as ->.
  apply path_leaf; [lia|]. simpl.
  replace (Z.to_nat (- - Z.of_nat (length (m_tail T b)))) with (length (m_tail T b))
    by lia.
  split; [rewrite !length_app; lia|].
  exists []. rewrite <- !app_assoc, drop_app_length. by rewrite app_nil_r.
Qed.

Lemma arrange_post_holds fuel : arrange_post_at T wf enc fuel.
Proof.
  induction fuel as [|fuel IH]; intros p rs b v b' Hinv Htab Htail Hne Hk E;
    [discriminate|].
  assert (Hnode : length rs <> 1 ->
    (do '(children, max_offset) <- list_children (m_table T b) p (-1) [] 0 rs;;
     do '(base, b) <- find_base T (find_base_fuel T b children) b children max_offset 0;;
     if (tr_max_base T <=? Z.of_nat (base + max_offset))%Z then Throw CapacityExceeded
     else
       let used := if length (m_used_bases T b) <=? base
                   then resize (m_used_bases T b) (base + 1) false
                   else m_used_bases T b in
       do used <- set_at used base (fun _ => true);;
       let b := with_used_bases T b used in
       do b <- reserve T b base children;;
       do b <- set_children T (arrange T fuel) p base children b;;
       Ok (Z.of_nat base, b)) = Ok (v, b') ->
    arrange_post T wf enc b p rs v b').
  { clear E. intros Hlen E.
    pose proof (table_ok_length _ Htab) as Htl.
    destruct (list_children (m_table T b) p (-1) [] 0 rs)
      as [[children mo]| | | |] eqn:Elc; try discriminate.
    cbn [obind] in E.
    destruct (list_children_ok (m_table T b) p Htl rs (-1)%Z [] 0 children mo Hk)
      as (Hflat & Hchok & Hadj & _);
      [reflexivity | intros ch Hch; by apply elem_of_nil in Hch
      | by intros i x y Hx | exact Elc |].
    unfold flat in Hflat at 2. simpl in Hflat.
    pose proof (list_children_linked (m_table T b) p rs (-1)%Z [] 0 children mo
                  ltac:(intros ch Hch; by apply elem_of_nil in Hch) Elc) as Hlink.
    pose proof (offsets_distinct (m_table T b) children Htab Hadj Hlink) as Hnd.
    destruct children as [|ch0 rest];
      [unfold flat in Hflat; simpl in Hflat; congruence|].
    set (children := ch0 :: rest) in *.
    destruct (find_base T (find_base_fuel T b children) b children mo 0)
      as [[base b1]| | | |] eqn:Efb; try discriminate.
    cbn [obind] in E.
    destruct (find_base_post T wf laws (find_base_fuel T b children) b children mo 0
                ch0 rest base b1)
      as (Hinv1 & Hb1 & Hda1 & Hel1 & Hfree1 & _ & Huse1 & Hsame1 & Hlen1 & Hrest1);
      [reflexivity | exact Hinv | by destruct Hinv as [(_ & ? & _) _]
      | intros ch Hch; by destruct (Hchok ch Hch) as [_ [_ ?]] | exact Efb |].
    destruct (Z.leb_spec (tr_max_base T) (Z.of_nat (base + mo))) as [|Hcap];
      [discriminate|].
    cbv zeta in E.
    destruct (set_at _ base (fun _ : bool => true)) as [used| | | |];
      try discriminate.
    cbn [obind] in E.
    set (b1u := with_used_bases T b1 used) in *.
    destruct (reserve T b1u base children) as [b2| | | |] eqn:Er; try discriminate.
    cbn [obind] in E.
    destruct (set_children T (arrange T fuel) p base children b2)
      as [b3| | | |] eqn:Es; try discriminate.
    cbn [obind] in E. injection E as <- <-.
    destruct Hrest1 as (Hn1 & Htail1 & Htab1 & Hu1).
    destruct (reserve_post T wf laws children b1u base b2)
      as (Hinv2 & Hlen2 & Hrest2 & Hres2 & Hmono2 & Hda2);
      [exact Hinv1 | | exact Hnd | exact Er |].
    { intros ch Hch. destruct (Hchok ch Hch) as [_ [? ?]].
      split; [lia|]. split; [simpl; lia|]. by apply Hfree1. }
    destruct Hrest2 as (Hn2 & Htail2 & Htab2 & Hu2).
    assert (Htab2' : m_table T b2 = m_table T b) by (rewrite Htab2; exact Htab1).
    assert (Htail2' : m_tail T b2 = m_tail T b) by (rewrite Htail2; exact Htail1).
    destruct (set_children_post T wf laws enc fuel p base children IH b2 b3)
      as (Hinv3 & Hlen3 & [ext3 Htail3] & Htab3 & Hmono3 & Hkeep3 & Hcells);
      [exact Hinv2 | by rewrite Htab2' | by rewrite Htail2' | | exact Hnd | exact Es |].
    { intros ch Hch. destruct (Hchok ch Hch) as [Hu [Ho1 Ho2]].
      destruct (range_segment children ch Hch) as (A & B & HAB).
      split; [exact Hu|]. split.
      { intros r Hr. apply Hk. rewrite <- Hflat, HAB.
        apply elem_of_app. right. apply elem_of_app. by left. }
      split.
      { destruct (Hlink ch Hch) as (tc & Htc & ->).
        pose proof (table_ok_lt _ _ _ Htab Htc). lia. }
      by apply Hres2. }
    (* the result *)
    assert (Hslot_free : forall ch, ch ∈ children -> free T b (base + offset ch)).
    { intros ch Hch. unfold free. rewrite <- Huse1. by apply Hfree1. }
    split; [exact Hinv3|]. split.
    { split; [|split; [simpl in *; lia|split; [|congruence]]].
      - intros i e Hi He.
        assert (Hu : da_in_use T b i = true).
        { unfold da_in_use. rewrite Hi. by destruct (Z.eqb_spec (tr_get_base T e) 0). }
        assert (Hns : forall ch, ch ∈ children -> i <> base + offset ch).
        { intros ch Hch ->. pose proof (Hslot_free ch Hch). unfold free in *. congruence. }
        apply Hkeep3; [|exact He|exact Hns].
        rewrite Hda2 by exact Hns. simpl.
        rewrite Hsame1 by (by apply lookup_lt_Some in Hi). exact Hi.
      - exists ext3. rewrite Htail3. by rewrite Htail2'. }
    split; [unfold base_range; lia|].
    split; [intros Hl; by rewrite Hl in Hlen|]. split; [intros _; lia|].
    intros r Hr. rewrite <- Hflat in Hr.
    destruct (flat_elem _ _ Hr) as (ch & Hch & Hrch).
    destruct (Hchok ch Hch) as [[_ Hu] _].
    destruct (Hlink ch Hch) as (tc & Htc & Hoff).
    destruct (Hcells ch Hch) as (e & He & Hce & Hneg & Hp).
    assert (Hslot : Z.to_nat (Z.of_nat base) + tc + 1 = base + offset ch) by lia.
    eapply (path_node T enc _ _ _ _ (Z.of_nat base) p r tc e).
    - lia.
    - by rewrite (Hu r Hrch).
    - rewrite Hslot. by apply Hslot_free.
    - rewrite Hslot. exact He.
    - rewrite Hce. lia.
    - rewrite (Hu r Hrch). exact Hneg.
    - rewrite (Hu r Hrch). fold (child_pos p ch).
      rewrite <- Htab2'.
      eapply path_weaken; [|by apply Hp].
      intros i Hi. unfold free in *.
      destruct (da_in_use T b i) eqn:Eu; [|reflexivity].
      rewrite <- Huse1 in Eu. rewrite (Hmono2 i Eu) in Hi. discriminate. }
  cbn [arrange] in E.
  destruct rs as [|rec [|rec' rs']]; [contradiction| |].
  - by apply arrange_leaf_post.
  - apply Hnode; [simpl; lia|exact E].
Qed.

End arrange_post.

Local Open Scope nat_scope.


(** ** Looking up what was built *)

(** *** The serialization of values

    [enc v] are the bytes [operator<<] appends for the value [v]; reading
    at these bytes yields [v] again. [good] singles out the values that
    can be represented (a 32-bit integer, a string without a 0 byte). *)

Record codec_laws {V : Type} (codec : value_codec V) (enc : V -> list nat)
    (good : V -> Prop) : Prop := {
  put_enc : forall o v, put o v = o ++ enc v;
  get_enc : forall mem o v v0 rest,
    good v -> o <= length mem -> drop o mem = enc v ++ rest ->
    exists i', get (tail_of mem o) v0 = Ok (v, i');
}.

Lemma le_bytes_length w u : length (le_bytes w u) = w.
Proof. revert u. induction w as [|w IH]; intros u; simpl; [reflexivity|]. by rewrite IH. Qed.

Lemma le_value_bytes w u :
  (0 <= u < 2 ^ (8 * Z.of_nat w))%Z -> le_value (le_bytes w u) = u.
Proof.
  revert u. induction w as [|w IH]; intros u Hu.
  - simpl in *. lia.
  - cbn [le_bytes le_value].
    rewrite Z2Nat.id by (apply Z.mod_pos_bound; lia).
    rewrite IH.
    + pose proof (Z.div_mod u (2 ^ 8) ltac:(lia)). lia.
    + replace (8 * Z.of_nat (S w))%Z with (8 + 8 * Z.of_nat w)%Z in Hu by lia.
      rewrite Z.pow_add_r in Hu by lia.
      split; [apply Z.div_pos; lia|].
      apply Z.div_lt_upper_bound; lia.
Qed.

Lemma sint32_uint32 v : is_int32 v -> sint32 (uint32 v) = v.
Proof.
  unfold is_int32, sint32, uint32. intros Hv.
  change (2 ^ 31)%Z with 2147483648%Z in *. change (2 ^ 32)%Z with 4294967296%Z.
  Z.div_mod_to_equations. lia.
Qed.

Definition int_enc (v : Z) : list nat := le_bytes 4 (uint32 v).

Lemma int_codec_laws : codec_laws int_codec int_enc is_int32.
Proof.
  split.
  - reflexivity.
  - intros mem o v v0 rest Hv Ho Hd. simpl.
    unfold itail.read, tail_of, array.size, itail.mem. simpl.
    assert (Hlen : o + 4 <= length mem).
    { apply (f_equal length) in Hd. rewrite length_drop, length_app in Hd.
      unfold int_enc in Hd. rewrite le_bytes_length in Hd. lia. }
    destruct (Nat.leb_spec (o + 4) (length mem)); [|lia].
    rewrite mem_read_ok by exact Hlen. cbn [obind].
    eexists. f_equal. f_equal.
    rewrite Hd. unfold int_enc.
    rewrite take_app_length' by (by rewrite le_bytes_length).
    rewrite le_value_bytes; [by apply sint32_uint32|].
    unfold uint32. change (8 * Z.of_nat 4)%Z with 32%Z. apply Z.mod_pos_bound. lia.
Qed.

Lemma mem_strlen_app s rest :
  Forall (fun c => c <> 0) s -> mem_strlen (s ++ 0 :: rest) = Ok (length s).
Proof.
  induction 1 as [|c s Hc _ IH]; simpl; [reflexivity|].
  destruct (Nat.eqb_spec c 0); [contradiction|]. by rewrite IH.
Qed.

Definition string_enc (v : list nat) : list nat := v ++ [0].

Lemma string_codec_laws :
  codec_laws string_codec string_enc (Forall (fun c => c <> 0)).
Proof.
  split.
  - intros o v. simpl. unfold otail.write_string, otail.write. by rewrite drop_0.
  - intros mem o v v0 rest Hv Ho Hd. simpl.
    unfold itail.read_string, itail.strlen, tail_of, itail.mem. simpl.
    unfold string_enc in Hd. rewrite <- app_assoc in Hd. simpl in Hd.
    rewrite Hd, (mem_strlen_app v rest Hv). cbn [obind].
    eexists. f_equal. f_equal. by rewrite take_app_length.
Qed.

(** *** From the root to the tail entry of a record *)

Lemma c_head_drop {V : Type} p (r : record_type V) :
  p <= length (key r) -> c_head (drop p (key r)) = key_byte p r.
Proof.
  intros H. rewrite (key_byte_drop p r H). by destruct (drop p (key r)).
Qed.

Lemma tail_drop {A} (l : list A) p : tail (drop p l) = drop (p + 1) l.
Proof.
  revert l. induction p as [|p IH]; intros [|a l]; simpl;
    rewrite ?drop_0, ?drop_nil; auto.
Qed.

Section lookup.
Context (T : traits) {V : Type} {codec : value_codec V}.
Context (enc : V -> list nat) (good : V -> Prop).
Hypothesis claws : codec_laws codec enc good.
Hypothesis enc_nonempty : forall v, good v -> enc v <> [].

(** a trie that owns the arrays [da] and [tail] and the table [table] *)
Definition owns (tr : trie.t T) (da : list (elem T)) (tail table : list nat)
    : Prop :=
  trie.m_da T tr = array.mk (Some da) (length da) /\
  trie.m_table T tr = table /\
  itail.m_cont (trie.m_tail T tr) = array.mk (Some tail) (length tail).

Lemma owns_get_base tr da tail table i e :
  owns tr da tail table -> da !! i = Some e ->
  trie.get_base T tr i = Ok (tr_get_base T e).
Proof.
  intros (Hda & _) Hi. unfold trie.get_base, array.at_. rewrite Hda. simpl.
  by rewrite (at_Some _ _ _ Hi).
Qed.

Lemma owns_get_check tr da tail table i e :
  owns tr da tail table -> da !! i = Some e ->
  trie.get_check T tr i = Ok (tr_get_check T e).
Proof.
  intros (Hda & _) Hi. unfold trie.get_check, array.at_. rewrite Hda. simpl.
  by rewrite (at_Some _ _ _ Hi).
Qed.

(** one step down, along a node of the way *)
Lemma owns_descend tr da tail table cur e cc tc e' :
  owns tr da tail table ->
  da !! cur = Some e -> (0 < tr_get_base T e)%Z ->
  table !! cc = Some tc ->
  da !! (Z.to_nat (tr_get_base T e) + tc + 1) = Some e' ->
  tr_get_check T e' = tc ->
  trie.descend T tr cur cc = Ok (Z.to_nat (tr_get_base T e) + tc + 1).
Proof.
  intros Ho Hcur Hv Htc Hnext Hcheck. unfold trie.descend.
  rewrite (owns_get_base _ _ _ _ _ _ Ho Hcur). cbn [obind].
  destruct (Z.leb_spec (tr_get_base T e) 0); [lia|].
  destruct Ho as (Hda & Htab & Htl).
  rewrite Htab, (at_Some _ _ _ Htc). cbn [obind].
  rewrite Hda. unfold array.size. simpl.
  pose proof (lookup_lt_Some _ _ _ Hnext).
  destruct (Nat.leb_spec (length da) (Z.to_nat (tr_get_base T e) + tc + 1)); [lia|].
  unfold trie.get_check, array.at_. rewrite Hda. simpl.
  rewrite (at_Some _ _ _ Hnext). cbn [obind].
  rewrite Hcheck, Nat.eqb_refl. reflexivity.
Qed.

Lemma locate_loop_path da tl table F v p (r : record_type V) :
  path T enc da tl table F v p r ->
  forall tr cur e,
    owns tr da tl table ->
    da !! cur = Some e -> tr_get_base T e = v -> (0 < v)%Z ->
    p <= length (key r) ->
    exists off q,
      trie.locate_loop T tr cur (drop p (key r)) = Ok (Some (off, drop q (key r))) /\
      stored enc tl off (drop q (key r)) (value r).
Proof.
  induction 1 as [v p r Hv Hs|v p r tc e' Hv Ht HF He' Hc H0 Hp IH];
    intros tr cur e Ho Hcur Hbase Hpos Hple; [lia|].
  subst v.
  assert (Hstep : trie.locate_loop T tr cur (drop p (key r)) =
    let cc := c_head (drop p (key r)) in
    do cur <- trie.descend T tr cur cc;;
    if (cur =? INVALID_INDEX)%nat then Ok None
    else
      do base <- trie.get_base T tr cur;;
      if (base <? 0)%Z then
        Ok (Some (Z.to_nat (- base),
                  if (cc =? 0)%nat then drop p (key r) else tail (drop p (key r))))
      else if (cc =? 0)%nat then Ok None
      else match drop p (key r) with
           | [] => Ok None
           | _ :: p' => trie.locate_loop T tr cur p'
           end).
  { by destruct (drop p (key r)). }
  rewrite Hstep. cbv zeta. rewrite (c_head_drop p r Hple).
  rewrite (owns_descend tr da tl table cur e (key_byte p r) tc e' Ho Hcur Hpos Ht He' Hc).
  cbn [obind]. unfold INVALID_INDEX.
  destruct (Nat.eqb_spec (Z.to_nat (tr_get_base T e) + tc + 1) 0); [lia|].
  rewrite (owns_get_base _ _ _ _ _ _ Ho He'). cbn [obind].
  destruct (Z.ltb_spec (tr_get_base T e') 0) as [Hneg|Hnn].
  - (* the child is a leaf *)
    inversion Hp as [v' p' r' Hv' Hs Ev Ep Er|v' p' r' tc' e'' Hv' ? ? ? ? ? ? Ev Ep Er];
      [|lia].
    exists (Z.to_nat (- tr_get_base T e')),
           (if key_byte p r =? 0 then p else p + 1).
    split; [|exact Hs].
    f_equal. f_equal. f_equal.
    destruct (key_byte p r =? 0); [reflexivity|apply tail_drop].
  - destruct (Nat.eqb_spec (key_byte p r) 0) as [Hz|Hnz]; [specialize (H0 Hz); lia|].
    pose proof (key_byte_nonzero p r Hnz) as Hlt.
    assert (Hd : drop p (key r) = key_byte p r :: drop (p + 1) (key r)).
    { rewrite <- tail_drop. rewrite (key_byte_drop p r Hple).
      destruct (drop p (key r)) eqn:Ed; [|reflexivity].
      apply (f_equal length) in Ed. rewrite length_drop in Ed. simpl in Ed. lia. }
    rewrite Hd.
    apply (IH tr _ e' Ho He' eq_refl); [|lia].
    pose proof (path_nonzero T enc _ _ _ _ _ _ _ Hp). lia.
Qed.

(** the tail entry is found and the value read *)
Lemma find_stored tr da tail table off q (r : record_type V) v0 :
  owns tr da tail table ->
  Forall (fun c => c <> 0) (key r) -> good (value r) ->
  trie.locate_loop T tr INITIAL_INDEX (key r) = Ok (Some (off, drop q (key r))) ->
  stored enc tail off (drop q (key r)) (value r) ->
  result (trie.find T tr (key r) v0) = Ok (true, value r) /\
  result (trie.in_ T tr (key r)) = Ok true.
Proof.
  intros (Hda & Htab & Htl) Hkey Hgood Hloc [Hoff [rest Hd]].
  set (s := drop q (key r)) in *.
  assert (Hs : Forall (fun c => c <> 0) s) by (by apply Forall_drop).
  pose proof (enc_nonempty _ Hgood) as Hne.
  assert (Hlen : off + length s + 1 + length (enc (value r)) <= length tail).
  { apply (f_equal length) in Hd. rewrite length_drop, !length_app in Hd.
    simpl in Hd. lia. }
  assert (Hpos : 1 <= length (enc (value r))).
  { destruct (enc (value r)); [done|simpl; lia]. }
  assert (Hseek : itail.seekg (trie.m_tail T tr) off = tail_of tail off).
  { unfold itail.seekg. rewrite Htl. unfold array.size. simpl.
    destruct (Nat.ltb_spec off (length tail)); [reflexivity|lia]. }
  assert (Hmatch : itail.match_string (tail_of tail off) s = Ok true).
  { rewrite (match_string_spec tail off s s); [|split; [exact Hs|]|exact Hs].
    - f_equal. apply bool_decide_eq_true_2. split; [reflexivity|lia].
    - exists (enc (value r) ++ rest). rewrite Hd. reflexivity. }
  assert (Hstrlen : itail.strlen (tail_of tail off) = Ok (length s)).
  { unfold itail.strlen, itail.mem, tail_of. simpl. rewrite Hd.
    simpl. by apply mem_strlen_app. }
  assert (Hlocate : trie.locate T tr (key r)
                    = Ok (off + length s + 1, trie.set_tail T tr (tail_of tail off))).
  { unfold trie.locate. rewrite Hloc. cbn [obind]. rewrite Hseek, Hmatch.
    cbn [obind]. rewrite Hstrlen. reflexivity. }
  split.
  - unfold trie.find. rewrite Hlocate. cbn [obind].
    destruct (Nat.eqb_spec (off + length s + 1) 0); [lia|]. cbn [negb].
    assert (Hseek2 : itail.seekg (trie.m_tail T (trie.set_tail T tr (tail_of tail off)))
                       (off + length s + 1) = tail_of tail (off + length s + 1)).
    { unfold itail.seekg, array.size. simpl.
      destruct (Nat.ltb_spec (off + length s + 1) (length tail)); [reflexivity|lia]. }
    rewrite Hseek2.
    destruct (get_enc _ _ _ claws tail (off + length s + 1) (value r) v0 rest Hgood)
      as (i' & ->); [lia| |reflexivity].
    replace (off + length s + 1) with (off + (length s + 1)) by lia.
    rewrite <- drop_drop, Hd.
    rewrite (app_assoc s [0]).
    rewrite drop_app_length' by (rewrite length_app; simpl; lia). reflexivity.
  - unfold trie.in_. rewrite Hlocate. cbn [obind].
    by destruct (Nat.eqb_spec (off + length s + 1) 0); [lia|].
Qed.

End lookup.

Local Open Scope nat_scope.


(** *** The trie of a sorted list of records *)

Section built.
Context (T : traits) (wf : elem T -> Prop).
Hypothesis laws : element_laws T wf.
Context {V : Type} {codec : value_codec V}.
Context (enc : V -> list nat) (good : V -> Prop).
Hypothesis claws : codec_laws codec enc good.
Hypothesis enc_nonempty : forall v, good v -> enc v <> [].
Context (sort : list unigram_freq -> list unigram_freq).
Hypothesis Hsort : sort_contract sort.

Lemma table_built (rs : list (record_type V)) :
  c_string_keys rs -> table_ok (build_table sort (seq 0 NUMCHARS) rs).
Proof.
  intros Hrs. unfold table_ok.
  destruct (sorted_facts sort Hsort rs) as (Hl & _ & _ & _).
  pose proof (build_table_lookup sort Hsort rs (seq 0 NUMCHARS) (length_seq _ _))
    as Hlk.
  apply Permutation_sym, NoDup_Permutation_bis.
  - apply seq_NoDup.
  - rewrite build_table_length, length_seq. lia.
  - intros i Hi. apply in_seq in Hi.
    destruct (lookup_lt_is_Some_2 (sort (count_freq rs)) i) as [u Hiu]; [lia|].
    apply list_elem_of_In. eapply list_elem_of_lookup_2. apply Hlk. exact Hiu.
Qed.

Lemma initial_linv :
  linv [mk_dlink 0 1] (fun j => match [tr_default_value T] !! j with
                                | Some e => negb (tr_get_base T e =? 0)%Z
                                | None => false
                                end).
Proof.
  assert (H0 : forall j, match [tr_default_value T] !! j with
                         | Some e => negb (tr_get_base T e =? 0)%Z
                         | None => false
                         end = false).
  { intros [|j]; simpl; [|reflexivity]. by rewrite (base_default _ _ laws). }
  split.
  { split; [simpl; lia|]. intros i e Hi. destruct i as [|i]; [|by destruct i].
    injection Hi as <-. unfold node_ok. simpl. lia. }
  split; [apply H0|]. split; [intros j _; apply H0|].
  split; [intros j e _ _; apply H0|].
  split.
  - intros j e en Hj _ Hen. destruct j as [|j]; [|by destruct j].
    injection Hj as <-. simpl in Hen. discriminate.
  - intros j e e0 Hj _ _ He0. destruct j as [|j]; [|by destruct j].
    injection Hj as <-. by injection He0 as <-.
Qed.

(** what a successful build of two records or more leaves behind *)
Lemma build_post (b : builder.t T) (rs : list (record_type V)) b' :
  c_string_keys rs -> 2 <= length rs ->
  build T sort b rs = Ok b' ->
  exists e,
    m_da T b' !! INITIAL_INDEX = Some e /\ (0 < tr_get_base T e)%Z /\
    table_ok (m_table T b') /\
    forall r, r ∈ rs ->
      path T enc (m_da T b') (m_tail T b') (m_table T b') (fun _ => True)
           (tr_get_base T e) 0 r.
Proof.
  intros Hcs Hlen E. unfold build in E. rewrite clear_ok in E. cbn [obind] in E.
  set (b0 := with_table T _ _) in E.
  assert (Hinv0 : binv T wf b0).
  { split; [exact initial_linv|]. repeat constructor. apply (wf_default _ _ laws). }
  assert (Htab0 : m_table T b0 = build_table sort (seq 0 NUMCHARS) rs) by reflexivity.
  assert (Htail0 : m_tail T b0 = le_bytes 4 0) by reflexivity.
  assert (Hel0 : m_elink T b0 = [mk_dlink 0 1]) by reflexivity.
  assert (Hfree0 : forall j, da_in_use T b0 j = false).
  { intros [|j]; unfold da_in_use; simpl; [|reflexivity].
    by rewrite (base_default _ _ laws). }
  clearbody b0.
  set (b1 := da_expand T b0 (INITIAL_INDEX + 1)) in E.
  destruct Hinv0 as [Hl0 Hwf0].
  destruct (vlist_expand_linv T b1 (INITIAL_INDEX + 1) (da_in_use T b0))
    as (el2 & E2 & Hl2 & Hlen2).
  { unfold b1. rewrite (proj2 (da_expand_rest T b0 _)). exact Hl0. }
  rewrite E2 in E. cbn [obind] in E.
  set (b2 := with_elink T b1 el2) in *.
  assert (Huse2 : forall j, da_in_use T b2 j = da_in_use T b0 j).
  { intros j. apply (da_expand_same_use T wf laws). }
  assert (Hinv2 : binv T wf b2).
  { split.
    - eapply linv_ext; [|exact Hl2]. intros j. by rewrite Huse2.
    - by apply (da_expand_wf T wf laws). }
  assert (Hlen2' : length (m_elink T b2) = 2).
  { change (m_elink T b2) with el2. rewrite Hlen2. unfold b1.
    rewrite (proj2 (da_expand_rest T b0 _)), Hel0. reflexivity. }
  destruct (set_base T b2 INITIAL_INDEX 1) as [b3| | | |] eqn:E3; try discriminate.
  cbn [obind] in E.
  destruct (vlist_use T b3 INITIAL_INDEX) as [b4| | | |] eqn:E4; try discriminate.
  cbn [obind] in E.
  destruct (use_element T wf laws b2 INITIAL_INDEX 1 b3 b4 Hinv2)
    as (Hinv4 & Hlen4 & Hrest4 & _ & Huse4 & _); try done.
  { unfold INITIAL_INDEX. lia. }
  { by rewrite Huse2. }
  { pose proof (max_base_pos _ _ laws). unfold base_range. lia. }
  destruct Hrest4 as (_ & Htail4 & Htab4 & _).
  assert (Htab4' : m_table T b4 = build_table sort (seq 0 NUMCHARS) rs).
  { rewrite Htab4. unfold b2, b1, da_expand. destruct (_ <? _); exact Htab0. }
  assert (Htail4' : m_tail T b4 = le_bytes 4 0).
  { rewrite Htail4. unfold b2, b1, da_expand. destruct (_ <? _); exact Htail0. }
  destruct (arrange T (arrange_fuel rs) 0 rs b4) as [[v b5]| | | |] eqn:E5;
    try discriminate.
  cbn [obind] in E.
  unfold c_string_keys in Hcs.
  destruct (arrange_post_holds T wf laws enc (put_enc _ _ _ claws)
              (arrange_fuel rs) 0 rs b4 v b5)
    as (Hinv5 & (Hkeep5 & Hlen5 & Htail5 & Htab5) & Hv & _ & Hpos & Hpaths);
    [exact Hinv4 | rewrite Htab4'; by apply table_built
    | rewrite Htail4'; simpl; lia
    | intros ->; simpl in Hlen; lia | | exact E5 |].
  { intros r Hr. split; [lia|]. apply c_string_bytes.
    rewrite list.Forall_forall in Hcs. by apply Hcs. }
  specialize (Hpos ltac:(lia)).
  destruct (set_base_inv T _ _ _ _ E) as (e5 & He5 & ->).
  exists (tr_set_base T e5 v).
  assert (Hb : tr_get_base T (tr_set_base T e5 v) = v).
  { apply (base_set_base _ _ laws); [|exact Hv].
    destruct Hinv5 as [_ Hwf5]. by apply (wf_lookup T wf b5 INITIAL_INDEX). }
  rewrite Hb. simpl.
  split; [apply list_lookup_insert_eq; by apply lookup_lt_Some in He5|].
  split; [exact Hpos|].
  split; [rewrite Htab5, Htab4'; by apply table_built|].
  intros r Hr. rewrite Htab5.
  eapply path_weaken; [|eapply path_stable; [by apply Hpaths| |by exists []; rewrite app_nil_r]].
  - done.
  - intros i e Hfree Hi _. rewrite list_lookup_insert_ne; [exact Hi|].
    intros <-. unfold free in Hfree. rewrite Huse4 in Hfree.
    by rewrite Nat.eqb_refl in Hfree.
Qed.

(** the trie that takes over the arrays of the builder *)
Lemma assign_owns (b : builder.t T) n (table_length : length (m_table T b) = NUMCHARS) :
  owns T (trie.assign T (trie.init T n) (m_da T b) (m_tail T b) (m_table T b))
       (m_da T b) (m_tail T b) (m_table T b).
Proof.
  split; [reflexivity|]. split; [|reflexivity].
  simpl. apply firstn_all2. lia.
Qed.

(** every record of a sorted list is found in the trie built from it *)
Lemma stored_found (rs : list (record_type V)) :
  c_string_keys rs -> ascending rs = true -> 2 <= length rs ->
  Forall (fun r => good (value r)) rs ->
  build_trie T sort rs = Throw CapacityExceeded \/
  exists tr, build_trie T sort rs = Ok tr /\
    forall r v0, r ∈ rs ->
      result (trie.find T tr (key r) v0) = Ok (true, value r) /\
      result (trie.in_ T tr (key r)) = Ok true.
Proof.
  intros Hcs Hasc Hlen Hgood. unfold build_trie.
  destruct (build_sorted_outcome T sort (base_default _ _ laws) (init T 0 []) rs)
    as [[b' E]| ->]; [intros ->; simpl in Hlen; lia | exact Hcs | exact Hasc | | by left].
  right. rewrite E. cbn [obind]. eexists. split; [reflexivity|].
  intros r v0 Hr.
  destruct (build_post _ rs b' Hcs Hlen E) as (e & He & Hpos & Htab & Hpaths).
  pose proof (assign_owns b' 0 (table_ok_length _ Htab)) as Ho.
  rewrite list.Forall_forall in Hgood.
  unfold c_string_keys in Hcs. rewrite list.Forall_forall in Hcs.
  destruct (locate_loop_path T enc _ _ _ _ _ _ _ (Hpaths r Hr) _ INITIAL_INDEX e Ho He
              eq_refl Hpos ltac:(lia)) as (off & q & Hloc & Hst).
  rewrite drop_0 in Hloc.
  apply (find_stored T enc good claws enc_nonempty _ _ _ _ off q r v0 Ho);
    [|by apply Hgood|exact Hloc|exact Hst].
  eapply List.Forall_impl; [|by apply Hcs]. simpl. lia.
Qed.

(** X8. For every list of two or more records whose keys are C strings in
    strictly ascending order and whose values can be represented, the trie
    built from the list finds every record: [find] returns true and yields
    the value of the record, and [in] returns true - unless the builder
    runs out of space. The value type has to write at least one byte per
    value (as integers and strings do). *)
Theorem find_after_build_stored (rs : list (record_type V)) r v0 :
  c_string_keys rs -> ascending rs = true -> 2 <= length rs ->
  Forall (fun r => good (value r)) rs -> r ∈ rs ->
  (find_after_build T sort rs (key r) v0 = Ok (true, value r) /\
   in_after_build T sort rs (key r) = Ok true) \/
  build_trie T sort rs = Throw CapacityExceeded.
Proof.
  intros Hcs Hasc Hlen Hgood Hr.
  destruct (stored_found rs Hcs Hasc Hlen Hgood) as [E|(tr & E & Hall)];
    [by right|left].
  unfold find_after_build, in_after_build. rewrite E. cbn [obind].
  by apply Hall.
Qed.

End built.

Lemma int_enc_nonempty v : is_int32 v -> int_enc v <> [].
Proof. intros _. unfold int_enc. simpl. discriminate. Qed.

Lemma string_enc_nonempty v :
  Forall (fun c => c <> 0) v -> string_enc v <> [].
Proof. intros _. unfold string_enc. by destruct v. Qed.

Lemma find_after_build_stored_witness :
  (find_after_build doublearray5_traits.t sorts.sort_stable sample_records
     (bytes_of "seven") 0%Z = Ok (true, 7%Z) /\
   in_after_build doublearray5_traits.t sorts.sort_stable sample_records
     (bytes_of "seven") = Ok true) \/
  build_trie doublearray5_traits.t sorts.sort_stable sample_records
  = Throw CapacityExceeded.
Proof.
  apply (find_after_build_stored doublearray5_traits.t (fun _ => True)
           element_laws5 int_enc is_int32 int_codec_laws int_enc_nonempty
           sorts.sort_stable sort_stable_contract sample_records
           (mk_record (bytes_of "seven") 7%Z) 0%Z).
  - apply (bool_decide_unpack _). vm_compute. reflexivity.
  - vm_compute. reflexivity.
  - simpl. lia.
  - repeat constructor; simpl; unfold is_int32; lia.
  - apply list_elem_of_In. vm_compute. tauto.
Defined.

Local Open Scope nat_scope.


(** ** Values in the tail array *)

(** X9. An [int] written to the tail array is read back from the place it
    was written to, whatever follows it, and the read position moves on by
    four bytes. *)
Theorem int_round_trip (o : otail.t) (v v0 : Z) (rest : list nat) :
  is_int32 v ->
  get (tail_of (put o v ++ rest) (length o)) v0
  = Ok (v, tail_of (put o v ++ rest) (length o + 4)).
Proof.
  intros Hv. cbn [get put int_codec]. unfold otail.write.
  assert (Hl : length (le_bytes 4 (uint32 v)) = 4) by apply le_bytes_length.
  assert (Hb : sint32 (le_value (le_bytes 4 (uint32 v))) = v).
  { rewrite le_value_bytes; [by apply sint32_uint32|].
    unfold uint32. change (8 * Z.of_nat 4)%Z with 32%Z. apply Z.mod_pos_bound. lia. }
  revert Hl Hb. generalize (le_bytes 4 (uint32 v)). intros bs Hl Hb.
  unfold itail.read, tail_of, array.size, itail.mem. simpl.
  rewrite !length_app, Hl.
  destruct (Nat.leb_spec (length o + 4) (length o + 4 + length rest)); [|lia].
  rewrite mem_read_ok by (rewrite !length_app, Hl; lia).
  cbn [obind]. f_equal. f_equal.
  rewrite <- app_assoc, drop_app_length.
  rewrite take_app_length' by (by rewrite Hl). exact Hb.
Qed.

Lemma int_round_trip_witness :
  get (tail_of (put [0; 0; 0; 0] (-2)%Z ++ [7]) 4) 0%Z
  = Ok ((-2)%Z, tail_of (put [0; 0; 0; 0] (-2)%Z ++ [7]) 8).
Proof.
  apply (int_round_trip [0; 0; 0; 0] (-2)%Z 0%Z [7]). unfold is_int32. lia.
Defined.

(** X10. A string without a 0 byte written to the tail array (with its
    terminator) is read back from the place it was written to, whatever
    follows it, and the read position moves past the terminator. *)
Theorem string_round_trip (o : otail.t) (s v0 : list nat) (rest : list nat) :
  Forall (fun c => c <> 0) s ->
  get (tail_of (put o s ++ rest) (length o)) v0
  = Ok (s, tail_of (put o s ++ rest) (length o + length s + 1)).
Proof.
  intros Hs. simpl. unfold otail.write_string, otail.write. rewrite drop_0.
  unfold itail.read_string, itail.strlen, tail_of, itail.mem. simpl.
  rewrite <- !app_assoc, drop_app_length. simpl.
  rewrite (mem_strlen_app s rest Hs). cbn [obind].
  by rewrite take_app_length.
Qed.

Lemma string_round_trip_witness :
  get (tail_of (put [0; 0; 0; 0] [104; 105] ++ [7]) 4) []
  = Ok ([104; 105], tail_of (put [0; 0; 0; 0] [104; 105] ++ [7]) 7).
Proof.
  apply (string_round_trip [0; 0; 0; 0] [104; 105] [] [7]).
  repeat constructor; discriminate.
Defined.

(** ** What the builder keeps from one build to the next *)

Section reuse.
Context (T : traits) {V : Type} {codec : value_codec V}.
Context (sort : list unigram_freq -> list unigram_freq).


End reuse.


(** ** The prefix cursor on an arbitrary trie *)

Lemma nth_c_strlen (q : list nat) : nth (c_strlen q) q 0 = 0.
Proof.
  induction q as [|c q IH]; simpl; [reflexivity|].
  by destruct (Nat.eqb_spec c 0).
Qed.

Lemma c_strlen_le_nth (q : list nat) n : nth n q 0 = 0 -> c_strlen q <= n.
Proof.
  revert n. induction q as [|c q IH]; intros n Hn; simpl; [lia|].
  destruct (Nat.eqb_spec c 0); [lia|].
  destruct n as [|n]; simpl in Hn; [contradiction|].
  specialize (IH n Hn). lia.
Qed.

Lemma at_fuel {A} (l : list A) i : at_ l i <> OutOfFuel.
Proof. unfold at_. by destruct (l !! i). Qed.

Lemma array_at_fuel {A} (a : array.t A) i : array.at_ a i <> OutOfFuel.
Proof. unfold array.at_. destruct (array.m_block a); [apply at_fuel|discriminate]. Qed.

Lemma mem_strlen_fuel (mem : list nat) : mem_strlen mem <> OutOfFuel.
Proof.
  induction mem as [|c mem IH]; simpl; [discriminate|].
  destruct (c =? 0); [discriminate|]. by destruct (mem_strlen mem).
Qed.

Lemma match_string_partial_fuel (i : itail.t) str :
  itail.match_string_partial i str <> OutOfFuel.
Proof.
  unfold itail.match_string_partial, itail.strlen, mem_read.
  pose proof (mem_strlen_fuel (drop (itail.m_offset i) (itail.mem i))) as H.
  destruct (mem_strlen _) as [n| | | |]; cbn [obind]; try discriminate; try contradiction.
  destruct (_ <? _); [|discriminate].
  destruct (_ <=? _); cbn [obind]; [|discriminate].
  destruct (bytes_eqb _ _); [|discriminate].
  pose proof (at_fuel (itail.mem i) (itail.m_offset i + n)) as H'.
  by destruct (at_ _ _).
Qed.

Section cursor.
Context (T : traits) {V : Type} {codec : value_codec V}.
Hypothesis get_ends : forall (i : itail.t) (v : V), get i v <> OutOfFuel.

Lemma get_base_fuel (tr : trie.t T) i : trie.get_base T tr i <> OutOfFuel.
Proof.
  unfold trie.get_base. pose proof (array_at_fuel (trie.m_da T tr) i).
  by destruct (array.at_ _ _).
Qed.

Lemma get_check_fuel (tr : trie.t T) i : trie.get_check T tr i <> OutOfFuel.
Proof.
  unfold trie.get_check. pose proof (array_at_fuel (trie.m_da T tr) i).
  by destruct (array.at_ _ _).
Qed.

Lemma descend_fuel (tr : trie.t T) i c : trie.descend T tr i c <> OutOfFuel.
Proof.
  unfold trie.descend. pose proof (get_base_fuel tr i).
  destruct (trie.get_base T tr i) as [base| | | |]; cbn [obind];
    try discriminate; try contradiction.
  destruct (base <=? 0)%Z; [discriminate|].
  pose proof (at_fuel (trie.m_table T tr) c).
  destruct (at_ _ _) as [check| | | |]; cbn [obind];
    try discriminate; try contradiction.
  cbv zeta. destruct (_ <=? _); [discriminate|].
  pose proof (get_check_fuel tr (Z.to_nat base + check + 1)).
  destruct (trie.get_check T tr _) as [chk| | | |]; cbn [obind];
    try discriminate; try contradiction.
  by destruct (negb _).
Qed.

Definition plen (pfx : prefix_cursor.t V) : nat := prefix_cursor.length pfx.
Definition pquery (pfx : prefix_cursor.t V) : list nat := prefix_cursor.query pfx.

(** what an exit of the loop says about the cursor it was entered with *)
Definition forward (pfx : prefix_cursor.t V) (e : trie.prefix_exit T) : Prop :=
  match e with
  | trie.Return _ r _ pfx' =>
      pquery pfx' = pquery pfx /\ plen pfx <= plen pfx' /\
      (r = true -> plen pfx < plen pfx')
  | trie.Break _ _ pfx' =>
      pquery pfx' = pquery pfx /\ plen pfx <= plen pfx' /\
      (trie.query_at pfx <> 0 -> plen pfx < plen pfx')
  end.

Definition ends_forward (pfx : prefix_cursor.t V)
    (o : outcome (trie.prefix_exit T)) : Prop :=
  o <> OutOfFuel /\ forall e, o = Ok e -> forward pfx e.

Lemma ends_forward_fail (pfx : prefix_cursor.t V) (o : outcome (trie.prefix_exit T)) :
  o <> OutOfFuel -> (forall e, o <> Ok e) -> ends_forward pfx o.
Proof. intros H1 H2. split; [exact H1|]. intros e E. by destruct (H2 e). Qed.

(** the loop of next_prefix ends within its bound, and the cursor only
    moves forward *)
Lemma next_prefix_loop_progress fuel : forall (tr : trie.t T) (pfx : prefix_cursor.t V),
  plen pfx <= c_strlen (pquery pfx) ->
  c_strlen (pquery pfx) < plen pfx + fuel ->
  ends_forward pfx (trie.next_prefix_loop T fuel tr pfx).
Proof.
  induction fuel as [|fuel IH]; intros tr pfx Hle Hfuel.
  { lia. }
  cbn [trie.next_prefix_loop].
  pose proof (descend_fuel tr (prefix_cursor.cur pfx) (trie.query_at pfx)) as Hd.
  destruct (trie.descend T tr (prefix_cursor.cur pfx) (trie.query_at pfx))
    as [cur| | | |]; cbn [obind]; [| | | |contradiction];
    try (apply ends_forward_fail; [discriminate|intros ?; discriminate]).
  clear Hd.
  change (trie.query_at (trie.set_cur pfx cur)) with (trie.query_at pfx).
  destruct (cur =? INVALID_INDEX).
  { split; [discriminate|]. intros e E. injection E as <-.
    split; [reflexivity|]. split; [unfold plen; simpl; lia|discriminate]. }
  pose proof (get_base_fuel tr cur) as Hb.
  destruct (trie.get_base T tr cur) as [base| | | |]; cbn [obind];
    [| | | |contradiction];
    try (apply ends_forward_fail; [discriminate|intros ?; discriminate]).
  clear Hb.
  destruct (base <? 0)%Z.
  { split; [discriminate|]. intros e E. injection E as <-.
    split; [by destruct (trie.query_at pfx =? 0)|].
    destruct (Nat.eqb_spec (trie.query_at pfx) 0) as [Hz|Hz]; unfold plen; simpl.
    - split; [lia|]. intros Hx. contradiction.
    - split; [lia|]. intros _. lia. }
  pose proof (descend_fuel tr cur 0) as Hd.
  destruct (trie.descend T tr cur 0) as [cur0| | | |]; cbn [obind];
    [| | | |contradiction];
    try (apply ends_forward_fail; [discriminate|intros ?; discriminate]).
  clear Hd.
  (* the rounds after a node without a null child *)
  assert (Hrest : ends_forward pfx
    (if trie.query_at pfx =? 0
     then Ok (trie.Return T false tr (trie.set_cur pfx cur))
     else trie.next_prefix_loop T fuel tr (trie.incr_length (trie.set_cur pfx cur)))).
  { destruct (Nat.eqb_spec (trie.query_at pfx) 0) as [Hz|Hz].
    - split; [discriminate|]. intros e E. injection E as <-.
      split; [reflexivity|]. split; [unfold plen; simpl; lia|discriminate].
    - assert (Hlt : plen pfx < c_strlen (pquery pfx)).
      { destruct (Nat.eq_dec (plen pfx) (c_strlen (pquery pfx))) as [Heq|]; [|lia].
        exfalso. apply Hz. unfold trie.query_at. fold (plen pfx). rewrite Heq.
        apply nth_c_strlen. }
      destruct (IH tr (trie.incr_length (trie.set_cur pfx cur))) as [Hnf Hok].
      + unfold plen, pquery in *. simpl. lia.
      + unfold plen, pquery in *. simpl. lia.
      + split; [exact Hnf|]. intros e E. specialize (Hok e E).
        destruct e as [r tr' pfx'|off pfx']; unfold forward, plen, pquery in *;
          simpl in *; destruct Hok as (H1 & H2 & H3);
          (split; [exact H1|]); split; lia. }
  destruct (cur0 =? INVALID_INDEX); cbn [obind]; [exact Hrest|].
  pose proof (get_base_fuel tr cur0) as Hb.
  destruct (trie.get_base T tr cur0) as [base0| | | |]; cbn [obind];
    [| | | |contradiction];
    try (apply ends_forward_fail; [discriminate|intros ?; discriminate]).
  clear Hb.
  destruct (base0 =? 0)%Z; cbn [obind]; [exact Hrest|].
  destruct (0 <=? base0)%Z; cbn [obind];
    [apply ends_forward_fail; [discriminate|intros ?; discriminate]|].
  unfold itail.strlen.
  match goal with |- context [mem_strlen ?m] =>
    pose proof (mem_strlen_fuel m) as Hs; destruct (mem_strlen m) as [n| | | |] end;
    cbn [obind]; [| | | |contradiction];
    try (apply ends_forward_fail; [discriminate|intros ?; discriminate]).
  clear Hs.
  destruct (negb (n =? 0)); cbn [obind];
    [apply ends_forward_fail; [discriminate|intros ?; discriminate]|].
  match goal with |- context [get ?i ?v] =>
    pose proof (get_ends i v) as Hg; destruct (get i v) as [[v' tl]| | | |] end;
    cbn [obind]; [| | | |contradiction];
    try (apply ends_forward_fail; [discriminate|intros ?; discriminate]).
  split; [discriminate|]. intros e E. injection E as <-.
  split; [reflexivity|]. unfold plen. simpl. split; [lia|]. intros _. lia.
Qed.

(** X12. On every trie - also one that was not built by the builder - and
    for every cursor, [next] ends (as long as reading a value does), and
    when it returns it leaves the query alone and never moves the cursor
    back; when it returns true the length of the prefix has grown. *)
Theorem next_moves_forward (tr : trie.t T) (pfx : prefix_cursor.t V) :
  trie.next T tr pfx <> OutOfFuel /\
  forall r tr' pfx',
    trie.next T tr pfx = Ok (r, tr', pfx') ->
    prefix_cursor.query pfx' = prefix_cursor.query pfx /\
    prefix_cursor.length pfx <= prefix_cursor.length pfx' /\
    (r = true -> prefix_cursor.length pfx < prefix_cursor.length pfx').
Proof.
  unfold trie.next, trie.next_prefix. cbv zeta.
  destruct (Nat.leb_spec (c_strlen (prefix_cursor.query pfx)) (prefix_cursor.length pfx))
    as [Hle|Hgt].
  { split; [discriminate|]. intros r tr' pfx' E. injection E as <- _ <-.
    split; [reflexivity|]. split; [lia|discriminate]. }
  destruct (next_prefix_loop_progress
              (S (c_strlen (prefix_cursor.query pfx) - prefix_cursor.length pfx)) tr pfx)
    as [Hnf Hok]; [unfold plen, pquery; lia | unfold plen, pquery; lia |].
  destruct (trie.next_prefix_loop T _ tr pfx) as [e| | | |]; cbn [obind];
    try (split; [discriminate|intros r tr' pfx'; discriminate]); [|contradiction].
  specialize (Hok e eq_refl).
  assert (Hnz : trie.query_at pfx <> 0).
  { intros Hz. unfold trie.query_at in Hz.
    pose proof (c_strlen_le_nth (prefix_cursor.query pfx) (prefix_cursor.length pfx) Hz).
    lia. }
  destruct e as [r0 tr0 pfx0|off pfx0]; unfold forward, plen, pquery in *.
  - split; [discriminate|]. intros r tr' pfx' E. injection E as <- _ <-. exact Hok.
  - destruct Hok as (H1 & H2 & H3). specialize (H3 Hnz).
    match goal with |- context [itail.match_string_partial ?i ?s] =>
      pose proof (match_string_partial_fuel i s) as Hm;
      destruct (itail.match_string_partial i s) as [m| | | |] end;
      cbn [obind]; [| | | |contradiction];
      try (split; [discriminate|intros r tr' pfx'; discriminate]).
    clear Hm. destruct m.
    + unfold itail.strlen.
      match goal with |- context [mem_strlen ?m] =>
        pose proof (mem_strlen_fuel m) as Hs; destruct (mem_strlen m) as [n| | | |] end;
        cbn [obind]; [| | | |contradiction];
        try (split; [discriminate|intros r tr' pfx'; discriminate]).
      match goal with |- context [get ?i ?v] =>
        pose proof (get_ends i v) as Hg; destruct (get i v) as [[v' tl]| | | |] end;
        cbn [obind]; [| | | |contradiction];
        try (split; [discriminate|intros r tr' pfx'; discriminate]).
      split; [discriminate|]. intros r tr' pfx' E. injection E as <- _ <-.
      simpl. split; [exact H1|]. split; [lia|]. intros _. lia.
    + split; [discriminate|]. intros r tr' pfx' E. injection E as <- _ <-.
      split; [exact H1|]. split; [lia|discriminate].
Qed.

End cursor.

Lemma next_moves_forward_witness :
  let pfx := trie.prefix (bytes_of "eighteen") 0%Z in
  trie.next doublearray5_traits.t sample_trie pfx <> OutOfFuel /\
  forall r tr' pfx',
    trie.next doublearray5_traits.t sample_trie pfx = Ok (r, tr', pfx') ->
    prefix_cursor.query pfx' = prefix_cursor.query pfx /\
    prefix_cursor.length pfx <= prefix_cursor.length pfx' /\
    (r = true -> prefix_cursor.length pfx < prefix_cursor.length pfx').
Proof.
  apply (next_moves_forward doublearray5_traits.t).
  intros i v. cbn [get int_codec]. unfold itail.read, mem_read.
  destruct (_ <=? _); [|discriminate].
  destruct (_ <=? _); discriminate.
Defined.

Local Open Scope nat_scope.


(** ** Records that are not in strictly ascending order *)

(** *** The lexicographic order of the keys *)

Lemma lex_lt_trans x : forall y z,
  lex_lt x y = true -> lex_lt y z = true -> lex_lt x z = true.
Proof.
  induction x as [|a x IH]; intros [|b y] [|c z] Hxy Hyz; simpl in *; try done.
  apply orb_true_iff in Hxy. apply orb_true_iff in Hyz. apply orb_true_iff.
  destruct Hxy as [Hab|Hab]; destruct Hyz as [Hbc|Hbc].
  - left. apply Nat.ltb_lt in Hab, Hbc. apply Nat.ltb_lt. lia.
  - apply andb_true_iff in Hbc as [Hbc _]. apply Nat.eqb_eq in Hbc as <-. by left.
  - apply andb_true_iff in Hab as [Hab _]. apply Nat.eqb_eq in Hab as ->. by left.
  - apply andb_true_iff in Hab as [Hab Hxy]. apply andb_true_iff in Hbc as [Hbc Hyz].
    apply Nat.eqb_eq in Hab as ->. apply Nat.eqb_eq in Hbc as ->.
    right. rewrite Nat.eqb_refl. simpl. by apply (IH y z).
Qed.

Section order_by_index.
Context {V : Type}.

Lemma pairwise_lookup (f : record_type V -> record_type V -> bool) rs :
  pairwise f rs = true ->
  forall i r r', rs !! i = Some r -> rs !! S i = Some r' -> f r r' = true.
Proof.
  induction rs as [|a rs IH]; intros H i r r' Hi Hj; [discriminate|].
  destruct rs as [|b rs]; [discriminate|].
  cbn [pairwise] in H. apply andb_true_iff in H as [H1 H2].
  destruct i as [|i]; simpl in Hi, Hj.
  - by injection Hi as <-; injection Hj as <-.
  - by apply (IH H2 i).
Qed.

Lemma pairwise_middle (f : record_type V -> record_type V -> bool) l1 r r' l2 :
  f r r' = false -> pairwise f (l1 ++ r :: r' :: l2) = false.
Proof.
  intros Hf. destruct (pairwise f (l1 ++ r :: r' :: l2)) eqn:E; [|reflexivity].
  rewrite (pairwise_true f _ E l1 r r' l2 eq_refl) in Hf. discriminate.
Qed.

(** in a strictly ascending list an earlier key is smaller than a later one *)
Lemma ascending_lookup (rs : list (record_type V)) i j r r' :
  ascending rs = true -> i < j ->
  rs !! i = Some r -> rs !! j = Some r' -> lex_lt (key r) (key r') = true.
Proof.
  intros Hasc Hij Hi. revert r'. induction Hij as [|j Hij IH]; intros r' Hj.
  - exact (pairwise_lookup _ rs Hasc i r r' Hi Hj).
  - destruct (lookup_lt_is_Some_2 rs j) as [m Hm];
      [apply lookup_lt_Some in Hj; lia|].
    apply (lex_lt_trans _ (key m)); [by apply IH|].
    exact (pairwise_lookup _ rs Hasc j m r' Hm Hj).
Qed.

(** a key that occurs twice makes the list not strictly ascending *)
Lemma repeated_not_ascending (rs : list (record_type V)) i j r r' :
  i < j -> rs !! i = Some r -> rs !! j = Some r' -> key r = key r' ->
  ascending rs = false.
Proof.
  intros Hij Hi Hj Hk. destruct (ascending rs) eqn:E; [|reflexivity].
  pose proof (ascending_lookup rs i j r r' E Hij Hi Hj) as H.
  rewrite Hk, lex_lt_irrefl in H. discriminate.
Qed.

End order_by_index.

(** *** What build does with such records *)

Section rejected.
Context (T : traits) {V : Type} {codec : value_codec V}.
Context (sort : list unigram_freq -> list unigram_freq).
Hypothesis default_base : tr_get_base T (tr_default_value T) = 0%Z.

(** the inspection of a list that is not strictly ascending finds an error *)
Lemma not_ascending_verdict (rs : list (record_type V)) :
  byte_keys rs -> ascending rs = false ->
  rs <> [] /\
  verdict (built_table sort rs) (arrange_fuel rs) 0 rs <> None.
Proof.
  intros Hbytes Hasc. unfold byte_keys in Hbytes. rewrite list.Forall_forall in Hbytes.
  assert (Hk : keys_ok 0 rs) by (intros r Hr; split; [lia|by apply Hbytes]).
  assert (Htl : length (built_table sort rs) = NUMCHARS)
    by exact (eq_trans (build_table_length _ _ _) (length_seq _ _)).
  destruct (pairwise_false _ rs Hasc) as (l1 & r & r' & l2 & E & Hf).
  assert (Hr : r ∈ rs) by (rewrite E; apply elem_of_app; right; left).
  split; [rewrite E; by destruct l1|].
  apply (verdict_pair _ Htl _ 0 rs l1 r r' l2 E Hk); [done|exact Hf|].
  pose proof (arrange_fuel_bound rs r Hr). lia.
Qed.

(** build never returns on a list that is not strictly ascending *)
Lemma not_ascending_outcome (b : builder.t T) (rs : list (record_type V)) :
  byte_keys rs -> ascending rs = false ->
  build T sort b rs = Throw CapacityExceeded \/
  exists e, verdict (built_table sort rs) (arrange_fuel rs) 0 rs = Some e /\
            build T sort b rs = Throw e /\
            (e = UnsortedInput \/ e = DuplicateKey).
Proof.
  intros Hbytes Hasc.
  destruct (not_ascending_verdict rs Hbytes Hasc) as [Hne Hsome].
  unfold byte_keys in Hbytes. rewrite list.Forall_forall in Hbytes.
  assert (Hk : keys_ok 0 rs) by (intros r Hr; split; [lia|by apply Hbytes]).
  assert (Htl : length (built_table sort rs) = NUMCHARS)
    by exact (eq_trans (build_table_length _ _ _) (length_seq _ _)).
  destruct (build_agrees T sort default_base b rs Hne Hbytes)
    as [->|[(e & He & ->)|(Hn & _)]]; [by left| |contradiction].
  right. exists e. split; [exact He|]. split; [reflexivity|].
  exact (verdict_errors _ Htl _ _ _ _ Hk He).
Qed.

(** C4, as the code has it. When the key of some record is smaller than
    the key of the record before it (its byte at the first position where
    the two keys differ is the smaller one, the terminator being the
    smallest), [build] does not return: it throws one of the errors of the
    builder, and no builder state results. The error is the one for
    unsorted records when the keys are C strings and no key is identical
    to the next one, unless the double array runs out of space first. *)
Theorem unsorted_records_rejected (b : builder.t T)
    (rs l1 l2 : list (record_type V)) (r r' : record_type V) :
  byte_keys rs ->
  rs = l1 ++ r :: r' :: l2 -> lex_lt (key r') (key r) = true ->
  (exists e, build T sort b rs = Throw e /\ builder_error e) /\
  (c_string_keys rs -> neighbours_differ rs = true ->
   build T sort b rs = Throw UnsortedInput \/
   build T sort b rs = Throw CapacityExceeded).
Proof.
  intros Hbytes E Hlt.
  assert (Hasc : ascending rs = false).
  { rewrite E. apply pairwise_middle. by apply lex_lt_asym. }
  destruct (not_ascending_outcome b rs Hbytes Hasc) as [Hc|(e & He & Hb & Hcases)].
  - split; [|by right]. exists CapacityExceeded. split; [exact Hc|]. right. by right.
  - split.
    + exists e. split; [exact Hb|]. destruct Hcases as [-> | ->]; [by left|right; by left].
    + intros Hcs Hdiff. destruct Hcases as [-> | ->]; [by left|]. exfalso.
      unfold byte_keys in Hbytes. rewrite list.Forall_forall in Hbytes.
      unfold c_string_keys in Hcs. rewrite list.Forall_forall in Hcs.
      revert He. apply (verdict_neighbours_differ _
                          (eq_trans (build_table_length _ _ _) (length_seq _ _))).
      * intros x Hx. split; [lia|by apply Hbytes].
      * intros x Hx. eapply List.Forall_impl; [|by apply Hcs]. simpl. lia.
      * done.
      * exact Hdiff.
Qed.

(** C5, as the code has it. When two records of the list have the same
    key, [build] does not return: it throws one of the errors of the
    builder. The error is the one for duplicated keys when no key is
    greater than the next one, unless the double array runs out of space
    first. *)
Theorem duplicate_keys_rejected (b : builder.t T)
    (rs : list (record_type V)) (i j : nat) (r r' : record_type V) :
  byte_keys rs ->
  i < j -> rs !! i = Some r -> rs !! j = Some r' -> key r = key r' ->
  (exists e, build T sort b rs = Throw e /\ builder_error e) /\
  (nondescending rs = true ->
   build T sort b rs = Throw DuplicateKey \/
   build T sort b rs = Throw CapacityExceeded).
Proof.
  intros Hbytes Hij Hi Hj Hkeys.
  pose proof (repeated_not_ascending rs i j r r' Hij Hi Hj Hkeys) as Hasc.
  destruct (not_ascending_outcome b rs Hbytes Hasc) as [Hc|(e & He & Hb & Hcases)].
  - split; [|by right]. exists CapacityExceeded. split; [exact Hc|]. right. by right.
  - split.
    + exists e. split; [exact Hb|]. destruct Hcases as [-> | ->]; [by left|right; by left].
    + intros Hnd. destruct Hcases as [-> | ->]; [|by left]. exfalso.
      unfold byte_keys in Hbytes. rewrite list.Forall_forall in Hbytes.
      revert He. apply (verdict_nondescending _
                          (eq_trans (build_table_length _ _ _) (length_seq _ _))).
      * intros x Hx. split; [lia|by apply Hbytes].
      * done.
      * exact Hnd.
Qed.

End rejected.

(** *** On concrete lists *)

Lemma unsorted_records_rejected_witness :
  let rs := records_of [("a", 1%Z); ("c", 2%Z); ("b", 3%Z)]%string in
  (exists e, build doublearray5_traits.t sorts.sort_stable fresh5 rs = Throw e /\
             builder_error e) /\
  (build doublearray5_traits.t sorts.sort_stable fresh5 rs = Throw UnsortedInput \/
   build doublearray5_traits.t sorts.sort_stable fresh5 rs = Throw CapacityExceeded).
Proof.
  destruct (unsorted_records_rejected doublearray5_traits.t sorts.sort_stable
              default_base5 fresh5
              (records_of [("a", 1%Z); ("c", 2%Z); ("b", 3%Z)]%string)
              (records_of [("a", 1%Z)]%string) []
              (mk_record (bytes_of "c") 2%Z) (mk_record (bytes_of "b") 3%Z))
    as [H1 H2].
  - apply (bool_decide_unpack _). vm_compute. reflexivity.
  - reflexivity.
  - vm_compute. reflexivity.
  - split; [exact H1|]. apply H2.
    + apply (bool_decide_unpack _). vm_compute. reflexivity.
    + vm_compute. reflexivity.
Defined.

Lemma duplicate_keys_rejected_witness :
  let rs := records_of [("a", 1%Z); ("b", 2%Z); ("b", 3%Z)]%string in
  (exists e, build doublearray5_traits.t sorts.sort_stable fresh5 rs = Throw e /\
             builder_error e) /\
  (build doublearray5_traits.t sorts.sort_stable fresh5 rs = Throw DuplicateKey \/
   build doublearray5_traits.t sorts.sort_stable fresh5 rs = Throw CapacityExceeded).
Proof.
  destruct (duplicate_keys_rejected doublearray5_traits.t sorts.sort_stable
              default_base5 fresh5
              (records_of [("a", 1%Z); ("b", 2%Z); ("b", 3%Z)]%string) 1 2
              (mk_record (bytes_of "b") 2%Z) (mk_record (bytes_of "b") 3%Z))
    as [H1 H2].
  - apply (bool_decide_unpack _). vm_compute. reflexivity.
  - lia.
  - reflexivity.
  - reflexivity.
  - reflexivity.
  - split; [exact H1|]. apply H2. vm_compute. reflexivity.
Defined.

(** C4, as claimed. (1) In "a", "a", "bz", "ba" the key "ba" is smaller
    than the key "bz" before it, and [build] throws the error for
    duplicated keys: the subtree of the two records "a" is arranged before
    the subtree of "bz" and "ba" is looked at. (2) Of the two std::string
    keys 'a', 0, 'b' and 'a', 0, 'a' the second is the smaller one; they
    are the same C string, and [build] throws the error for duplicated
    keys. *)
Lemma unsorted_reported_as_duplicate :
  build doublearray5_traits.t std_sort.sort fresh5 descending_after_duplicate
  = Throw DuplicateKey /\
  build doublearray4_traits.t std_sort.sort (init doublearray4_traits.t 0 [])
        descending_after_duplicate
  = Throw DuplicateKey /\
  build doublearray5_traits.t std_sort.sort fresh5 descending_behind_nul
  = Throw DuplicateKey.
Proof. repeat split; reflexivity. Qed.

(** C5, as claimed. The lists "b", "a", "a" and "a", "b", "a" have two
    records with the key "a", and [build] throws the error for unsorted
    records. *)
Lemma duplicate_reported_as_unsorted :
  build doublearray5_traits.t std_sort.sort fresh5 duplicate_after_descent
  = Throw UnsortedInput /\
  build doublearray4_traits.t std_sort.sort (init doublearray4_traits.t 0 [])
        duplicate_after_descent
  = Throw UnsortedInput /\
  build doublearray5_traits.t std_sort.sort fresh5 duplicate_apart
  = Throw UnsortedInput.
Proof. repeat split; reflexivity. Qed.
